(** * PixelProvenance: payload codec, bit-plane channel and perceptual scanner

    A shallow embedding of the encode and decode paths of the repository,
    one module for each source file:

    - [DevTagStrip]: [simpleHash], [buildPayload] and [renderToCanvas] of
      [DevTagStrip.tsx];
    - [DevTagScope]: [buildHierarchicalPayload], the LSB embedding of
      [renderShadowWithHierarchy] and the scope built by the [DevTagScope]
      component;
    - [Strip] ([decode-devtag.ts]) and [Shadow] ([decode-shadow.ts]):
      [findMagic], [parsePayload], [decodeFromPNG];
    - [DevTag] ([DevTag.tsx]): [generatePerceptualPattern];
    - [Decode] ([decoder/decode.ts]): [generatePattern], [extractTile],
      [compare], [scan];
    - [DecodeNoise] ([decoder/decode-noise.ts]): [extractTileHash],
      [scanImage].

    JavaScript numbers that hold integers are modelled by [Z], with the
    32-bit wrap-around of the bitwise operators written out.  Strings are
    lists of UTF-16 code units.  Array reads that fall outside the array
    yield [Undefined].  The definitions come first, the properties after
    them. *)

From Stdlib Require Import ZArith List Bool Lia Reals Lra Zfloor.
From Stdlib Require String Ascii.
From stdpp Require Import base list.
Import ListNotations.
Import String.StringSyntax.

Local Open Scope Z_scope.

(** ** JavaScript values and 32-bit integer operators *)

Module JS.

(** The result of an array read: a number, or [undefined] when the index
    is outside the array. *)
Inductive value : Type :=
| Undefined
| Num (n : Z).

Definition value_eqb (a b : value) : bool :=
  match a, b with
  | Undefined, Undefined => true
  | Num x, Num y => x =? y
  | _, _ => false
  end.

(** [ToInt32] and [ToUint32] on an integral number. *)
Definition to_int32 (x : Z) : Z := (x + 2 ^ 31) mod 2 ^ 32 - 2 ^ 31.
Definition to_uint32 (x : Z) : Z := x mod 2 ^ 32.

(** [ToInt32] of a value: [undefined] converts to [NaN], then to 0. *)
Definition int32_of (v : value) : Z :=
  match v with
  | Undefined => 0
  | Num n => to_int32 n
  end.

(** [a << n], [a >> n], [a >>> n], [a | b], [a & b], [a ^ b]. *)
Definition shl (a n : Z) : Z := to_int32 (Z.shiftl (to_int32 a) (n mod 32)).
Definition sar (a n : Z) : Z := Z.shiftr (to_int32 a) (n mod 32).
Definition shru (a n : Z) : Z := Z.shiftr (to_uint32 a) (n mod 32).
Definition bor (a b : Z) : Z := Z.lor (to_int32 a) (to_int32 b).
Definition band (a b : Z) : Z := Z.land (to_int32 a) (to_int32 b).
Definition bxor (a b : Z) : Z := Z.lxor (to_int32 a) (to_int32 b).

(** A string is its sequence of UTF-16 code units ([str.charCodeAt(i)],
    [str.length]). *)
Definition jsstring := list Z.

(** [arr[i]] for a numeric index. *)
Definition get (arr : list value) (i : Z) : value :=
  if i <? 0 then Undefined
  else match arr !! Z.to_nat i with
       | Some v => v
       | None => Undefined
       end.

(** [arr.slice(s, e)] with JavaScript's relative-index clamping. *)
Definition clamp_index (len i : Z) : Z :=
  if i <? 0 then Z.max (len + i) 0 else Z.min i len.

Definition slice {A} (arr : list A) (s e : Z) : list A :=
  let len := Z.of_nat (length arr) in
  let k := clamp_index len s in
  let final := clamp_index len e in
  take (Z.to_nat (final - k)) (drop (Z.to_nat k) arr).

(** [str.slice(0, n)] and [str.padEnd(n, c)] for a one-unit filler. *)
Definition str_slice0 (n : nat) (s : jsstring) : jsstring := take n s.
Definition padEnd (n : nat) (c : Z) (s : jsstring) : jsstring :=
  s ++ replicate (n - length s) c.

(** [str.replace(/0+$/, '')]: the trailing run of the character '0'
    (code unit 48) is removed. *)
Fixpoint drop_leading (c : Z) (s : jsstring) : jsstring :=
  match s with
  | [] => []
  | u :: rest => if u =? c then drop_leading c rest else s
  end.

Definition strip_trailing (c : Z) (s : jsstring) : jsstring :=
  rev (drop_leading c (rev s)).

End JS.

Import JS.

(** ** The platform's [TextEncoder] and [TextDecoder] (UTF-8)

    [stringToBytes] and [bytesToString] call the platform's UTF-8 codec.
    It is modelled after the WHATWG Encoding Standard: the encoder first
    replaces unpaired surrogates by U+FFFD; the decoder replaces
    ill-formed sequences by U+FFFD and drops one leading byte order mark.
    Shifts and masks of the standard are written as [/], [mod], [*]
    and [+] on the byte ranges where they agree. *)

Module Encoding.

Definition is_high (u : Z) : bool := (0xD800 <=? u) && (u <=? 0xDBFF).
Definition is_low (u : Z) : bool := (0xDC00 <=? u) && (u <=? 0xDFFF).

(** Code units to scalar values (conversion to a [USVString]). *)
Fixpoint to_scalars (s : jsstring) : list Z :=
  match s with
  | [] => []
  | u :: rest =>
      if is_high u then
        match rest with
        | v :: rest' =>
            if is_low v
            then (0x10000 + (u - 0xD800) * 0x400 + (v - 0xDC00)) :: to_scalars rest'
            else 0xFFFD :: to_scalars rest
        | [] => [0xFFFD]
        end
      else if is_low u then 0xFFFD :: to_scalars rest
      else u :: to_scalars rest
  end.

(** Scalar values back to code units. *)
Definition units_of_scalar (c : Z) : list Z :=
  if c <? 0x10000 then [c]
  else [0xD800 + (c - 0x10000) / 0x400; 0xDC00 + (c - 0x10000) mod 0x400].

Definition of_scalars (cs : list Z) : jsstring := concat (map units_of_scalar cs).

(** The UTF-8 encoding of one scalar value. *)
Definition utf8_encode_scalar (c : Z) : list Z :=
  if c <? 0x80 then [c]
  else if c <? 0x800 then [0xC0 + c / 64; 0x80 + c mod 64]
  else if c <? 0x10000 then
    [0xE0 + c / 4096; 0x80 + (c / 64) mod 64; 0x80 + c mod 64]
  else
    [0xF0 + c / 262144; 0x80 + (c / 4096) mod 64;
     0x80 + (c / 64) mod 64; 0x80 + c mod 64].

Definition utf8_encode (cs : list Z) : list Z := concat (map utf8_encode_scalar cs).

(** The state of the UTF-8 decoder. *)
Record dstate : Type := mkD {
  d_cp : Z;       (* code point under construction *)
  d_seen : Z;     (* continuation bytes seen *)
  d_needed : Z;   (* continuation bytes needed *)
  d_lower : Z;
  d_upper : Z
}.

Definition d_init : dstate := mkD 0 0 0 0x80 0xBF.

(** A byte read while no sequence is open. *)
Definition dstep_start (b : Z) : dstate * list Z :=
  if (0 <=? b) && (b <=? 0x7F) then (d_init, [b])
  else if (0xC2 <=? b) && (b <=? 0xDF) then (mkD (b - 0xC0) 0 1 0x80 0xBF, [])
  else if (0xE0 <=? b) && (b <=? 0xEF) then
    (mkD (b - 0xE0) 0 2 (if b =? 0xE0 then 0xA0 else 0x80)
         (if b =? 0xED then 0x9F else 0xBF), [])
  else if (0xF0 <=? b) && (b <=? 0xF4) then
    (mkD (b - 0xF0) 0 3 (if b =? 0xF0 then 0x90 else 0x80)
         (if b =? 0xF4 then 0x8F else 0xBF), [])
  else (d_init, [0xFFFD]).

(** One byte of input: the new state and the code points emitted. *)
Definition dstep (st : dstate) (b : Z) : dstate * list Z :=
  if d_needed st =? 0 then dstep_start b
  else if negb ((d_lower st <=? b) && (b <=? d_upper st)) then
    (* ill-formed: emit U+FFFD and read the byte again from the start state *)
    let '(st', out) := dstep_start b in (st', 0xFFFD :: out)
  else
    let cp := d_cp st * 64 + (b - 0x80) in
    if d_seen st + 1 =? d_needed st then (d_init, [cp])
    else (mkD cp (d_seen st + 1) (d_needed st) 0x80 0xBF, []).

Fixpoint utf8_decode_from (st : dstate) (bs : list Z) : list Z :=
  match bs with
  | [] => if d_needed st =? 0 then [] else [0xFFFD]
  | b :: rest => let '(st', out) := dstep st b in out ++ utf8_decode_from st' rest
  end.

Definition utf8_decode (bs : list Z) : list Z := utf8_decode_from d_init bs.

(** A decoder with [ignoreBOM = false] drops a leading U+FEFF. *)
Definition strip_bom (cs : list Z) : list Z :=
  match cs with
  | c :: rest => if c =? 0xFEFF then rest else cs
  | [] => []
  end.

(** [new TextEncoder().encode(str)] as a list of byte values. *)
Definition TextEncoder_encode (s : jsstring) : list Z := utf8_encode (to_scalars s).

(** The element conversion of [new Uint8Array(values)]: [ToUint8]. *)
Definition to_uint8 (v : value) : Z :=
  match v with
  | Undefined => 0
  | Num n => n mod 256
  end.

(** [new TextDecoder().decode(new Uint8Array(values))]. *)
Definition TextDecoder_decode (bs : list value) : jsstring :=
  of_scalars (strip_bom (utf8_decode (map to_uint8 bs))).

(** Well-formed UTF-16: every surrogate is part of a pair. *)
Inductive well_formed : jsstring -> Prop :=
| wf_nil : well_formed []
| wf_unit u s :
    0 <= u < 0x10000 -> is_high u = false -> is_low u = false ->
    well_formed s -> well_formed (u :: s)
| wf_pair h l s :
    is_high h = true -> is_low l = true ->
    well_formed s -> well_formed (h :: l :: s).

Definition is_scalar (c : Z) : Prop :=
  (0 <= c < 0xD800) \/ (0xE000 <= c < 0x110000).

Definition ascii (s : jsstring) : Prop := Forall (fun u => 0 <= u < 0x80) s.

End Encoding.

Import Encoding.

(** ** The decoded record shared by [decode-devtag.ts] and [decode-shadow.ts] *)

Record DecodedPayload : Type := mkDecoded {
  version : value;
  flags : value;
  routeHash : Z;
  sha : jsstring;
  viewId : jsstring;
  timestamp : Z;
  checksum : value;
  checksumValid : bool
}.

(** A decoded PNG image ([PNG.sync.read]): RGBA bytes, row by row. *)
Record PNG : Type := mkPNG {
  png_width : Z;
  png_height : Z;
  png_data : list Z
}.

(** [data[idx]] on a [Buffer] or a [Uint8ClampedArray]. *)
Definition buf_get (data : list Z) (idx : Z) : value :=
  if idx <? 0 then Undefined
  else match data !! Z.to_nat idx with
       | Some n => Num n
       | None => Undefined
       end.

(** A loop [for (...) { ... if (found) return found }] over the listed
    values of its counter: the first iteration that returns decides. *)
Fixpoint first_return {A} (body : Z -> option A) (rows : list Z) : option A :=
  match rows with
  | [] => None
  | r :: rest =>
      match body r with
      | Some p => Some p
      | None => first_return body rest
      end
  end.

(** ** [DevTagStrip.tsx]: the exact-scheme encoder *)

Module DevTagStrip.

Record DevTagPayload : Type := mkProps {
  viewId : jsstring;
  route : jsstring;
  sha : option jsstring;
  flags : option Z;
  timestamp : option Z
}.

Definition MAGIC : list Z := [0x44; 0x54; 0x41; 0x47].
Definition VERSION : Z := 1.

Definition stringToBytes (str : jsstring) : list Z := TextEncoder_encode str.

Definition simpleHash (str : jsstring) : Z :=
  let hash := fold_left (fun hash c => bor (shl hash 5 - hash + c) 0) str 0 in
  shru hash 0.

(** The four big-endian bytes pushed for a 32-bit field. *)
Definition be32 (n : Z) : list Z :=
  [band (sar n 24) 0xff; band (sar n 16) 0xff; band (sar n 8) 0xff; band n 0xff].

(** [bytes.reduce((acc, b) => acc ^ b, 0)]. *)
Definition xor_reduce (bytes : list Z) : Z := fold_left bxor bytes 0.

(** [buildPayload(props)]; [now] stands for [Math.floor(Date.now() / 1000)]. *)
Definition buildPayload (now : Z) (props : DevTagPayload) : list Z :=
  let bytes := MAGIC in
  let bytes := bytes ++ [VERSION] in
  let bytes := bytes ++ [default 0 (flags props)] in
  let routeHash := simpleHash (route props) in
  let bytes := bytes ++ be32 routeHash in
  let sha := padEnd 7 48 (str_slice0 7 (default [] (sha props))) in
  let bytes := bytes ++ stringToBytes sha in
  let viewIdBytes := stringToBytes (viewId props) in
  let bytes := bytes ++ [Z.of_nat (length viewIdBytes)] in
  let bytes := bytes ++ viewIdBytes in
  let ts := default now (timestamp props) in
  let bytes := bytes ++ be32 ts in
  let checksum := xor_reduce bytes in
  bytes ++ [checksum].

Definition STRIP_HEIGHT : Z := 4.

(** A store into a [Uint8ClampedArray] clamps the value to a byte. *)
Definition clamp8 (v : Z) : Z := Z.max 0 (Z.min 255 v).

(** [paddedPayload[i] ?? 0]. *)
Definition padded_at (padded : list Z) (i : Z) : Z :=
  if i <? 0 then 0 else default 0 (padded !! Z.to_nat i).

(** [renderToCanvas]: the image handed to [putImageData].  Every element
    of the pixel array is stored exactly once, in index order. *)
Definition renderToCanvas (payload : list Z) (width : Z) : PNG :=
  let len := Z.of_nat (length payload) in
  let pixelsNeeded := (len + 2) / 3 in
  let paddedPayload := payload ++ replicate (Z.to_nat ((3 - len mod 3) mod 3)) 0 in
  let data :=
    concat (map (fun row =>
                   concat (map (fun x =>
                                  let pixelIdx := Z.rem x pixelsNeeded in
                                  let byteOffset := pixelIdx * 3 in
                                  [clamp8 (padded_at paddedPayload byteOffset);
                                   clamp8 (padded_at paddedPayload (byteOffset + 1));
                                   clamp8 (padded_at paddedPayload (byteOffset + 2));
                                   255])
                               (seqZ 0 width)))
                (seqZ 0 STRIP_HEIGHT)) in
  mkPNG width STRIP_HEIGHT data.

End DevTagStrip.

(** ** [decode-devtag.ts]: the byte-plane decoder *)

Module Strip.

Definition MAGIC : list Z := [0x44; 0x54; 0x41; 0x47].
Definition STRIP_SEARCH_ROWS : Z := 8.

Definition extractBytesFromRow (data : list Z) (width rowIndex : Z) : list value :=
  let rowOffset := rowIndex * width * 4 in
  concat (map (fun x =>
                 let idx := rowOffset + x * 4 in
                 [buf_get data idx; buf_get data (idx + 1); buf_get data (idx + 2)])
              (seqZ 0 width)).

(** The test of [findMagic] at offset [i]. *)
Definition magic_at (bytes : list value) (i : Z) : bool :=
  value_eqb (get bytes i) (buf_get MAGIC 0) &&
  value_eqb (get bytes (i + 1)) (buf_get MAGIC 1) &&
  value_eqb (get bytes (i + 2)) (buf_get MAGIC 2) &&
  value_eqb (get bytes (i + 3)) (buf_get MAGIC 3).

(** The loop of [findMagic], started at [i]. *)
Fixpoint findMagic_loop (fuel : nat) (bytes : list value) (i : Z) : Z :=
  match fuel with
  | O => -1
  | S fuel' =>
      if i <=? Z.of_nat (length bytes) - 4 then
        if magic_at bytes i then i else findMagic_loop fuel' bytes (i + 1)
      else -1
  end.

Definition findMagic (bytes : list value) : Z :=
  findMagic_loop (length bytes) bytes 0.

Definition bytesToString (bytes : list value) : jsstring := TextDecoder_decode bytes.

(** A running index that has become [NaN] is [None]. *)
Definition idx_add (i : Z) (v : value) : option Z :=
  match v with
  | Num n => Some (i + n)
  | Undefined => None
  end.

Definition idx_plus (i : option Z) (k : Z) : option Z := (fun j => j + k) <$> i.

(** [bytes[idx]] and [bytes.slice(s, idx)] for such an index; [NaN] names
    no element, and as a slice bound it converts to 0. *)
Definition get_at (bytes : list value) (i : option Z) : value :=
  match i with
  | Some j => get bytes j
  | None => Undefined
  end.

Definition slice_to (bytes : list value) (s : Z) (e : option Z) : list value :=
  slice bytes s (default 0 e).

(** [(a << 24) | (b << 16) | (c << 8) | d] on array elements. *)
Definition be32_read (a b c d : value) : Z :=
  bor (bor (bor (shl (int32_of a) 24) (shl (int32_of b) 16)) (shl (int32_of c) 8))
      (int32_of d).

(** [payloadBytes.reduce((acc, b) => acc ^ b, 0)]. *)
Definition xor_reduce (bytes : list value) : Z :=
  fold_left (fun acc b => bxor acc (int32_of b)) bytes 0.

Definition parsePayload (bytes : list value) (startIdx : Z) : option DecodedPayload :=
  let idx := startIdx + 4 in
  let version := get bytes idx in
  let flags := get bytes (idx + 1) in
  let idx := idx + 2 in
  let routeHash :=
    be32_read (get bytes idx) (get bytes (idx + 1)) (get bytes (idx + 2))
              (get bytes (idx + 3)) in
  let idx := idx + 4 in
  let shaBytes := slice bytes idx (idx + 7) in
  let idx := idx + 7 in
  let sha := strip_trailing 48 (bytesToString shaBytes) in
  let viewIdLen := get bytes idx in
  let idx := idx + 1 in
  let viewIdBytes := slice_to bytes idx (idx_add idx viewIdLen) in
  let idx := idx_add idx viewIdLen in
  let viewId := bytesToString viewIdBytes in
  let timestamp :=
    shru (be32_read (get_at bytes idx) (get_at bytes (idx_plus idx 1))
                    (get_at bytes (idx_plus idx 2)) (get_at bytes (idx_plus idx 3))) 0 in
  let idx := idx_plus idx 4 in
  let storedChecksum := get_at bytes idx in
  let payloadBytes := slice_to bytes startIdx idx in
  let computedChecksum := xor_reduce payloadBytes in
  let checksumValid := value_eqb storedChecksum (Num computedChecksum) in
  Some (mkDecoded version flags routeHash sha viewId timestamp
                  storedChecksum checksumValid).

(** The body shared by the two row loops of [decodeFromPNG]. *)
Definition try_row (png : PNG) (row : Z) : option DecodedPayload :=
  let bytes := extractBytesFromRow (png_data png) (png_width png) row in
  let magicIdx := findMagic bytes in
  if negb (magicIdx =? -1) then
    match parsePayload bytes magicIdx with
    | Some payload => if checksumValid payload then Some payload else None
    | None => None
    end
  else None.

(** The rows visited by the two loops, and their bodies with the
    [continue] guards. *)
Definition bottom_rows (height : Z) : list Z :=
  seqZ (height - STRIP_SEARCH_ROWS) STRIP_SEARCH_ROWS.
Definition top_rows : list Z := seqZ 0 STRIP_SEARCH_ROWS.

Definition bottom_body (png : PNG) (row : Z) : option DecodedPayload :=
  if row <? 0 then None else try_row png row.
Definition top_body (png : PNG) (row : Z) : option DecodedPayload :=
  if row >=? png_height png then None else try_row png row.

Definition decodeFromPNG (png : PNG) : option DecodedPayload :=
  match first_return (bottom_body png) (bottom_rows (png_height png)) with
  | Some payload => Some payload
  | None => first_return (top_body png) top_rows
  end.

End Strip.

(** ** [decode-shadow.ts]: the alpha-LSB decoder *)

Module Shadow.

Definition MAGIC : list Z := [0x44; 0x54; 0x41; 0x47].

Definition bytesToString (bytes : list value) : jsstring := TextDecoder_decode bytes.

(** The loop of [extractBitsFromRow], started at column [x]. *)
Fixpoint extractBits_loop (fuel : nat) (data : list Z) (width row numBits x : Z)
    (bits : list Z) : list Z :=
  match fuel with
  | O => bits
  | S fuel' =>
      if (x <? width) && (Z.of_nat (length bits) <? numBits) then
        let idx := (row * width + x) * 4 + 3 in
        extractBits_loop fuel' data width row numBits (x + 1)
                         (bits ++ [band (int32_of (buf_get data idx)) 1])
      else bits
  end.

Definition extractBitsFromRow (data : list Z) (width row numBits : Z) : list Z :=
  extractBits_loop (Z.to_nat width) data width row numBits 0 [].

(** The inner loop of [bitsToBytes]: [byte = (byte << 1) | bit], eight times. *)
Definition byte_of_bits (bits : list Z) : Z :=
  fold_left (fun byte bit => bor (shl byte 1) bit) bits 0.

Fixpoint bitsToBytes (bits : list Z) : list Z :=
  match bits with
  | b0 :: b1 :: b2 :: b3 :: b4 :: b5 :: b6 :: b7 :: rest =>
      byte_of_bits [b0; b1; b2; b3; b4; b5; b6; b7] :: bitsToBytes rest
  | _ => []
  end.

Definition hasMagic (bytes : list value) : bool :=
  (Z.of_nat (length bytes) >=? 4) &&
  value_eqb (get bytes 0) (buf_get MAGIC 0) &&
  value_eqb (get bytes 1) (buf_get MAGIC 1) &&
  value_eqb (get bytes 2) (buf_get MAGIC 2) &&
  value_eqb (get bytes 3) (buf_get MAGIC 3).

Definition parsePayload (bytes : list value) : option DecodedPayload :=
  if negb (hasMagic bytes) then None
  else
    let idx := 4 in
    let version := get bytes idx in
    let flags := get bytes (idx + 1) in
    let idx := idx + 2 in
    let routeHash :=
      Strip.be32_read (get bytes idx) (get bytes (idx + 1)) (get bytes (idx + 2))
                      (get bytes (idx + 3)) in
    let idx := idx + 4 in
    let shaBytes := slice bytes idx (idx + 7) in
    let idx := idx + 7 in
    let sha := strip_trailing 48 (bytesToString shaBytes) in
    let viewIdLen := get bytes idx in
    let idx := idx + 1 in
    let viewIdBytes := Strip.slice_to bytes idx (Strip.idx_add idx viewIdLen) in
    let idx := Strip.idx_add idx viewIdLen in
    let viewId := bytesToString viewIdBytes in
    let timestamp :=
      shru (Strip.be32_read (Strip.get_at bytes idx)
                            (Strip.get_at bytes (Strip.idx_plus idx 1))
                            (Strip.get_at bytes (Strip.idx_plus idx 2))
                            (Strip.get_at bytes (Strip.idx_plus idx 3))) 0 in
    let idx := Strip.idx_plus idx 4 in
    let storedChecksum := Strip.get_at bytes idx in
    let payloadBytes := Strip.slice_to bytes 0 idx in
    let computedChecksum := Strip.xor_reduce payloadBytes in
    let checksumValid := value_eqb storedChecksum (Num computedChecksum) in
    Some (mkDecoded version flags routeHash sha viewId timestamp
                    storedChecksum checksumValid).

Definition maxPayloadBits : Z := 512.

(** The body of the row loop of [decodeFromPNG]. *)
Definition try_row (png : PNG) (row : Z) : option DecodedPayload :=
  let bits := extractBitsFromRow (png_data png) (png_width png) row maxPayloadBits in
  let bytes := map Num (bitsToBytes bits) in
  if hasMagic bytes then
    match parsePayload bytes with
    | Some payload => if checksumValid payload then Some payload else None
    | None => None
    end
  else None.

Definition decodeFromPNG (png : PNG) : option DecodedPayload :=
  first_return (try_row png) (seqZ 0 (png_height png)).

End Shadow.

(** ** [DevTagStrip.tsx], second part: the hierarchical payload and its
       LSB embedding *)

Module DevTagScope.

Record DevTagScopeData : Type := mkScope {
  id : jsstring;
  type : jsstring;
  parentId : option jsstring;
  depth : Z;
  path : list jsstring
}.

Definition MAGIC : list Z := [0x50; 0x58; 0x50; 0x56].
Definition VERSION : Z := 2.

Definition stringToBytes (str : jsstring) : list Z := TextEncoder_encode str.

(** [path.join('/')]. *)
Fixpoint join (sep : Z) (parts : list jsstring) : jsstring :=
  match parts with
  | [] => []
  | [p] => p
  | p :: rest => p ++ sep :: join sep rest
  end.

(** [scope.parentId ? stringToBytes(scope.parentId) : []]: an absent or
    empty parent id is falsy. *)
Definition parentBytes_of (parentId : option jsstring) : list Z :=
  match parentId with
  | Some (u :: s) => stringToBytes (u :: s)
  | _ => []
  end.

Definition buildHierarchicalPayload (scope : DevTagScopeData) : list Z :=
  let bytes := MAGIC in
  let bytes := bytes ++ [VERSION] in
  let bytes := bytes ++ [depth scope] in
  let typeBytes := stringToBytes (type scope) in
  let bytes := bytes ++ [Z.of_nat (length typeBytes)] in
  let bytes := bytes ++ typeBytes in
  let idBytes := stringToBytes (id scope) in
  let bytes := bytes ++ [Z.of_nat (length idBytes)] in
  let bytes := bytes ++ idBytes in
  let parentBytes := parentBytes_of (parentId scope) in
  let bytes := bytes ++ [Z.of_nat (length parentBytes)] in
  let bytes := bytes ++ parentBytes in
  let pathStr := join 47 (path scope) in
  let pathBytes := stringToBytes pathStr in
  let bytes := bytes ++ [band (sar (Z.of_nat (length pathBytes)) 8) 0xff] in
  let bytes := bytes ++ [band (Z.of_nat (length pathBytes)) 0xff] in
  let bytes := bytes ++ pathBytes in
  let checksum := DevTagStrip.xor_reduce bytes in
  bytes ++ [checksum].

(** [for (const byte of payload) for (let i = 7; i >= 0; i--)
       bits.push((byte >> i) & 1)]. *)
Definition bits_of_payload (payload : list Z) : list Z :=
  concat (map (fun byte => map (fun i => band (sar byte i) 1) [7; 6; 5; 4; 3; 2; 1; 0])
              payload).

(** A store into the canvas's [Uint8ClampedArray]: the value is clamped to
    a byte, and a store outside the array is ignored. *)
Definition clamp8 (v : Z) : Z := Z.max 0 (Z.min 255 v).

Definition px_set (pixels : list Z) (idx v : Z) : list Z :=
  if idx <? 0 then pixels else <[Z.to_nat idx := clamp8 v]> pixels.

(** The state of an embedding loop: the pixel array and [bitIndex]. *)
Definition estate : Type := list Z * Z.

(** [if (bitIndex < bits.length)
       pixels[i] = (pixels[i] & 0xFE) | bits[bitIndex++]]. *)
Definition write_lsb (bits : list Z) (st : estate) (i : Z) : estate :=
  let '(pixels, bitIndex) := st in
  if bitIndex <? Z.of_nat (length bits) then
    (px_set pixels i
            (bor (band (int32_of (buf_get pixels i)) 0xFE)
                 (int32_of (buf_get bits bitIndex))),
     bitIndex + 1)
  else st.

(** [for (let x = ...; x < width && bitIndex < bits.length; x++)], with
    [idx = (row * width + x) * 4]. *)
Fixpoint embed_loop (fuel : nat) (bits : list Z) (width row x : Z) (st : estate)
    : estate :=
  match fuel with
  | O => st
  | S fuel' =>
      if (x <? width) && (snd st <? Z.of_nat (length bits)) then
        let idx := (row * width + x) * 4 in
        let st := write_lsb bits st idx in
        let st := write_lsb bits st (idx + 1) in
        let st := write_lsb bits st (idx + 2) in
        embed_loop fuel' bits width row (x + 1) st
      else st
  end.

(** One pass over a row, with [bitIndex] reset to 0. *)
Definition embed_row (bits : list Z) (width row : Z) (pixels : list Z) : list Z :=
  fst (embed_loop (Z.to_nat width) bits width row 0 (pixels, 0)).

(** The three rows written: row 0, then [Math.floor(height / 2)] and
    [height - 1]. *)
Definition embed_rows (height : Z) : list Z := [0; height / 2; height - 1].

(** The LSB-embedding step of [renderShadowWithHierarchy], from the pixel
    array read by [getImageData] to the one handed to [putImageData]. *)
Definition embed_payload (scope : DevTagScopeData) (width height : Z)
    (pixels : list Z) : list Z :=
  let payload := buildHierarchicalPayload scope in
  let bits := bits_of_payload payload in
  fold_left (fun px row => embed_row bits width row px) (embed_rows height) pixels.

(** The scope the [DevTagScope] component builds from the scope of the
    nearest enclosing [DevTagScope] ([useContext(DevTagContext)], [null]
    at the root): [parentId: parent?.id],
    [depth: (parent?.depth ?? -1) + 1] and
    [path: [...(parent?.path ?? []), id]]. *)
Definition scope_of (parent : option DevTagScopeData) (cid ctype : jsstring)
    : DevTagScopeData :=
  mkScope cid ctype
          (match parent with Some p => Some (id p) | None => None end)
          (match parent with Some p => depth p | None => -1 end + 1)
          (match parent with Some p => path p | None => [] end ++ [cid]).


End DevTagScope.

(** ** Numbers of the perceptual scheme

    The pattern generators and the correlation matcher compute with
    non-integral numbers.  They are modelled by exact reals extended with
    [NaN]; rounding, infinities and signed zeros are left out.  The only
    division by zero that the modelled code can perform is 0/0. *)

Module Number.

Local Open Scope R_scope.

Inductive num : Type :=
| NaN
| Fin (r : R).

Definition of_Z (n : Z) : num := Fin (IZR n).

(** [ToNumber] of an array read. *)
Definition of_value (v : value) : num :=
  match v with
  | Undefined => NaN
  | Num n => of_Z n
  end.

Definition lift2 (f : R -> R -> R) (a b : num) : num :=
  match a, b with
  | Fin x, Fin y => Fin (f x y)
  | _, _ => NaN
  end.

Definition add : num -> num -> num := lift2 Rplus.
Definition sub : num -> num -> num := lift2 Rminus.
Definition mul : num -> num -> num := lift2 Rmult.

Definition div (a b : num) : num :=
  match a, b with
  | Fin x, Fin y => if Req_dec_T y 0 then NaN else Fin (x / y)
  | _, _ => NaN
  end.

Definition Math_sqrt (a : num) : num :=
  match a with
  | Fin x => if Rlt_dec x 0 then NaN else Fin (sqrt x)
  | NaN => NaN
  end.

Definition Math_sin (a : num) : num :=
  match a with
  | Fin x => Fin (sin x)
  | NaN => NaN
  end.

Definition Math_floor (a : num) : num :=
  match a with
  | Fin x => of_Z (Zfloor x)
  | NaN => NaN
  end.

Definition Math_max (a b : num) : num := lift2 Rmax a b.

(** [a > b] and [a === 0]; both are false on [NaN]. *)
Definition gtb (a b : num) : bool :=
  match a, b with
  | Fin x, Fin y => if Rlt_dec y x then true else false
  | _, _ => false
  end.

Definition is_zero (a : num) : bool :=
  match a with
  | Fin x => if Req_dec_T x 0 then true else false
  | NaN => false
  end.

(** [a <= b]; false on [NaN]. *)
Definition le (a b : num) : Prop :=
  match a, b with
  | Fin x, Fin y => x <= y
  | _, _ => False
  end.

(** The conversion of a store into a [Uint8ClampedArray]: [NaN] becomes 0,
    other numbers are clamped to [0, 255] and rounded to the nearest
    integer, ties to even. *)
Definition round_half_even (x : R) : Z :=
  let f := Zfloor x in
  let d := x - IZR f in
  if Rlt_dec d (1 / 2) then f
  else if Rlt_dec (1 / 2) d then (f + 1)%Z
  else if Z.even f then f else (f + 1)%Z.

Definition to_uint8_clamped (a : num) : Z :=
  match a with
  | NaN => 0%Z
  | Fin x =>
      if Rle_dec x 0 then 0%Z
      else if Rle_dec 255 x then 255%Z
      else round_half_even x
  end.

End Number.

Import Number.

(** ** [DevTag.tsx]: the encoder of the perceptual scheme *)

Module DevTag.

(** [hash(str)]. *)
Definition hash (str : jsstring) : Z :=
  let h := fold_left (fun h c => bor (shl h 5 - h + c) 0) str 0 in
  shru h 0.

(** [SeededRandom.next()]: the value returned and the new seed. *)
Definition next (seed : Z) : num * Z :=
  let seed' := Z.rem (seed * 9301 + 49297) 233280 in
  (div (of_Z seed') (of_Z 233280), seed').

Definition Math_PI : num := Fin PI.

(** The constants derived from the seed, in the order the code draws them. *)
Record params : Type := mkParams {
  freq1 : Z; freq2 : Z; freq3 : Z;
  phase1 : num; phase2 : num; phase3 : num;
  amp1 : num; amp2 : num; amp3 : num
}.

Definition derive (seed : Z) : params :=
  let rng := seed in
  let freq1 := 2 + Z.rem seed 5 in
  let freq2 := 6 + Z.rem (sar seed 8) 5 in
  let freq3 := 12 + Z.rem (sar seed 16) 6 in
  let '(r, rng) := next rng in
  let phase1 := mul (mul r Math_PI) (of_Z 2) in
  let '(r, rng) := next rng in
  let phase2 := mul (mul r Math_PI) (of_Z 2) in
  let '(r, rng) := next rng in
  let phase3 := mul (mul r Math_PI) (of_Z 2) in
  let '(r, rng) := next rng in
  let amp1 := add (Fin (4 / 10)) (mul r (Fin (3 / 10))) in
  let '(r, rng) := next rng in
  let amp2 := add (Fin (3 / 10)) (mul r (Fin (3 / 10))) in
  let '(r, rng) := next rng in
  let amp3 := add (Fin (3 / 10)) (mul r (Fin (2 / 10))) in
  mkParams freq1 freq2 freq3 phase1 phase2 phase3 amp1 amp2 amp3.

(** The body of the pixel loop: the value stored as [gray]. *)
Definition pixel_gray (p : params) (width height : Z) (intensity : num) (x y : Z) : num :=
  let val1 :=
    mul (Math_sin (add (mul (mul (mul (div (of_Z x) (of_Z width)) (of_Z (freq1 p)))
                                 Math_PI) (of_Z 2))
                       (phase1 p))) (amp1 p) in
  let val2 :=
    mul (Math_sin (add (mul (mul (mul (div (of_Z y) (of_Z height)) (of_Z (freq2 p)))
                                 Math_PI) (of_Z 2))
                       (phase2 p))) (amp2 p) in
  let val3 :=
    mul (Math_sin (add (mul (mul (mul (add (div (of_Z x) (of_Z width))
                                           (div (of_Z y) (of_Z height)))
                                      (of_Z (freq3 p)))
                                 Math_PI) (of_Z 2))
                       (phase3 p))) (amp3 p) in
  let combined := div (add (add val1 val2) val3) (of_Z 3) in
  let variation := Math_floor (mul (mul combined intensity) (of_Z 255)) in
  add (of_Z 245) variation.

Record ImageData : Type := mkImageData {
  img_width : Z;
  img_height : Z;
  img_data : list Z
}.

(** A store of a number into the [Uint8ClampedArray] of the image. *)
Definition px_store (pixels : list Z) (idx : Z) (v : num) : list Z :=
  if (idx <? 0)%Z then pixels else <[Z.to_nat idx := to_uint8_clamped v]> pixels.

(** The four stores of one iteration. *)
Definition put_pixel (p : params) (width height : Z) (intensity : num)
    (pixels : list Z) (y x : Z) : list Z :=
  let idx := (y * width + x) * 4 in
  let gray := pixel_gray p width height intensity x y in
  let pixels := px_store pixels idx gray in
  let pixels := px_store pixels (idx + 1) gray in
  let pixels := px_store pixels (idx + 2) gray in
  px_store pixels (idx + 3) (of_Z 15).

Definition generatePerceptualPattern (data : jsstring) (width height : Z)
    (intensity : num) : ImageData :=
  let pixels := replicate (Z.to_nat (4 * width * height)) 0 in
  let seed := hash data in
  let p := derive seed in
  let pixels :=
    fold_left (fun pixels y =>
                 fold_left (fun pixels x => put_pixel p width height intensity pixels y x)
                           (seqZ 0 width) pixels)
              (seqZ 0 height) pixels in
  mkImageData width height pixels.

(** The gray value an image holds at column [x], row [y] (its red channel). *)
Definition image_gray (img : ImageData) (x y : Z) : value :=
  buf_get (img_data img) ((y * img_width img + x) * 4).

End DevTag.

(** ** [decoder/decode.ts]: reference patterns, correlation and the scan *)

Module Decode.

Definition hash (str : jsstring) : Z :=
  let h := fold_left (fun h c => bor (shl h 5 - h + c) 0) str 0 in
  shru h 0.

Definition next (seed : Z) : num * Z :=
  let seed' := Z.rem (seed * 9301 + 49297) 233280 in
  (div (of_Z seed') (of_Z 233280), seed').

Definition Math_PI : num := Fin PI.

Record params : Type := mkParams {
  freq1 : Z; freq2 : Z; freq3 : Z;
  phase1 : num; phase2 : num; phase3 : num;
  amp1 : num; amp2 : num; amp3 : num
}.

Definition derive (seed : Z) : params :=
  let rng := seed in
  let freq1 := 2 + Z.rem seed 5 in
  let freq2 := 6 + Z.rem (sar seed 8) 5 in
  let freq3 := 12 + Z.rem (sar seed 16) 6 in
  let '(r, rng) := next rng in
  let phase1 := mul (mul r Math_PI) (of_Z 2) in
  let '(r, rng) := next rng in
  let phase2 := mul (mul r Math_PI) (of_Z 2) in
  let '(r, rng) := next rng in
  let phase3 := mul (mul r Math_PI) (of_Z 2) in
  let '(r, rng) := next rng in
  let amp1 := add (Fin (4 / 10)) (mul r (Fin (3 / 10))) in
  let '(r, rng) := next rng in
  let amp2 := add (Fin (3 / 10)) (mul r (Fin (3 / 10))) in
  let '(r, rng) := next rng in
  let amp3 := add (Fin (3 / 10)) (mul r (Fin (2 / 10))) in
  mkParams freq1 freq2 freq3 phase1 phase2 phase3 amp1 amp2 amp3.

(** The body of the inner loop of [generatePattern]: the value pushed. *)
Definition pattern_gray (p : params) (tileSize : Z) (intensity : num) (x y : Z) : num :=
  let val1 :=
    mul (Math_sin (add (mul (mul (mul (div (of_Z x) (of_Z tileSize)) (of_Z (freq1 p)))
                                 Math_PI) (of_Z 2))
                       (phase1 p))) (amp1 p) in
  let val2 :=
    mul (Math_sin (add (mul (mul (mul (div (of_Z y) (of_Z tileSize)) (of_Z (freq2 p)))
                                 Math_PI) (of_Z 2))
                       (phase2 p))) (amp2 p) in
  let val3 :=
    mul (Math_sin (add (mul (mul (mul (add (div (of_Z x) (of_Z tileSize))
                                           (div (of_Z y) (of_Z tileSize)))
                                      (of_Z (freq3 p)))
                                 Math_PI) (of_Z 2))
                       (phase3 p))) (amp3 p) in
  let combined := div (add (add val1 val2) val3) (of_Z 3) in
  let variation := mul (mul combined intensity) (of_Z 255) in
  add (of_Z 245) variation.

Definition generatePattern (data : jsstring) (tileSize : Z) (intensity : num)
    : list (list num) :=
  let seed := hash data in
  let p := derive seed in
  map (fun y => map (fun x => pattern_gray p tileSize intensity x y) (seqZ 0 tileSize))
      (seqZ 0 tileSize).

(** [pattern[y]?.[x]]: [None] stands for [undefined]. *)
Definition at2 (pattern : list (list num)) (x y : Z) : option num :=
  if (x <? 0)%Z || (y <? 0)%Z then None
  else match pattern !! Z.to_nat y with
       | Some row => row !! Z.to_nat x
       | None => None
       end.

(** The gray value computed by [extractTile] for the pixel at [idx]. *)
Definition gray_at (data : list Z) (idx : Z) : num :=
  div (add (add (of_value (buf_get data idx)) (of_value (buf_get data (idx + 1))))
           (of_value (buf_get data (idx + 2))))
      (of_Z 3).

Definition extractTile (data : list Z) (width startX startY tileSize : Z)
    : list (list num) :=
  map (fun y =>
         map (fun x =>
                let px := (startX + x)%Z in
                let py := (startY + y)%Z in
                if (px <? width)%Z && (py <? width)%Z then
                  let idx := ((py * width + px) * 4)%Z in
                  gray_at data idx
                else of_Z 0)
             (seqZ 0 tileSize))
      (seqZ 0 tileSize).

(** The running sums of [compare]. *)
Record sums : Type := mkSums {
  sum1 : num; sum2 : num; sumSq1 : num; sumSq2 : num; sumProd : num; count : Z
}.

Definition compare_step (pattern1 pattern2 : list (list num)) (y : Z) (s : sums) (x : Z)
    : sums :=
  let v1 := default (of_Z 0) (at2 pattern1 x y) in
  let v2 := default (of_Z 0) (at2 pattern2 x y) in
  mkSums (add (sum1 s) v1) (add (sum2 s) v2)
         (add (sumSq1 s) (mul v1 v1)) (add (sumSq2 s) (mul v2 v2))
         (add (sumProd s) (mul v1 v2)) (count s + 1).

Definition compare (pattern1 pattern2 : list (list num)) : num :=
  let size := Z.min (Z.of_nat (length pattern1)) (Z.of_nat (length pattern2)) in
  let s :=
    fold_left (fun s y => fold_left (compare_step pattern1 pattern2 y) (seqZ 0 size) s)
              (seqZ 0 size)
              (mkSums (of_Z 0) (of_Z 0) (of_Z 0) (of_Z 0) (of_Z 0) 0) in
  let mean1 := div (sum1 s) (of_Z (count s)) in
  let mean2 := div (sum2 s) (of_Z (count s)) in
  let numerator := sub (sumProd s) (mul (mul (of_Z (count s)) mean1) mean2) in
  let denom1 := Math_sqrt (sub (sumSq1 s) (mul (mul (of_Z (count s)) mean1) mean1)) in
  let denom2 := Math_sqrt (sub (sumSq2 s) (mul (mul (of_Z (count s)) mean2) mean2)) in
  if is_zero denom1 || is_zero denom2 then of_Z 0
  else div numerator (mul denom1 denom2).

Record RegistryEntry : Type := mkEntry {
  path : jsstring;
  type : jsstring;
  depth : Z;
  pattern : list (list num)
}.

(** A value of the [matches] map. *)
Record Match : Type := mkMatch {
  m_path : jsstring;
  m_type : jsstring;
  m_score : num;
  m_count : Z
}.

(** The [Map] of matches, as the list of its entries in insertion order. *)
Definition match_map : Type := list (jsstring * Match).

Fixpoint map_has (key : jsstring) (m : match_map) : bool :=
  match m with
  | [] => false
  | (k, _) :: rest => if decide (k = key) then true else map_has key rest
  end.

(** [existing.count++; existing.score = Math.max(existing.score, score)]. *)
Fixpoint map_bump (key : jsstring) (score : num) (m : match_map) : match_map :=
  match m with
  | [] => []
  | (k, v) :: rest =>
      if decide (k = key)
      then (k, mkMatch (m_path v) (m_type v) (Math_max (m_score v) score)
                       (m_count v + 1)) :: rest
      else (k, v) :: map_bump key score rest
  end.

(** The body of [for (const entry of registry)]. *)
Definition score_entry (tile : list (list num)) (threshold : num)
    (matches : match_map) (entry : RegistryEntry) : match_map :=
  let score := compare tile (pattern entry) in
  if gtb score threshold then
    let key := path entry in
    if map_has key matches then map_bump key score matches
    else matches ++ [(key, mkMatch (path entry) (type entry) score 1)]
  else matches.

(** The values taken by the counter of
    [for (let i = 0; i < stop; i += step)], for a positive [step]. *)
Fixpoint stride_loop (fuel : nat) (i stop step : Z) : list Z :=
  match fuel with
  | O => []
  | S fuel' => if (i <? stop)%Z then i :: stride_loop fuel' (i + step) stop step else []
  end.

Definition stride (stop step : Z) : list Z := stride_loop (Z.to_nat stop) 0 stop step.

Definition step : Z := 32.

(** The columns and rows at which [scan] samples a tile. *)
Definition grid_xs (png : PNG) (tileSize : Z) : list Z :=
  stride (png_width png - tileSize) step.
Definition grid_ys (png : PNG) (tileSize : Z) : list Z :=
  stride (png_height png - tileSize) step.

(** The comparator of the final sort is positive: [b] goes before [a]. *)
Definition sort_after (a b : Match) : bool :=
  if negb (m_count b =? m_count a)%Z then (m_count b - m_count a >? 0)%Z
  else gtb (sub (m_score b) (m_score a)) (of_Z 0).

(** [Array.prototype.sort] is stable; it is modelled by insertion. *)
Fixpoint sort_insert (a : Match) (sorted : list Match) : list Match :=
  match sorted with
  | [] => [a]
  | b :: rest => if sort_after a b then b :: sort_insert a rest else a :: sorted
  end.

Definition sort_matches (l : list Match) : list Match := foldr sort_insert [] l.

(** The grid sweep of [scan], up to the [matches] map. *)
Definition scan_matches (png : PNG) (registry : list RegistryEntry) (tileSize : Z)
    (threshold : num) : match_map :=
  let width := png_width png in
  let data := png_data png in
  fold_left (fun matches y =>
               fold_left (fun matches x =>
                            let tile := extractTile data width x y tileSize in
                            fold_left (score_entry tile threshold) registry matches)
                         (grid_xs png tileSize) matches)
            (grid_ys png tileSize) [].

Definition scan (png : PNG) (registry : list RegistryEntry) (tileSize : Z)
    (threshold : num) : list Match :=
  sort_matches (map snd (scan_matches png registry tileSize threshold)).

End Decode.

(** ** [decoder/decode-noise.ts]: tile hashes and their scan *)

Module DecodeNoise.

Definition hash (str : jsstring) : Z :=
  let h := fold_left (fun h c => bor (shl h 5 - h + c) 0) str 0 in
  shru h 0.

(** The digits of a non-negative integer in [base], most significant
    first, as character codes ('0'-'9', 'a'-'z'). *)
Definition digit_char (d : Z) : Z := if d <? 10 then 48 + d else 87 + d.

Fixpoint digits_loop (fuel : nat) (base n : Z) (acc : jsstring) : jsstring :=
  match fuel with
  | O => digit_char (n mod base) :: acc
  | S fuel' =>
      if n <? base then digit_char n :: acc
      else digits_loop fuel' base (n / base) (digit_char (n mod base) :: acc)
  end.

(** [n.toString(base)] for an integer [n]. *)
Definition int_to_string (base n : Z) : jsstring :=
  if n <? 0 then 45 :: digits_loop (Z.to_nat (Z.log2 (- n))) base (- n) []
  else digits_loop (Z.to_nat (Z.log2 n)) base n [].

(** A rounded gray value: an integer, or [NaN] when a channel was read
    outside the buffer. *)
Definition rounded : Type := option Z.

(** [Math.round((a + b + c) / 3)] on three array reads. *)
Definition round_gray (a b c : value) : rounded :=
  match a, b, c with
  | Num x, Num y, Num z => Some ((2 * (x + y + z) + 3) / 6)
  | _, _, _ => None
  end.

Definition NaN_string : jsstring := [78; 97; 78].

Definition rounded_to_string (v : rounded) : jsstring :=
  match v with
  | Some n => int_to_string 10 n
  | None => NaN_string
  end.

(** [values.join(',')]. *)
Fixpoint join_values (values : list rounded) : jsstring :=
  match values with
  | [] => []
  | [v] => rounded_to_string v
  | v :: rest => rounded_to_string v ++ 44 :: join_values rest
  end.

Definition extractTileHash (data : list Z) (width startX startY tileSize : Z)
    : jsstring :=
  let values :=
    concat (map (fun y =>
                   concat (map (fun x =>
                                  let px := startX + x in
                                  let py := startY + y in
                                  if px <? width then
                                    let idx := (py * width + px) * 4 in
                                    [round_gray (buf_get data idx) (buf_get data (idx + 1))
                                                (buf_get data (idx + 2))]
                                  else [])
                               (seqZ 0 tileSize)))
                (seqZ 0 tileSize)) in
  int_to_string 16 (hash (join_values values)).

Record RegistryEntry : Type := mkEntry {
  path : jsstring;
  type : jsstring;
  depth : Z;
  entry_hash : jsstring
}.

Record Found : Type := mkFound {
  f_path : jsstring;
  f_type : jsstring;
  f_count : Z
}.

(** [registry.find(r => r.hash === tileHash)]. *)
Definition find_hash (registry : list RegistryEntry) (tileHash : jsstring)
    : option RegistryEntry :=
  List.find (fun r => bool_decide (entry_hash r = tileHash)) registry.

Fixpoint found_has (key : jsstring) (m : list (jsstring * Found)) : bool :=
  match m with
  | [] => false
  | (k, _) :: rest => if decide (k = key) then true else found_has key rest
  end.

Fixpoint found_bump (key : jsstring) (m : list (jsstring * Found))
    : list (jsstring * Found) :=
  match m with
  | [] => []
  | (k, v) :: rest =>
      if decide (k = key)
      then (k, mkFound (f_path v) (f_type v) (f_count v + 1)) :: rest
      else (k, v) :: found_bump key rest
  end.

(** The body of the inner loop of [scanImage]. *)
Definition scan_tile (data : list Z) (width : Z) (registry : list RegistryEntry)
    (tileSize y : Z) (found : list (jsstring * Found)) (x : Z)
    : list (jsstring * Found) :=
  let tileHash := extractTileHash data width x y tileSize in
  match find_hash registry tileHash with
  | Some m =>
      let key := path m in
      if found_has key found then found_bump key found
      else found ++ [(key, mkFound (path m) (type m) 1)]
  | None => found
  end.

(** The comparator [b.count - a.count] is positive. *)
Definition sort_after (a b : Found) : bool := f_count b - f_count a >? 0.

Fixpoint sort_insert (a : Found) (sorted : list Found) : list Found :=
  match sorted with
  | [] => [a]
  | b :: rest => if sort_after a b then b :: sort_insert a rest else a :: sorted
  end.

(** The step of the sampling grid and the columns and rows it visits.
    The tile size is taken positive: with a step of 0 the loops of the
    source do not terminate. *)
Definition step (tileSize : Z) : Z := tileSize * 2.
Definition grid_xs (png : PNG) (tileSize : Z) : list Z :=
  Decode.stride (png_width png - tileSize) (step tileSize).
Definition grid_ys (png : PNG) (tileSize : Z) : list Z :=
  Decode.stride (png_height png - tileSize) (step tileSize).

Definition scanImage (png : PNG) (registry : list RegistryEntry) (tileSize : Z)
    : list Found :=
  let width := png_width png in
  let data := png_data png in
  let found :=
    fold_left (fun found y =>
                 fold_left (scan_tile data width registry tileSize y)
                           (grid_xs png tileSize) found)
              (grid_ys png tileSize) [] in
  foldr sort_insert [] (map snd found).

End DecodeNoise.

(** ** Vocabulary of the statements *)

Local Open Scope string_scope.

(** A string literal as a JavaScript string (ASCII only). *)
Definition str (s : String.string) : jsstring :=
  map (fun a => Z.of_N (Ascii.N_of_ascii a)) (String.list_ascii_of_string s).

Definition is_byte (b : Z) : Prop := 0 <= b < 256.

(** The unsigned value of four big-endian bytes. *)
Definition be_value (b0 b1 b2 b3 : Z) : Z := b0 * 2 ^ 24 + b1 * 2 ^ 16 + b2 * 2 ^ 8 + b3.

(** The string does not begin with a byte order mark. *)
Definition no_bom (s : jsstring) : Prop :=
  match s with
  | u :: _ => u <> 0xFEFF
  | [] => True
  end.

(** The running index of [parsePayload] after the view id: [NaN] when the
    length prefix is missing. *)
Definition after_viewId (bytes : list value) (startIdx : Z) : option Z :=
  Strip.idx_add (startIdx + 18) (get bytes (startIdx + 17)).

(** The fields an encoder call passes, with the defaults of [buildPayload]
    applied. *)
Definition flags_of (props : DevTagStrip.DevTagPayload) : Z :=
  default 0 (DevTagStrip.flags props).
Definition sha_of (props : DevTagStrip.DevTagPayload) : jsstring :=
  default [] (DevTagStrip.sha props).
Definition timestamp_of (now : Z) (props : DevTagStrip.DevTagPayload) : Z :=
  default now (DevTagStrip.timestamp props).

(** A valid field combination: a view id of at most 255 UTF-8 bytes, a sha
    of at most 7 ASCII characters, flags that fit one byte and an unsigned
    32-bit timestamp. *)
Record valid_fields (now : Z) (props : DevTagStrip.DevTagPayload) : Prop := {
  valid_viewId : well_formed (DevTagStrip.viewId props);
  valid_viewId_len :
    (length (DevTagStrip.stringToBytes (DevTagStrip.viewId props)) <= 255)%nat;
  valid_sha : ascii (sha_of props);
  valid_sha_len : (length (sha_of props) <= 7)%nat;
  valid_flags : is_byte (flags_of props);
  valid_timestamp : 0 <= timestamp_of now props < 2 ^ 32
}.

(** Decoding the payload of [props] at its magic offset gives the fields
    back, with [the_sha] as the decoded sha. *)
Definition decodes_to (now : Z) (props : DevTagStrip.DevTagPayload)
    (the_sha : jsstring) (bytes : list value) (startIdx : Z) : Prop :=
  exists p,
    Strip.parsePayload bytes startIdx = Some p /\
    version p = Num DevTagStrip.VERSION /\
    flags p = Num (flags_of props) /\
    sha p = the_sha /\
    viewId p = DevTagStrip.viewId props /\
    timestamp p = timestamp_of now props /\
    checksumValid p = true.

(** Sample encoder inputs. *)
Definition billing_props (sha : String.string) (route : String.string)
    : DevTagStrip.DevTagPayload :=
  DevTagStrip.mkProps (str "BILLING_02") (str route) (Some (str sha)) (Some 0)
                      (Some 1700000000).

(** A 24-byte payload rendered into an 8 by 4 strip, the strip with one
    view-id byte of row 0 overwritten, and the strip with the length
    prefix of row 0 overwritten by 200. *)
Definition sample_payload : list Z :=
  DevTagStrip.buildPayload 0 (DevTagStrip.mkProps (str "A") (str "/") None None (Some 0)).
Definition sample_png : PNG := DevTagStrip.renderToCanvas sample_payload 8.
Definition corrupted_png : PNG :=
  mkPNG 8 4 (<[24%nat := 66]> (png_data sample_png)).
Definition truncated_png : PNG :=
  mkPNG 8 4 (<[22%nat := 200]> (png_data sample_png)).

(** The candidate payload of a row fails its checksum. *)
Definition strip_candidate_fails (png : PNG) (row : Z) : Prop :=
  let bytes := Strip.extractBytesFromRow (png_data png) (png_width png) row in
  exists p, Strip.parsePayload bytes (Strip.findMagic bytes) = Some p /\
            checksumValid p = false.

Definition shadow_candidate_fails (png : PNG) (row : Z) : Prop :=
  let bits := Shadow.extractBitsFromRow (png_data png) (png_width png) row
                                        Shadow.maxPayloadBits in
  exists p, Shadow.parsePayload (map Num (Shadow.bitsToBytes bits)) = Some p /\
            checksumValid p = false.

(** What one embedding pass may do to a pixel array: the length and the
    upper seven bits of every element stay, and an element changes only at
    an index that satisfies [touch]. *)
Definition lsb_frame (touch : Z -> Prop) (old new : list Z) : Prop :=
  length new = length old /\
  Forall is_byte new /\
  forall (i : nat) (v : Z),
    old !! i = Some v ->
    exists v', new !! i = Some v' /\ Z.shiftr v' 1 = Z.shiftr v 1 /\
               (v' <> v -> touch (Z.of_nat i)).

Definition is_bit (b : Z) : Prop := b = 0 \/ b = 1.

(** The indices of the red, green and blue channels of the pixels of [row]. *)
Definition rgb_of_row (width row i : Z) : Prop :=
  i mod 4 <> 3 /\ 0 < width /\ (i / 4) / width = row.

(** A shadow scope and a 4 by 2 canvas for it. *)
Definition sample_scope : DevTagScope.DevTagScopeData :=
  DevTagScope.mkScope (str "save-btn") (str "button") (Some (str "panel")) 2
                      [str "PAGE"; str "panel"; str "save-btn"].
Definition sample_canvas : list Z :=
  [30; 30; 30; 31;  29; 29; 29; 30;  28; 28; 28; 29;  27; 27; 27; 28;
   15; 15; 15; 16;  14; 14; 14; 15;  13; 13; 13; 14;  12; 12; 12; 13].


(** The keys of the [matches] map. *)
Definition keys (m : Decode.match_map) : list jsstring := map fst m.

(** The maps built under a lower and a higher threshold, side by side:
    no key is repeated, and every key of the second is a key of the first. *)
Definition covers (m1 m2 : Decode.match_map) : Prop :=
  NoDup (keys m1) /\ NoDup (keys m2) /\ forall k, k ∈ keys m2 -> k ∈ keys m1.



(** A flat gray 2 by 2 image and a registry of one single-sample pattern. *)
Definition tiny_image : PNG := mkPNG 2 2 (replicate 16 128).
Definition tiny_registry : list Decode.RegistryEntry :=
  [Decode.mkEntry (str "PAGE/panel") (str "panel") 2 [[Fin 5]]].

(** The encoder's image and the decoder's reference pattern hold the same
    gray value at every coordinate of the tile. *)
Definition grids_agree (data : jsstring) (tileSize : Z) (intensity : num) : Prop :=
  forall x y, 0 <= x < tileSize -> 0 <= y < tileSize ->
    exists g,
      Decode.at2 (Decode.generatePattern data tileSize intensity) x y = Some g /\
      of_value (DevTag.image_gray
                  (DevTag.generatePerceptualPattern data tileSize tileSize intensity) x y)
      = g.

(** The pixel array has the size of the image. *)
Definition sized (width height : Z) (px : list Z) : Prop :=
  Z.of_nat (length px) = 4 * width * height.

(** ** Vocabulary of the further properties *)

(** The polynomial that the string hashes evaluate modulo 2^32. *)
Definition horner (s : jsstring) : Z := fold_left (fun h c => 31 * h + c) s 0.

(** An element read from a buffer of bytes: [undefined] or a byte. *)
Definition byte_or_undefined (v : value) : Prop :=
  match v with
  | Undefined => True
  | Num b => is_byte b
  end.

(** The rows [decodeFromPNG] of [decode-devtag.ts] looks at: the first
    eight and the last eight rows of the image. *)
Definition edge_row (height row : Z) : Prop :=
  0 <= row < height /\ (row < 8 \/ height - 8 <= row).

(** Two images of the same size whose colour channels agree on those rows. *)
Definition same_strip_rows (png1 png2 : PNG) : Prop :=
  png_width png1 = png_width png2 /\
  png_height png1 = png_height png2 /\
  forall row x c,
    edge_row (png_height png1) row -> 0 <= x < png_width png1 -> 0 <= c < 3 ->
    buf_get (png_data png1) (row * png_width png1 * 4 + x * 4 + c)
    = buf_get (png_data png2) (row * png_width png1 * 4 + x * 4 + c).

(** [pixelsNeeded] and [paddedPayload] of [renderToCanvas], and the four
    channels it stores for column [x]. *)
Definition pixels_needed (payload : list Z) : Z := (Z.of_nat (length payload) + 2) / 3.

Definition padded_payload (payload : list Z) : list Z :=
  payload ++ replicate (Z.to_nat ((3 - Z.of_nat (length payload) mod 3) mod 3)) 0.

Definition strip_pixel (payload : list Z) (x : Z) : list Z :=
  [DevTagStrip.clamp8
     (DevTagStrip.padded_at (padded_payload payload) (Z.rem x (pixels_needed payload) * 3));
   DevTagStrip.clamp8
     (DevTagStrip.padded_at (padded_payload payload)
                            (Z.rem x (pixels_needed payload) * 3 + 1));
   DevTagStrip.clamp8
     (DevTagStrip.padded_at (padded_payload payload)
                            (Z.rem x (pixels_needed payload) * 3 + 2));
   255].

(** The bit [extractBitsFromRow] reads at column [x] of [row]: the lowest
    bit of the alpha channel. *)
Definition alpha_bit (data : list Z) (width row x : Z) : Z :=
  band (int32_of (buf_get data ((row * width + x) * 4 + 3))) 1.

(** The alpha channels of [row] spell [bits], one bit for each pixel from
    the left, and the bits fit the row and the decoder's window. *)
Definition alpha_lsb_carries (png : PNG) (row : Z) (bits : list Z) : Prop :=
  Z.of_nat (length bits) <= Z.min (png_width png) Shadow.maxPayloadBits /\
  forall (k : nat) (b : Z),
    bits !! k = Some b ->
    exists a,
      buf_get (png_data png) ((row * png_width png + Z.of_nat k) * 4 + 3) = Num a /\
      a mod 2 = b.

(** A one-row image whose alpha channels spell [bits]. *)
Definition alpha_carrier (bits : list Z) : PNG :=
  mkPNG (Z.of_nat (length bits)) 1 (concat (map (fun b => [0; 0; 0; 254 + b]) bits)).

(** Bit [j] of a row is held by the colour channel [j mod 3] of column
    [j / 3]: the lowest bit of that element of the pixel array is the
    [j]-th bit. *)
Definition holds_bit (bits : list Z) (width row : Z) (px : list Z) (j : Z) : Prop :=
  exists v b,
    px !! Z.to_nat ((row * width + j / 3) * 4 + j mod 3) = Some v /\
    bits !! Z.to_nat j = Some b /\
    v mod 2 = b.

(** The scope of the innermost of a chain of nested [DevTagScope]
    components, given by their ids and types from the outermost inwards,
    in development mode, where every component provides its scope to its
    children through [DevTagContext.Provider]; [None] stands for the
    context's default [null]. *)
Definition nested_scope (chain : list (jsstring * jsstring))
    : option DevTagScope.DevTagScopeData :=
  fold_left (fun parent c => Some (DevTagScope.scope_of parent (fst c) (snd c)))
            chain None.

(** A scope whose strings are well formed and whose one-byte fields fit. *)
Record valid_scope (scope : DevTagScope.DevTagScopeData) : Prop := {
  valid_depth : is_byte (DevTagScope.depth scope);
  valid_type : well_formed (DevTagScope.type scope);
  valid_type_len :
    (length (DevTagScope.stringToBytes (DevTagScope.type scope)) <= 255)%nat;
  valid_id : well_formed (DevTagScope.id scope);
  valid_id_len :
    (length (DevTagScope.stringToBytes (DevTagScope.id scope)) <= 255)%nat;
  valid_parent :
    match DevTagScope.parentId scope with
    | Some s => well_formed s
    | None => True
    end;
  valid_parent_len :
    (length (DevTagScope.parentBytes_of (DevTagScope.parentId scope)) <= 255)%nat;
  valid_path : well_formed (DevTagScope.join 47 (DevTagScope.path scope))
}.

(** The tile [scan] samples at a grid position. *)
Definition tile_at (png : PNG) (tileSize x y : Z) : list (list num) :=
  Decode.extractTile (png_data png) (png_width png) x y tileSize.

(** What stands behind a reported match: it was counted at least once, its
    score passes the threshold and is the score of a sampled tile against a
    registry entry of that path, and its type is that of a registry entry
    of that path. *)
Definition justified (png : PNG) (registry : list Decode.RegistryEntry)
    (tileSize : Z) (threshold : num) (m : Decode.Match) : Prop :=
  1 <= Decode.m_count m /\
  gtb (Decode.m_score m) threshold = true /\
  (exists x y e,
      x ∈ Decode.grid_xs png tileSize /\ y ∈ Decode.grid_ys png tileSize /\
      e ∈ registry /\ Decode.path e = Decode.m_path m /\
      Decode.m_score m = Decode.compare (tile_at png tileSize x y) (Decode.pattern e)) /\
  (exists e, e ∈ registry /\ Decode.path e = Decode.m_path m /\
             Decode.type e = Decode.m_type m).

(** An entry of the [matches] map that carries its key and is justified. *)
Definition match_sound (png : PNG) (registry : list Decode.RegistryEntry)
    (tileSize : Z) (threshold : num) (kv : jsstring * Decode.Match) : Prop :=
  Decode.m_path (snd kv) = fst kv /\ justified png registry tileSize threshold (snd kv).

Definition sumZ {X} (f : X -> Z) (l : list X) : Z :=
  fold_right (fun x acc => f x + acc) 0 l.

(** The sum of the counts held by the [matches] map. *)
Definition map_total (m : Decode.match_map) : Z :=
  sumZ (fun kv => Decode.m_count (snd kv)) m.

(** The number of (tile, entry) pairs of the sweep whose score passes. *)
Definition passing_pairs (png : PNG) (registry : list Decode.RegistryEntry)
    (tileSize : Z) (threshold : num) : Z :=
  sumZ (fun y =>
          sumZ (fun x =>
                  sumZ (fun e =>
                          if gtb (Decode.compare (tile_at png tileSize x y)
                                                 (Decode.pattern e)) threshold
                          then 1 else 0)
                       registry)
               (Decode.grid_xs png tileSize))
       (Decode.grid_ys png tileSize).

(** [a] is ranked no lower than [b]: a higher count, or the same count and
    a score that is not lower. *)
Definition ranks_before (a b : Decode.Match) : Prop :=
  Decode.m_count b < Decode.m_count a \/
  (Decode.m_count b = Decode.m_count a /\
   Number.le (Decode.m_score b) (Decode.m_score a)).

(** A list in which every element is ranked no lower than those after it. *)
Inductive ranked : list Decode.Match -> Prop :=
| ranked_nil : ranked []
| ranked_cons a l : Forall (ranks_before a) l -> ranked l -> ranked (a :: l).

Definition finite_score (m : Decode.Match) : Prop := exists s, Decode.m_score m = Fin s.

(** The running sums of [compare] over cells of the first pattern that all
    hold [c]. *)
Definition flat_sums (c : R) (s : Decode.sums) : Prop :=
  0 <= Decode.count s /\
  Decode.sum1 s = Fin (IZR (Decode.count s) * c) /\
  Decode.sumSq1 s = Fin (IZR (Decode.count s) * c * c).

(** What stands behind a component reported by [scanImage]: it was counted
    at least once, and its path and type are those of the first registry
    entry whose hash is the hash of a sampled tile. *)
Definition found_justified (png : PNG) (registry : list DecodeNoise.RegistryEntry)
    (tileSize : Z) (f : DecodeNoise.Found) : Prop :=
  1 <= DecodeNoise.f_count f /\
  exists x y e,
    x ∈ DecodeNoise.grid_xs png tileSize /\ y ∈ DecodeNoise.grid_ys png tileSize /\
    DecodeNoise.find_hash registry
      (DecodeNoise.extractTileHash (png_data png) (png_width png) x y tileSize) = Some e /\
    DecodeNoise.path e = DecodeNoise.f_path f /\
    DecodeNoise.type e = DecodeNoise.f_type f.

Definition found_sound (png : PNG) (registry : list DecodeNoise.RegistryEntry)
    (tileSize : Z) (kv : jsstring * DecodeNoise.Found) : Prop :=
  DecodeNoise.f_path (snd kv) = fst kv /\ found_justified png registry tileSize (snd kv).

Definition found_keys (m : list (jsstring * DecodeNoise.Found)) : list jsstring :=
  map fst m.

Definition found_total (m : list (jsstring * DecodeNoise.Found)) : Z :=
  sumZ (fun kv => DecodeNoise.f_count (snd kv)) m.

(** The [found] map of [scanImage] before the final sort. *)
Definition found_sweep (png : PNG) (registry : list DecodeNoise.RegistryEntry)
    (tileSize : Z) : list (jsstring * DecodeNoise.Found) :=
  fold_left (fun found y =>
               fold_left (DecodeNoise.scan_tile (png_data png) (png_width png)
                                                registry tileSize y)
                         (DecodeNoise.grid_xs png tileSize) found)
            (DecodeNoise.grid_ys png tileSize) [].

(** The number of sampled tiles whose hash is in the registry. *)
Definition recognised_tiles (png : PNG) (registry : list DecodeNoise.RegistryEntry)
    (tileSize : Z) : Z :=
  sumZ (fun y =>
          sumZ (fun x =>
                  match DecodeNoise.find_hash registry
                          (DecodeNoise.extractTileHash (png_data png) (png_width png)
                                                       x y tileSize) with
                  | Some _ => 1
                  | None => 0
                  end)
               (DecodeNoise.grid_xs png tileSize))
       (DecodeNoise.grid_ys png tileSize).

(** Further sample inputs: the fields of [sample_payload], a 1 by 17
    image that is black but for the red channel of its middle row, and a
    hash registry that holds the top-left pixel of [tiny_image]. *)
Definition sample_props : DevTagStrip.DevTagPayload :=
  DevTagStrip.mkProps (str "A") (str "/") None None (Some 0).

Definition middle_row_image (red : Z) : PNG :=
  mkPNG 1 17 (<[32%nat := red]> (replicate 68 0)).

Definition tiny_hashes : list DecodeNoise.RegistryEntry :=
  [DecodeNoise.mkEntry (str "PAGE/panel") (str "panel") 2
     (DecodeNoise.extractTileHash (png_data tiny_image) (png_width tiny_image) 0 0 1)].

(** * Properties *)

(** ** 32-bit arithmetic *)

Section Int32.

Lemma to_int32_range x : - 2 ^ 31 <= to_int32 x < 2 ^ 31.
Proof. unfold to_int32. pose proof (Z.mod_pos_bound (x + 2 ^ 31) (2 ^ 32)). lia. Qed.

Lemma to_int32_small x : - 2 ^ 31 <= x < 2 ^ 31 -> to_int32 x = x.
Proof. intros H. unfold to_int32. rewrite Z.mod_small; lia. Qed.

Lemma to_int32_idem x : to_int32 (to_int32 x) = to_int32 x.
Proof. apply to_int32_small, to_int32_range. Qed.

Lemma to_uint32_range x : 0 <= to_uint32 x < 2 ^ 32.
Proof. unfold to_uint32. apply Z.mod_pos_bound. lia. Qed.

Lemma to_uint32_small x : 0 <= x < 2 ^ 32 -> to_uint32 x = x.
Proof. intros H. unfold to_uint32. apply Z.mod_small. lia. Qed.

Lemma to_uint32_of_int32 x : to_uint32 (to_int32 x) = to_uint32 x.
Proof.
  unfold to_uint32, to_int32.
  rewrite Zminus_mod, Zmod_mod.
  rewrite <- Zminus_mod.
  replace (x + 2 ^ 31 - 2 ^ 31) with x by lia. reflexivity.
Qed.

Lemma to_int32_of_uint32 x : to_int32 (to_uint32 x) = to_int32 x.
Proof.
  unfold to_uint32, to_int32.
  rewrite Zplus_mod, Zmod_mod, <- Zplus_mod. reflexivity.
Qed.

(** An unsigned 32-bit number read back as signed loses 2^32 exactly when
    its top bit is set. *)
Lemma to_int32_unsigned x :
  0 <= x < 2 ^ 32 -> to_int32 x = if x <? 2 ^ 31 then x else x - 2 ^ 32.
Proof.
  intros H. unfold to_int32. destruct (Z.ltb_spec x (2 ^ 31)).
  - rewrite Z.mod_small; lia.
  - replace (x + 2 ^ 31) with (x - 2 ^ 31 + 1 * 2 ^ 32) by lia.
    rewrite Z_mod_plus_full, Z.mod_small; lia.
Qed.

(** Bits below [2^n] and a multiple of [2^n] do not overlap. *)
Lemma land_mul_pow2_low k r n : 0 <= n -> 0 <= r < 2 ^ n -> Z.land (k * 2 ^ n) r = 0.
Proof.
  intros Hn Hr. apply Z.bits_inj'. intros i Hi.
  rewrite Z.land_spec, Z.bits_0.
  destruct (Z.ltb_spec i n).
  - rewrite Z.mul_pow2_bits_low by lia. reflexivity.
  - rewrite <- (Z.mod_small r (2 ^ n)) by lia.
    rewrite Z.mod_pow2_bits_high by lia. apply andb_false_r.
Qed.

Lemma lor_mul_pow2_low k r n : 0 <= n -> 0 <= r < 2 ^ n -> Z.lor (k * 2 ^ n) r = k * 2 ^ n + r.
Proof.
  intros Hn Hr. pose proof (Z.add_lor_land (k * 2 ^ n) r) as H.
  rewrite land_mul_pow2_low in H by assumption. lia.
Qed.

Lemma shru_0 x : shru x 0 = to_uint32 x.
Proof. unfold shru. reflexivity. Qed.

Lemma bor_0_r x : bor x 0 = to_int32 x.
Proof. unfold bor. rewrite (to_int32_small 0) by lia. apply Z.lor_0_r. Qed.

(** The byte [(n >> s) & 0xff] pushed by the encoders. *)
Lemma band_sar_byte n s :
  0 <= s <= 24 -> band (sar n s) 0xff = (to_uint32 n / 2 ^ s) mod 256.
Proof.
  intros Hs. unfold band, sar.
  rewrite (Z.mod_small s 32) by lia.
  rewrite (to_int32_small 255) by lia.
  pose proof (to_int32_range n) as Hr.
  rewrite Z.shiftr_div_pow2 by lia.
  assert (Hq : - 2 ^ 31 <= to_int32 n / 2 ^ s < 2 ^ 31).
  { split.
    - apply Z.div_le_lower_bound; [lia|]. 
      assert (2 ^ s * - 2 ^ 31 <= 1 * - 2 ^ 31); [|lia].
      apply Z.mul_le_mono_nonpos_r; lia.
    - apply Z.div_lt_upper_bound; [lia|].
      assert (1 * 2 ^ 31 <= 2 ^ s * 2 ^ 31); [|lia].
      apply Z.mul_le_mono_nonneg_r; lia. }
  rewrite (to_int32_small _ Hq).
  change 255 with (Z.ones 8). rewrite Z.land_ones by lia.
  change (2 ^ 8) with 256.
  (* the signed and the unsigned reading differ by a multiple of 2^32 *)
  assert (Hk : exists k, to_int32 n = to_uint32 n + k * 2 ^ 32).
  { rewrite <- (to_int32_of_uint32 n).
    rewrite (to_int32_unsigned _ (to_uint32_range n)).
    destruct (to_uint32 n <? 2 ^ 31); [exists 0 | exists (-1)]; lia. }
  destruct Hk as [k Hk]. rewrite Hk.
  replace (k * 2 ^ 32) with (k * 2 ^ (32 - s) * 2 ^ s).
  2:{ rewrite <- Z.mul_assoc, <- Z.pow_add_r by lia. do 2 f_equal. lia. }
  rewrite Z.div_add by lia.
  replace (2 ^ (32 - s)) with (2 ^ (24 - s) * 256).
  2:{ change 256 with (2 ^ 8). rewrite <- Z.pow_add_r by lia. f_equal. lia. }
  rewrite Z.mul_assoc, Z_mod_plus_full. reflexivity.
Qed.

End Int32.

(** ** Reading a big-endian 32-bit field *)

Section BigEndian.

Lemma be_value_range b0 b1 b2 b3 :
  is_byte b0 -> is_byte b1 -> is_byte b2 -> is_byte b3 ->
  0 <= be_value b0 b1 b2 b3 < 2 ^ 32.
Proof. unfold is_byte, be_value. lia. Qed.

Lemma shl_byte b s : is_byte b -> 0 <= s <= 16 -> shl b s = b * 2 ^ s.
Proof.
  intros Hb Hs. unfold shl, is_byte in *.
  rewrite (Z.mod_small s 32) by lia.
  rewrite (to_int32_small b) by lia.
  rewrite Z.shiftl_mul_pow2 by lia.
  apply to_int32_small.
  assert (2 ^ s <= 2 ^ 16) by (apply Z.pow_le_mono_r; lia).
  assert (0 < 2 ^ s) by (apply Z.pow_pos_nonneg; lia).
  nia.
Qed.

Lemma shl_byte_24 b :
  is_byte b -> shl b 24 = (if b <? 128 then b else b - 256) * 2 ^ 24.
Proof.
  intros Hb. unfold shl, is_byte in *.
  change (24 mod 32) with 24.
  rewrite (to_int32_small b) by lia.
  rewrite Z.shiftl_mul_pow2 by lia.
  rewrite to_int32_unsigned by lia.
  destruct (Z.ltb_spec b 128), (Z.ltb_spec (b * 2 ^ 24) (2 ^ 31)); lia.
Qed.

(** The signed 32-bit value assembled by [(a << 24) | (b << 16) | (c << 8) | d]. *)
Lemma be32_read_bytes b0 b1 b2 b3 :
  is_byte b0 -> is_byte b1 -> is_byte b2 -> is_byte b3 ->
  Strip.be32_read (Num b0) (Num b1) (Num b2) (Num b3)
  = to_int32 (be_value b0 b1 b2 b3).
Proof.
  intros H0 H1 H2 H3. unfold Strip.be32_read, int32_of.
  assert (Hs : forall b, is_byte b -> to_int32 b = b).
  { intros b Hb. apply to_int32_small. unfold is_byte in Hb. lia. }
  rewrite !Hs by assumption.
  rewrite shl_byte_24, (shl_byte b1 16), (shl_byte b2 8) by (assumption || lia).
  set (k := if b0 <? 128 then b0 else b0 - 256).
  assert (Hk : -128 <= k < 128 /\ (k = b0 \/ k = b0 - 256)).
  { unfold k, is_byte in *. destruct (Z.ltb_spec b0 128); lia. }
  unfold is_byte in *.
  unfold bor at 3.
  rewrite (to_int32_small (k * 2 ^ 24)), (to_int32_small (b1 * 2 ^ 16)) by lia.
  rewrite lor_mul_pow2_low by lia.
  unfold bor at 2.
  rewrite (to_int32_small (k * 2 ^ 24 + b1 * 2 ^ 16)), (to_int32_small (b2 * 2 ^ 8)) by lia.
  replace (k * 2 ^ 24 + b1 * 2 ^ 16) with ((k * 2 ^ 8 + b1) * 2 ^ 16) by lia.
  rewrite lor_mul_pow2_low by lia.
  unfold bor.
  rewrite (to_int32_small ((k * 2 ^ 8 + b1) * 2 ^ 16 + b2 * 2 ^ 8)), (to_int32_small b3) by lia.
  replace ((k * 2 ^ 8 + b1) * 2 ^ 16 + b2 * 2 ^ 8)
    with ((k * 2 ^ 16 + b1 * 2 ^ 8 + b2) * 2 ^ 8) by lia.
  rewrite lor_mul_pow2_low by lia.
  unfold be_value.
  destruct Hk as [Hk [-> | ->]].
  - rewrite to_int32_small by lia. lia.
  - rewrite to_int32_unsigned by lia.
    destruct (Z.ltb_spec (b0 * 2 ^ 24 + b1 * 2 ^ 16 + b2 * 2 ^ 8 + b3) (2 ^ 31)); lia.
Qed.

Lemma be32_read_unsigned b0 b1 b2 b3 :
  is_byte b0 -> is_byte b1 -> is_byte b2 -> is_byte b3 ->
  shru (Strip.be32_read (Num b0) (Num b1) (Num b2) (Num b3)) 0 = be_value b0 b1 b2 b3.
Proof.
  intros H0 H1 H2 H3.
  rewrite shru_0, be32_read_bytes, to_uint32_of_int32 by assumption.
  apply to_uint32_small, be_value_range; assumption.
Qed.

End BigEndian.

(** ** The fields read by [parsePayload] *)

Section ParseFields.

Variable bytes : list value.
Variable startIdx : Z.

Lemma parsePayload_total :
  exists p, Strip.parsePayload bytes startIdx = Some p.
Proof. unfold Strip.parsePayload. eexists. reflexivity. Qed.

Lemma parsePayload_fields p :
  Strip.parsePayload bytes startIdx = Some p ->
  version p = get bytes (startIdx + 4) /\
  flags p = get bytes (startIdx + 5) /\
  routeHash p =
    Strip.be32_read (get bytes (startIdx + 6)) (get bytes (startIdx + 7))
                    (get bytes (startIdx + 8)) (get bytes (startIdx + 9)) /\
  sha p = strip_trailing 48
            (Strip.bytesToString (slice bytes (startIdx + 10) (startIdx + 17))) /\
  viewId p = Strip.bytesToString (Strip.slice_to bytes (startIdx + 18) (after_viewId bytes startIdx)) /\
  timestamp p =
    shru (Strip.be32_read (Strip.get_at bytes (after_viewId bytes startIdx))
                          (Strip.get_at bytes (Strip.idx_plus (after_viewId bytes startIdx) 1))
                          (Strip.get_at bytes (Strip.idx_plus (after_viewId bytes startIdx) 2))
                          (Strip.get_at bytes (Strip.idx_plus (after_viewId bytes startIdx) 3))) 0 /\
  checksum p = Strip.get_at bytes (Strip.idx_plus (after_viewId bytes startIdx) 4) /\
  checksumValid p =
    value_eqb (Strip.get_at bytes (Strip.idx_plus (after_viewId bytes startIdx) 4))
              (Num (Strip.xor_reduce
                      (Strip.slice_to bytes startIdx (Strip.idx_plus (after_viewId bytes startIdx) 4)))).
Proof.
  unfold Strip.parsePayload, after_viewId. intros [= <-]. cbn [version flags routeHash sha viewId timestamp checksum checksumValid].
  replace (startIdx + 4 + 1) with (startIdx + 5) by lia.
  replace (startIdx + 4 + 2) with (startIdx + 6) by lia.
  replace (startIdx + 6 + 1) with (startIdx + 7) by lia.
  replace (startIdx + 6 + 2) with (startIdx + 8) by lia.
  replace (startIdx + 6 + 3) with (startIdx + 9) by lia.
  replace (startIdx + 6 + 4) with (startIdx + 10) by lia.
  replace (startIdx + 10 + 7) with (startIdx + 17) by lia.
  replace (startIdx + 17 + 1) with (startIdx + 18) by lia.
  repeat split; reflexivity.
Qed.

End ParseFields.

(** C5: the timestamp is the unsigned big-endian value of its four bytes. *)
Theorem parsePayload_timestamp_unsigned
    (bytes : list value) (startIdx len b0 b1 b2 b3 : Z) :
  get bytes (startIdx + 17) = Num len ->
  get bytes (startIdx + 18 + len) = Num b0 ->
  get bytes (startIdx + 18 + len + 1) = Num b1 ->
  get bytes (startIdx + 18 + len + 2) = Num b2 ->
  get bytes (startIdx + 18 + len + 3) = Num b3 ->
  is_byte b0 -> is_byte b1 -> is_byte b2 -> is_byte b3 ->
  exists p,
    Strip.parsePayload bytes startIdx = Some p /\
    timestamp p = b0 * 2 ^ 24 + b1 * 2 ^ 16 + b2 * 2 ^ 8 + b3 /\
    0 <= timestamp p < 2 ^ 32.
Proof.
  intros Hlen G0 G1 G2 G3 H0 H1 H2 H3.
  destruct (parsePayload_total bytes startIdx) as [p Hp].
  exists p. split; [exact Hp|].
  destruct (parsePayload_fields _ _ _ Hp) as (_ & _ & _ & _ & _ & Ht & _).
  unfold after_viewId in Ht. rewrite Hlen in Ht. cbn in Ht.
  rewrite G0, G1, G2, G3 in Ht.
  rewrite be32_read_unsigned in Ht by assumption.
  rewrite Ht. split; [reflexivity|].
  apply be_value_range; assumption.
Qed.

Lemma parsePayload_timestamp_unsigned_witness :
  let bytes := map Num [0x44; 0x54; 0x41; 0x47; 1; 0; 0; 0; 0; 0;
                        48; 48; 48; 48; 48; 48; 48; 1; 65; 0xFF; 0xFF; 0xFF; 0xFE; 0] in
  exists p,
    Strip.parsePayload bytes 0 = Some p /\
    timestamp p = 0xFF * 2 ^ 24 + 0xFF * 2 ^ 16 + 0xFF * 2 ^ 8 + 0xFE /\
    0 <= timestamp p < 2 ^ 32.
Proof.
  apply (parsePayload_timestamp_unsigned _ 0 1 0xFF 0xFF 0xFF 0xFE);
    try reflexivity; unfold is_byte; lia.
Defined.

(** ** Array reads and slices inside a concatenation *)

Section Layout.

Context {A : Type}.

Lemma slice_split (P a m b : list A) (s e : Z) :
  P = a ++ m ++ b -> s = Z.of_nat (length a) -> e = s + Z.of_nat (length m) ->
  slice P s e = m.
Proof.
  intros -> -> ->. unfold slice, clamp_index.
  rewrite !length_app.
  destruct (Z.ltb_spec (Z.of_nat (length a)) 0); [lia|].
  destruct (Z.ltb_spec (Z.of_nat (length a) + Z.of_nat (length m)) 0); [lia|].
  rewrite !Z.min_l by lia.
  replace (Z.to_nat (Z.of_nat (length a))) with (length a) by lia.
  rewrite drop_app_length.
  replace (Z.to_nat (_ + _ - _)) with (length m) by lia.
  apply take_app_length.
Qed.

End Layout.

Lemma get_split (P a b : list value) (x : value) (i : Z) :
  P = a ++ x :: b -> i = Z.of_nat (length a) -> get P i = x.
Proof.
  intros -> ->. unfold get.
  destruct (Z.ltb_spec (Z.of_nat (length a)) 0); [lia|].
  rewrite Nat2Z.id, list_lookup_middle; reflexivity.
Qed.

Lemma get_beyond (P : list value) (i : Z) : Z.of_nat (length P) <= i -> get P i = Undefined.
Proof.
  intros H. unfold get. destruct (i <? 0); [reflexivity|].
  rewrite lookup_ge_None_2; [reflexivity | lia].
Qed.

(** [parsePayload] on a byte array that holds the fields in wire order. *)
Lemma parsePayload_layout
    (pre suf shaV vbV : list value) (v f h0 h1 h2 h3 t0 t1 t2 t3 ck : value) :
  length shaV = 7%nat ->
  let body :=
    [Num 0x44; Num 0x54; Num 0x41; Num 0x47; v; f; h0; h1; h2; h3] ++ shaV
      ++ [Num (Z.of_nat (length vbV))] ++ vbV ++ [t0; t1; t2; t3] in
  Strip.parsePayload (pre ++ body ++ ck :: suf) (Z.of_nat (length pre))
  = Some (mkDecoded v f (Strip.be32_read h0 h1 h2 h3)
                    (strip_trailing 48 (Strip.bytesToString shaV))
                    (Strip.bytesToString vbV)
                    (shru (Strip.be32_read t0 t1 t2 t3) 0)
                    ck
                    (value_eqb ck (Num (Strip.xor_reduce body)))).
Proof.
  intros Hsha body.
  destruct (parsePayload_total (pre ++ body ++ ck :: suf) (Z.of_nat (length pre))) as [p Hp].
  rewrite Hp. f_equal.
  destruct (parsePayload_fields _ _ _ Hp) as (Hv & Hf & Hh & Hs & Hi & Ht & Hc & Hk).
  set (P := pre ++ body ++ ck :: suf) in *.
  set (s := Z.of_nat (length pre)) in *.
  assert (Hlen : get P (s + 17) = Num (Z.of_nat (length vbV))).
  { apply (get_split P (pre ++ [Num 0x44; Num 0x54; Num 0x41; Num 0x47; v; f; h0; h1; h2; h3] ++ shaV)
                     (vbV ++ [t0; t1; t2; t3] ++ ck :: suf)).
    - unfold P, body. rewrite <- !app_assoc. reflexivity.
    - rewrite !length_app, Hsha. cbn [length]. lia. }
  unfold after_viewId in *. fold P s in Hi, Ht, Hc, Hk. rewrite Hlen in *.
  cbn [Strip.idx_add Strip.idx_plus Strip.get_at fmap option_fmap option_map] in *.
  unfold Strip.slice_to, default in *. cbn [from_option] in *. unfold Datatypes.id in *.
  assert (Hget : forall (a b : list value) (x : value) (i : Z),
             P = a ++ x :: b -> i = Z.of_nat (length a) -> get P i = x)
    by (intros; eapply get_split; eassumption).
  rewrite (Hget (pre ++ [Num 0x44; Num 0x54; Num 0x41; Num 0x47]) 
                ([f; h0; h1; h2; h3] ++ shaV ++ [Num (Z.of_nat (length vbV))] ++ vbV
                   ++ [t0; t1; t2; t3] ++ ck :: suf) v) in Hv.
  2:{ unfold P, body. rewrite <- !app_assoc. reflexivity. }
  2:{ rewrite !length_app. cbn [length]. lia. }
  rewrite (Hget (pre ++ [Num 0x44; Num 0x54; Num 0x41; Num 0x47; v]) 
                ([h0; h1; h2; h3] ++ shaV ++ [Num (Z.of_nat (length vbV))] ++ vbV
                   ++ [t0; t1; t2; t3] ++ ck :: suf) f) in Hf.
  2:{ unfold P, body. rewrite <- !app_assoc. reflexivity. }
  2:{ rewrite !length_app. cbn [length]. lia. }
  rewrite (Hget (pre ++ [Num 0x44; Num 0x54; Num 0x41; Num 0x47; v; f]) 
                ([h1; h2; h3] ++ shaV ++ [Num (Z.of_nat (length vbV))] ++ vbV
                   ++ [t0; t1; t2; t3] ++ ck :: suf) h0) in Hh.
  2:{ unfold P, body. rewrite <- !app_assoc. reflexivity. }
  2:{ rewrite !length_app. cbn [length]. lia. }
  rewrite (Hget (pre ++ [Num 0x44; Num 0x54; Num 0x41; Num 0x47; v; f; h0]) 
                ([h2; h3] ++ shaV ++ [Num (Z.of_nat (length vbV))] ++ vbV
                   ++ [t0; t1; t2; t3] ++ ck :: suf) h1) in Hh.
  2:{ unfold P, body. rewrite <- !app_assoc. reflexivity. }
  2:{ rewrite !length_app. cbn [length]. lia. }
  rewrite (Hget (pre ++ [Num 0x44; Num 0x54; Num 0x41; Num 0x47; v; f; h0; h1]) 
                ([h3] ++ shaV ++ [Num (Z.of_nat (length vbV))] ++ vbV
                   ++ [t0; t1; t2; t3] ++ ck :: suf) h2) in Hh.
  2:{ unfold P, body. rewrite <- !app_assoc. reflexivity. }
  2:{ rewrite !length_app. cbn [length]. lia. }
  rewrite (Hget (pre ++ [Num 0x44; Num 0x54; Num 0x41; Num 0x47; v; f; h0; h1; h2]) 
                (shaV ++ [Num (Z.of_nat (length vbV))] ++ vbV
                   ++ [t0; t1; t2; t3] ++ ck :: suf) h3) in Hh.
  2:{ unfold P, body. rewrite <- !app_assoc. reflexivity. }
  2:{ rewrite !length_app. cbn [length]. lia. }
  rewrite (slice_split P (pre ++ [Num 0x44; Num 0x54; Num 0x41; Num 0x47; v; f; h0; h1; h2; h3])
                       shaV
                       ([Num (Z.of_nat (length vbV))] ++ vbV ++ [t0; t1; t2; t3] ++ ck :: suf)) in Hs.
  2:{ unfold P, body. rewrite <- !app_assoc. reflexivity. }
  2:{ rewrite !length_app. cbn [length]. lia. }
  2:{ rewrite Hsha. lia. }
  set (first18 := [Num 0x44; Num 0x54; Num 0x41; Num 0x47; v; f; h0; h1; h2; h3] ++ shaV
                    ++ [Num (Z.of_nat (length vbV))]).
  assert (Hl18 : length first18 = 18%nat).
  { unfold first18. rewrite !length_app, Hsha. reflexivity. }
  rewrite (slice_split P (pre ++ first18) vbV ([t0; t1; t2; t3] ++ ck :: suf)) in Hi.
  2:{ unfold P, body, first18. rewrite <- !app_assoc. reflexivity. }
  2:{ rewrite !length_app, Hl18. lia. }
  2:{ lia. }
  rewrite (Hget (pre ++ first18 ++ vbV) ([t1; t2; t3] ++ ck :: suf) t0) in Ht.
  2:{ unfold P, body, first18. rewrite <- !app_assoc. reflexivity. }
  2:{ rewrite !length_app, Hl18. lia. }
  rewrite (Hget (pre ++ first18 ++ vbV ++ [t0]) ([t2; t3] ++ ck :: suf) t1) in Ht.
  2:{ unfold P, body, first18. rewrite <- !app_assoc. reflexivity. }
  2:{ rewrite !length_app, Hl18. cbn [length]. lia. }
  rewrite (Hget (pre ++ first18 ++ vbV ++ [t0; t1]) ([t3] ++ ck :: suf) t2) in Ht.
  2:{ unfold P, body, first18. rewrite <- !app_assoc. reflexivity. }
  2:{ rewrite !length_app, Hl18. cbn [length]. lia. }
  rewrite (Hget (pre ++ first18 ++ vbV ++ [t0; t1; t2]) (ck :: suf) t3) in Ht.
  2:{ unfold P, body, first18. rewrite <- !app_assoc. reflexivity. }
  2:{ rewrite !length_app, Hl18. cbn [length]. lia. }
  assert (Hlb : length body = (22 + length vbV)%nat).
  { unfold body. rewrite !length_app, Hsha. cbn [length]. lia. }
  rewrite (Hget (pre ++ body) suf ck) in Hc, Hk.
  2,4:unfold P; rewrite <- !app_assoc; reflexivity.
  2,3:rewrite !length_app, Hlb; lia.
  rewrite (slice_split P pre body (ck :: suf)) in Hk.
  2:{ reflexivity. }
  2:{ reflexivity. }
  2:{ rewrite Hlb; lia. }
  destruct p as [pv pf ph ps pi pt pc pk].
  cbn [version flags routeHash sha viewId timestamp checksum checksumValid] in *.
  rewrite Hv, Hf, Hh, Hs, Hi, Ht, Hc, Hk. reflexivity.
Qed.

(** ** The UTF-8 codec round trip *)

Section Utf8.

Local Ltac decide_tests :=
  repeat match goal with
    | |- context [?a <=? ?b] => destruct (Z.leb_spec a b); try lia
    | |- context [?a <? ?b] => destruct (Z.ltb_spec a b); try lia
    | |- context [?a =? ?b] => destruct (Z.eqb_spec a b); try lia
    end.

Lemma utf8_encode_scalar_bytes c :
  is_scalar c -> Forall is_byte (utf8_encode_scalar c).
Proof.
  unfold is_scalar, utf8_encode_scalar, is_byte. intros Hc.
  decide_tests; repeat constructor; Z.div_mod_to_equations; lia.
Qed.

Lemma decode_encode_scalar c rest :
  is_scalar c ->
  utf8_decode_from d_init (utf8_encode_scalar c ++ rest)
  = c :: utf8_decode_from d_init rest.
Proof.
  unfold is_scalar, utf8_encode_scalar. intros Hc.
  destruct (Z.ltb_spec c 0x80); [|destruct (Z.ltb_spec c 0x800);
                                   [|destruct (Z.ltb_spec c 0x10000)]];
    cbn [app utf8_decode_from]; unfold dstep, dstep_start;
    cbn [d_needed d_init d_lower d_upper d_seen d_cp];
    Z.div_mod_to_equations;
    repeat (decide_tests;
            cbn [negb andb app fst snd d_needed d_init d_lower d_upper d_seen d_cp]);
    try (f_equal; lia).
Qed.

Lemma utf8_decode_encode cs :
  Forall is_scalar cs -> utf8_decode (utf8_encode cs) = cs.
Proof.
  unfold utf8_decode, utf8_encode.
  induction 1 as [|c cs Hc _ IH]; [reflexivity|].
  cbn [map concat]. rewrite decode_encode_scalar by assumption. f_equal. exact IH.
Qed.

Lemma utf8_encode_bytes cs :
  Forall is_scalar cs -> Forall is_byte (utf8_encode cs).
Proof.
  unfold utf8_encode. induction 1 as [|c cs Hc _ IH]; [constructor|].
  cbn [map concat]. apply Forall_app. split; [apply utf8_encode_scalar_bytes|]; assumption.
Qed.

Lemma is_high_spec u : is_high u = true <-> 0xD800 <= u <= 0xDBFF.
Proof. unfold is_high. rewrite andb_true_iff, !Z.leb_le. reflexivity. Qed.

Lemma is_low_spec u : is_low u = true <-> 0xDC00 <= u <= 0xDFFF.
Proof. unfold is_low. rewrite andb_true_iff, !Z.leb_le. reflexivity. Qed.

Lemma is_high_false u : is_high u = false <-> ~ (0xD800 <= u <= 0xDBFF).
Proof. rewrite <- is_high_spec. destruct (is_high u); split; congruence. Qed.

Lemma is_low_false u : is_low u = false <-> ~ (0xDC00 <= u <= 0xDFFF).
Proof. rewrite <- is_low_spec. destruct (is_low u); split; congruence. Qed.

Lemma to_scalars_well_formed s :
  well_formed s -> Forall is_scalar (to_scalars s) /\ of_scalars (to_scalars s) = s.
Proof.
  induction 1 as [|u s Hu Hh Hl _ [IH1 IH2]|h l s Hh Hl _ [IH1 IH2]].
  - split; [constructor | reflexivity].
  - cbn [to_scalars]. rewrite Hh, Hl.
    apply is_high_false in Hh. apply is_low_false in Hl.
    split.
    + constructor; [unfold is_scalar; lia | exact IH1].
    + unfold of_scalars in *. cbn [map concat]. rewrite IH2.
      unfold units_of_scalar. destruct (Z.ltb_spec u 0x10000); [reflexivity | lia].
  - cbn [to_scalars]. rewrite Hh, Hl.
    apply is_high_spec in Hh. apply is_low_spec in Hl.
    split.
    + constructor; [unfold is_scalar; lia | exact IH1].
    + unfold of_scalars in *. cbn [map concat]. rewrite IH2.
      unfold units_of_scalar.
      destruct (Z.ltb_spec (0x10000 + (h - 0xD800) * 0x400 + (l - 0xDC00)) 0x10000); [lia|].
      cbn [app]. f_equal; [|f_equal]; Z.div_mod_to_equations; lia.
Qed.

Lemma strip_bom_to_scalars s :
  well_formed s -> no_bom s -> strip_bom (to_scalars s) = to_scalars s.
Proof.
  intros Hwf Hb. destruct Hwf as [|u s Hu Hh Hl _|h l s Hh Hl _].
  - reflexivity.
  - cbn [to_scalars]. rewrite Hh, Hl. cbn in Hb. unfold strip_bom.
    destruct (Z.eqb_spec u 0xFEFF); [contradiction | reflexivity].
  - cbn [to_scalars]. rewrite Hh, Hl. unfold strip_bom.
    apply is_high_spec in Hh. apply is_low_spec in Hl.
    destruct (Z.eqb_spec (0x10000 + (h - 0xD800) * 0x400 + (l - 0xDC00)) 0xFEFF);
      [lia | reflexivity].
Qed.

Lemma to_uint8_bytes bs : Forall is_byte bs -> map to_uint8 (map Num bs) = bs.
Proof.
  induction 1 as [|b bs Hb _ IH]; [reflexivity|].
  cbn [map to_uint8]. rewrite IH. f_equal. apply Z.mod_small. exact Hb.
Qed.

Lemma TextEncoder_bytes s : well_formed s -> Forall is_byte (TextEncoder_encode s).
Proof. intros H. apply utf8_encode_bytes, to_scalars_well_formed, H. Qed.

(** Decoding what the encoder produced gives the string back. *)
Lemma TextDecoder_TextEncoder s :
  well_formed s -> no_bom s ->
  TextDecoder_decode (map Num (TextEncoder_encode s)) = s.
Proof.
  intros Hwf Hb. unfold TextDecoder_decode.
  rewrite to_uint8_bytes by (apply TextEncoder_bytes; assumption).
  unfold TextEncoder_encode.
  destruct (to_scalars_well_formed s Hwf) as [Hsc Hof].
  rewrite utf8_decode_encode by assumption.
  rewrite strip_bom_to_scalars by assumption. exact Hof.
Qed.

Lemma ascii_well_formed s : ascii s -> well_formed s.
Proof.
  induction 1 as [|u s Hu _ IH]; [constructor|].
  apply wf_unit; [lia | apply is_high_false; lia | apply is_low_false; lia | exact IH].
Qed.

Lemma ascii_no_bom s : ascii s -> no_bom s.
Proof. destruct 1 as [|u s Hu _]; cbn; [trivial | lia]. Qed.

Lemma TextEncoder_ascii s : ascii s -> TextEncoder_encode s = s.
Proof.
  unfold TextEncoder_encode, utf8_encode.
  induction 1 as [|u s Hu _ IH]; [reflexivity|].
  cbn [to_scalars].
  replace (is_high u) with false by (symmetry; apply is_high_false; lia).
  replace (is_low u) with false by (symmetry; apply is_low_false; lia).
  cbn [map concat]. rewrite IH. unfold utf8_encode_scalar.
  destruct (Z.ltb_spec u 0x80); [reflexivity | lia].
Qed.

Lemma ascii_check s :
  forallb (fun u => (0 <=? u) && (u <? 0x80)) s = true -> ascii s.
Proof.
  intros H. apply Forall_forall. intros u Hu.
  rewrite forallb_forall in H. apply list_elem_of_In in Hu. specialize (H u Hu).
  apply andb_true_iff in H. destruct H as [H1 H2].
  apply Z.leb_le in H1. apply Z.ltb_lt in H2. lia.
Qed.

Lemma TextDecoder_TextEncoder_ascii s :
  ascii s -> TextDecoder_decode (map Num s) = s.
Proof.
  intros H. rewrite <- (TextEncoder_ascii s H) at 1.
  apply TextDecoder_TextEncoder; [apply ascii_well_formed | apply ascii_no_bom]; exact H.
Qed.

End Utf8.

(** ** Encoding and decoding the fixed-width fields *)

Section Fields.

Lemma band_byte n : band n 0xff = to_uint32 n mod 256.
Proof.
  pose proof (band_sar_byte n 0 ltac:(lia)) as H.
  unfold band, sar in *. change (0 mod 32) with 0 in H.
  rewrite Z.shiftr_0_r, to_int32_idem in H. rewrite H.
  change (2 ^ 0) with 1. rewrite Z.div_1_r. reflexivity.
Qed.

(** The four bytes pushed for a 32-bit field are bytes, and they spell its
    unsigned value. *)
Lemma be32_spec n :
  exists b0 b1 b2 b3,
    DevTagStrip.be32 n = [b0; b1; b2; b3] /\
    is_byte b0 /\ is_byte b1 /\ is_byte b2 /\ is_byte b3 /\
    be_value b0 b1 b2 b3 = to_uint32 n.
Proof.
  unfold DevTagStrip.be32.
  rewrite !band_sar_byte by lia. rewrite band_byte.
  pose proof (to_uint32_range n) as Hr. set (u := to_uint32 n) in *.
  do 4 eexists. split; [reflexivity|].
  unfold is_byte, be_value.
  repeat split; try (apply Z.mod_pos_bound; lia).
  Z.div_mod_to_equations. lia.
Qed.

Lemma xor_reduce_Num l : Strip.xor_reduce (map Num l) = DevTagStrip.xor_reduce l.
Proof.
  unfold Strip.xor_reduce, DevTagStrip.xor_reduce.
  generalize 0. induction l as [|b l IH]; intros acc; [reflexivity|].
  cbn [map fold_left]. rewrite IH. f_equal.
  unfold bxor, int32_of. rewrite to_int32_idem. reflexivity.
Qed.

Lemma drop_leading_replicate c k t :
  drop_leading c (replicate k c ++ t) = drop_leading c t.
Proof.
  induction k as [|k IH]; [reflexivity|].
  cbn [replicate app drop_leading]. rewrite Z.eqb_refl. exact IH.
Qed.

Lemma strip_trailing_padding c s k :
  strip_trailing c (s ++ replicate k c) = strip_trailing c s.
Proof.
  unfold strip_trailing. rewrite rev_app_distr.
  replace (rev (replicate k c)) with (replicate k c).
  - rewrite drop_leading_replicate. reflexivity.
  - induction k as [|k IH]; [reflexivity|].
    cbn [replicate rev]. rewrite <- IH.
    clear IH. induction k as [|k IH]; [reflexivity|].
    cbn [replicate app]. rewrite <- IH. reflexivity.
Qed.

Lemma padded_sha s :
  ascii s ->
  let padded := padEnd 7 48 (str_slice0 7 s) in
  length padded = 7%nat /\ ascii padded /\
  strip_trailing 48 padded = strip_trailing 48 (take 7 s).
Proof.
  intros Hs. unfold padEnd, str_slice0. repeat split.
  - rewrite length_app, length_replicate, length_take. lia.
  - apply Forall_app. split.
    + apply Forall_take. exact Hs.
    + apply Forall_replicate. lia.
  - apply strip_trailing_padding.
Qed.

End Fields.

(** ** The exact-scheme round trip *)

Section RoundTrip.

Variable now : Z.
Variable props : DevTagStrip.DevTagPayload.
Variables pre suf : list value.

Hypothesis Hvalid : valid_fields now props.

(** The record [parsePayload] returns on an encoded payload. *)
Lemma parsePayload_buildPayload :
  Strip.parsePayload (pre ++ map Num (DevTagStrip.buildPayload now props) ++ suf)
                     (Z.of_nat (length pre))
  = Some (mkDecoded
            (Num DevTagStrip.VERSION)
            (Num (flags_of props))
            (to_int32 (DevTagStrip.simpleHash (DevTagStrip.route props)))
            (strip_trailing 48 (sha_of props))
            (TextDecoder_decode
               (map Num (TextEncoder_encode (DevTagStrip.viewId props))))
            (timestamp_of now props)
            (Num (DevTagStrip.xor_reduce
                    (removelast (DevTagStrip.buildPayload now props))))
            true).
Proof.
  destruct Hvalid as [Hwf Hlen Hsha Hshalen Hflags Hts].
  unfold DevTagStrip.buildPayload.
  fold (flags_of props) (sha_of props) (timestamp_of now props).
  destruct (padded_sha (sha_of props) Hsha) as (Hpl & Hpa & Hps).
  set (padded := padEnd 7 48 (str_slice0 7 (sha_of props))) in *.
  unfold DevTagStrip.stringToBytes. rewrite (TextEncoder_ascii padded Hpa).
  set (vb := TextEncoder_encode (DevTagStrip.viewId props)).
  destruct (be32_spec (DevTagStrip.simpleHash (DevTagStrip.route props)))
    as (h0 & h1 & h2 & h3 & Hh & Hh0 & Hh1 & Hh2 & Hh3 & Hhv).
  destruct (be32_spec (timestamp_of now props))
    as (t0 & t1 & t2 & t3 & Ht & Ht0 & Ht1 & Ht2 & Ht3 & Htv).
  rewrite Hh, Ht.
  set (body := ((((((DevTagStrip.MAGIC ++ [DevTagStrip.VERSION]) ++ [flags_of props])
                     ++ [h0; h1; h2; h3]) ++ padded) ++ [Z.of_nat (length vb)]) ++ vb)
                 ++ [t0; t1; t2; t3]).
  rewrite removelast_last.
  assert (Hbody : map Num body =
            [Num 0x44; Num 0x54; Num 0x41; Num 0x47; Num DevTagStrip.VERSION;
             Num (flags_of props); Num h0; Num h1; Num h2; Num h3] ++ map Num padded
              ++ [Num (Z.of_nat (length (map Num vb)))] ++ map Num vb
              ++ [Num t0; Num t1; Num t2; Num t3]).
  { unfold body, DevTagStrip.MAGIC. rewrite !map_app, length_map, <- !app_assoc. reflexivity. }
  rewrite map_app, <- app_assoc, Hbody. cbn [map app].
  pose proof (parsePayload_layout pre suf (map Num padded) (map Num vb)
                (Num DevTagStrip.VERSION) (Num (flags_of props))
                (Num h0) (Num h1) (Num h2) (Num h3) (Num t0) (Num t1) (Num t2) (Num t3)
                (Num (DevTagStrip.xor_reduce body))) as HL.
  cbv zeta in HL. repeat first [rewrite <- app_assoc in HL | progress cbn [app] in HL].
  repeat first [rewrite <- app_assoc | progress cbn [app]].
  rewrite HL by (rewrite length_map; exact Hpl). clear HL.
  f_equal. f_equal.
  - rewrite be32_read_bytes by assumption. rewrite Hhv.
    apply to_int32_of_uint32.
  - unfold Strip.bytesToString.
    rewrite (TextDecoder_TextEncoder_ascii padded Hpa). rewrite Hps.
    rewrite take_ge by lia. reflexivity.
  - rewrite be32_read_unsigned by assumption. rewrite Htv.
    apply to_uint32_small. exact Hts.
  - change (Num 68 :: Num 84 :: Num 65 :: Num 71 :: Num DevTagStrip.VERSION :: Num (flags_of props)
              :: Num h0 :: Num h1 :: Num h2 :: Num h3
              :: map Num padded ++ Num (Z.of_nat (length (map Num vb)))
              :: map Num vb ++ [Num t0; Num t1; Num t2; Num t3])
      with ([Num 0x44; Num 0x54; Num 0x41; Num 0x47; Num DevTagStrip.VERSION;
             Num (flags_of props); Num h0; Num h1; Num h2; Num h3] ++ map Num padded
              ++ [Num (Z.of_nat (length (map Num vb)))] ++ map Num vb
              ++ [Num t0; Num t1; Num t2; Num t3]).
    rewrite <- Hbody, xor_reduce_Num. cbn [value_eqb]. apply Z.eqb_refl.
Qed.

End RoundTrip.

(** C1, as amended: on a valid field combination whose view id does not
    begin with a byte order mark, decoding the encoded payload at its
    magic offset returns the version, flags, view id and timestamp that
    were encoded and a valid checksum; the sha comes back without its
    trailing '0' characters. *)
Theorem buildPayload_parsePayload_roundtrip
    (now : Z) (props : DevTagStrip.DevTagPayload) (pre suf : list value) :
  valid_fields now props ->
  no_bom (DevTagStrip.viewId props) ->
  decodes_to now props (strip_trailing 48 (sha_of props))
             (pre ++ map Num (DevTagStrip.buildPayload now props) ++ suf)
             (Z.of_nat (length pre)).
Proof.
  intros Hvalid Hbom. unfold decodes_to.
  eexists. split; [apply parsePayload_buildPayload; exact Hvalid|].
  cbn [version flags sha viewId timestamp checksumValid].
  repeat split.
  apply TextDecoder_TextEncoder; [apply Hvalid | exact Hbom].
Qed.

Lemma billing_props_valid sha route :
  (length (str sha) <= 7)%nat ->
  ascii (str sha) ->
  valid_fields 0 (billing_props sha route).
Proof.
  intros Hlen Hascii. constructor.
  - apply ascii_well_formed, ascii_check. reflexivity.
  - vm_compute. lia.
  - exact Hascii.
  - exact Hlen.
  - unfold is_byte. cbn. lia.
  - cbn. lia.
Qed.

Lemma buildPayload_parsePayload_roundtrip_witness :
  decodes_to 0 (billing_props "abc1234" "/settings/billing") (str "abc1234")
             (map Num (DevTagStrip.buildPayload
                         0 (billing_props "abc1234" "/settings/billing")))
             0.
Proof.
  apply (buildPayload_parsePayload_roundtrip
           0 (billing_props "abc1234" "/settings/billing") [] []).
  - apply billing_props_valid; [vm_compute; lia | apply ascii_check; reflexivity].
  - cbn. lia.
Defined.

(** C1 as stated fails: a sha that ends in the character '0' is valid, and
    the decoder returns it without that character. *)
Lemma roundtrip_loses_trailing_zero :
  valid_fields 0 (billing_props "abc1230" "/settings/billing") /\
  ~ decodes_to 0 (billing_props "abc1230" "/settings/billing") (str "abc1230")
      (map Num (DevTagStrip.buildPayload
                  0 (billing_props "abc1230" "/settings/billing")))
      0.
Proof.
  split.
  - apply billing_props_valid; [vm_compute; lia | apply ascii_check; reflexivity].
  - intros (p & Hp & _ & _ & Hsha & _).
    vm_compute in Hp. injection Hp as <-. vm_compute in Hsha. discriminate Hsha.
Qed.

(** A view id that begins with U+FEFF loses that character as well. *)
Lemma roundtrip_drops_byte_order_mark :
  exists p,
    Strip.parsePayload
      (map Num (DevTagStrip.buildPayload
                  0 (DevTagStrip.mkProps (0xFEFF :: str "A") (str "/") None None None)))
      0 = Some p /\
    viewId p = str "A" /\ checksumValid p = true.
Proof. eexists. split; [vm_compute; reflexivity|]. split; reflexivity. Qed.

(** When the sha does not end in '0', it is returned unchanged. *)
Lemma strip_trailing_id c s :
  last s <> Some c -> strip_trailing c s = s.
Proof.
  intros H. unfold strip_trailing.
  destruct (rev s) as [|u t] eqn:E.
  - cbn. apply (f_equal (@rev Z)) in E. rewrite rev_involutive in E. symmetry. exact E.
  - assert (Hs : s = rev t ++ [u]).
    { apply (f_equal (@rev Z)) in E. rewrite rev_involutive in E. exact E. }
    cbn [drop_leading]. destruct (Z.eqb_spec u c) as [->|Hne].
    + exfalso. apply H. rewrite Hs. apply last_snoc.
    + cbn [rev]. symmetry. exact Hs.
Qed.

(** The decoded [routeHash] is the signed reading of the hash. *)
Lemma parsePayload_routeHash_signed
    (now : Z) (props : DevTagStrip.DevTagPayload) (pre suf : list value) :
  valid_fields now props ->
  exists p,
    Strip.parsePayload (pre ++ map Num (DevTagStrip.buildPayload now props) ++ suf)
                       (Z.of_nat (length pre)) = Some p /\
    let h := DevTagStrip.simpleHash (DevTagStrip.route props) in
    0 <= h < 2 ^ 32 /\
    routeHash p = if h <? 2 ^ 31 then h else h - 2 ^ 32.
Proof.
  intros Hvalid. eexists. split; [apply parsePayload_buildPayload; exact Hvalid|].
  cbn [routeHash]. cbv zeta.
  assert (Hr : 0 <= DevTagStrip.simpleHash (DevTagStrip.route props) < 2 ^ 32).
  { unfold DevTagStrip.simpleHash. rewrite shru_0. apply to_uint32_range. }
  split; [exact Hr|]. apply to_int32_unsigned. exact Hr.
Qed.

(** C4 fails on the code: the route "/settings" hashes to 2383617362, whose
    top bit is set, and the decoder returns -1911349934. *)
Theorem routeHash_negative_for_settings :
  DevTagStrip.simpleHash (str "/settings") = 2383617362 /\
  exists p,
    Strip.parsePayload
      (map Num (DevTagStrip.buildPayload 0 (billing_props "abc1234" "/settings"))) 0
    = Some p /\
    routeHash p = -1911349934 /\
    checksumValid p = true.
Proof.
  split; [vm_compute; reflexivity|].
  eexists. split; [vm_compute; reflexivity|]. split; reflexivity.
Qed.

(** ** The row search *)

Section RowSearch.

Context {A : Type}.

Lemma first_return_None (body : Z -> option A) rows :
  first_return body rows = None <-> Forall (fun r => body r = None) rows.
Proof.
  induction rows as [|r rows IH]; cbn [first_return].
  - split; [constructor | reflexivity].
  - destruct (body r) eqn:E.
    + split; [discriminate|]. intros H. inversion H; congruence.
    + rewrite IH. split; [intros H; constructor; assumption|].
      intros H. inversion H; assumption.
Qed.

Lemma first_return_Some (body : Z -> option A) rows p :
  first_return body rows = Some p -> exists r, r ∈ rows /\ body r = Some p.
Proof.
  induction rows as [|r rows IH]; cbn [first_return]; [discriminate|].
  destruct (body r) eqn:E.
  - intros [= <-]. exists r. split; [left | exact E].
  - intros H. destruct (IH H) as (r' & Hin & Hr'). exists r'. split; [right|]; assumption.
Qed.

Lemma first_return_skip (body : Z -> option A) r rows :
  body r = None -> first_return body (r :: rows) = first_return body rows.
Proof. intros H. cbn [first_return]. rewrite H. reflexivity. Qed.

End RowSearch.

Lemma strip_try_row_valid png row p :
  Strip.try_row png row = Some p -> checksumValid p = true.
Proof.
  unfold Strip.try_row. destruct (negb _); [|discriminate].
  destruct (Strip.parsePayload _ _) as [q|]; [|discriminate].
  destruct (checksumValid q) eqn:E; [|discriminate]. intros [= <-]. exact E.
Qed.

Lemma strip_try_row_fails png row :
  strip_candidate_fails png row -> Strip.try_row png row = None.
Proof.
  unfold strip_candidate_fails, Strip.try_row. intros (p & Hp & Hv).
  rewrite Hp, Hv. destruct (negb _); reflexivity.
Qed.

Lemma shadow_try_row_valid png row p :
  Shadow.try_row png row = Some p -> checksumValid p = true.
Proof.
  unfold Shadow.try_row. destruct (Shadow.hasMagic _); [|discriminate].
  destruct (Shadow.parsePayload _) as [q|]; [|discriminate].
  destruct (checksumValid q) eqn:E; [|discriminate]. intros [= <-]. exact E.
Qed.

Lemma shadow_try_row_fails png row :
  shadow_candidate_fails png row -> Shadow.try_row png row = None.
Proof.
  unfold shadow_candidate_fails, Shadow.try_row. intros (p & Hp & Hv).
  rewrite Hp, Hv. destruct (Shadow.hasMagic _); reflexivity.
Qed.

Lemma strip_bodies_fail png row :
  Strip.try_row png row = None ->
  Strip.bottom_body png row = None /\ Strip.top_body png row = None.
Proof.
  intros H. unfold Strip.bottom_body, Strip.top_body. rewrite H.
  destruct (row <? 0), (row >=? png_height png); split; reflexivity.
Qed.

(** C3: both exact-scheme decoders return either a payload whose checksum
    is valid or, when every searched row has been tried without success,
    null; a row whose candidate fails the checksum hands the search on to
    the next row. *)
Theorem decodeFromPNG_valid_or_null (png : PNG) :
  match Strip.decodeFromPNG png with
  | Some p => checksumValid p = true
  | None =>
      Forall (fun row => Strip.bottom_body png row = None)
             (Strip.bottom_rows (png_height png)) /\
      Forall (fun row => Strip.top_body png row = None) Strip.top_rows
  end /\
  match Shadow.decodeFromPNG png with
  | Some p => checksumValid p = true
  | None => Forall (fun row => Shadow.try_row png row = None) (seqZ 0 (png_height png))
  end /\
  (forall row rest,
      strip_candidate_fails png row ->
      first_return (Strip.bottom_body png) (row :: rest)
      = first_return (Strip.bottom_body png) rest /\
      first_return (Strip.top_body png) (row :: rest)
      = first_return (Strip.top_body png) rest) /\
  (forall row rest,
      shadow_candidate_fails png row ->
      first_return (Shadow.try_row png) (row :: rest)
      = first_return (Shadow.try_row png) rest).
Proof.
  repeat split.
  - unfold Strip.decodeFromPNG.
    destruct (first_return (Strip.bottom_body png) _) as [p|] eqn:E1.
    + apply first_return_Some in E1. destruct E1 as (r & _ & Hr).
      unfold Strip.bottom_body in Hr. destruct (r <? 0); [discriminate|].
      eapply strip_try_row_valid, Hr.
    + destruct (first_return (Strip.top_body png) _) as [p|] eqn:E2.
      * apply first_return_Some in E2. destruct E2 as (r & _ & Hr).
        unfold Strip.top_body in Hr. destruct (r >=? _); [discriminate|].
        eapply strip_try_row_valid, Hr.
      * split; apply first_return_None; assumption.
  - unfold Shadow.decodeFromPNG.
    destruct (first_return (Shadow.try_row png) _) as [p|] eqn:E.
    + apply first_return_Some in E. destruct E as (r & _ & Hr).
      eapply shadow_try_row_valid, Hr.
    + apply first_return_None. exact E.
  - apply first_return_skip, strip_bodies_fail, strip_try_row_fails. assumption.
  - apply first_return_skip, strip_bodies_fail, strip_try_row_fails. assumption.
  - intros row rest H. apply first_return_skip, shadow_try_row_fails, H.
Qed.

Lemma decodeFromPNG_valid_or_null_witness :
  strip_candidate_fails corrupted_png 0 /\
  first_return (Strip.bottom_body corrupted_png) [0; 1]
  = first_return (Strip.bottom_body corrupted_png) [1] /\
  exists p, Strip.decodeFromPNG corrupted_png = Some p /\ viewId p = str "A".
Proof.
  assert (H : strip_candidate_fails corrupted_png 0).
  { eexists. split; [vm_compute; reflexivity | reflexivity]. }
  split; [exact H|]. split.
  - destruct (decodeFromPNG_valid_or_null corrupted_png) as (_ & _ & Hskip & _).
    apply (Hskip 0 [1] H).
  - eexists. split; [vm_compute; reflexivity | reflexivity].
Defined.

(** C6: a view-id length prefix that runs past the end of the bytes makes
    [parsePayload] return a record whose checksum is invalid, and the row
    search goes on with the next row. *)
Theorem truncated_viewId_is_rejected (bytes : list value) (startIdx len : Z) :
  Strip.magic_at bytes startIdx = true ->
  get bytes (startIdx + 17) = Num len ->
  Z.of_nat (length bytes) < startIdx + 18 + len ->
  (exists p, Strip.parsePayload bytes startIdx = Some p /\ checksumValid p = false) /\
  (forall png row rest,
      Strip.extractBytesFromRow (png_data png) (png_width png) row = bytes ->
      Strip.findMagic bytes = startIdx ->
      Strip.try_row png row = None /\
      first_return (Strip.bottom_body png) (row :: rest)
      = first_return (Strip.bottom_body png) rest /\
      first_return (Strip.top_body png) (row :: rest)
      = first_return (Strip.top_body png) rest).
Proof.
  intros _ Hlen Hpast.
  assert (Hfail : exists p, Strip.parsePayload bytes startIdx = Some p /\
                            checksumValid p = false).
  { destruct (parsePayload_total bytes startIdx) as [p Hp]. exists p.
    split; [exact Hp|].
    destruct (parsePayload_fields _ _ _ Hp) as (_ & _ & _ & _ & _ & _ & _ & Hk).
    rewrite Hk. unfold after_viewId. rewrite Hlen.
    cbn [Strip.idx_add Strip.idx_plus Strip.get_at fmap option_fmap option_map].
    rewrite get_beyond by lia. reflexivity. }
  split; [exact Hfail|].
  intros png row rest Hbytes Hmagic.
  assert (Hrow : Strip.try_row png row = None).
  { apply strip_try_row_fails. unfold strip_candidate_fails.
    rewrite Hbytes, Hmagic. exact Hfail. }
  split; [exact Hrow|].
  destruct (strip_bodies_fail png row Hrow) as [Hb Ht].
  split; apply first_return_skip; assumption.
Qed.

(** The same holds when the bytes end before the length prefix itself:
    the running index becomes [NaN] and the stored checksum is [undefined]. *)
Lemma missing_length_prefix_is_rejected (bytes : list value) (startIdx : Z) :
  Z.of_nat (length bytes) <= startIdx + 17 ->
  exists p, Strip.parsePayload bytes startIdx = Some p /\ checksumValid p = false.
Proof.
  intros Hshort.
  destruct (parsePayload_total bytes startIdx) as [p Hp]. exists p.
  split; [exact Hp|].
  destruct (parsePayload_fields _ _ _ Hp) as (_ & _ & _ & _ & _ & _ & _ & Hk).
  rewrite Hk. unfold after_viewId. rewrite get_beyond by exact Hshort. reflexivity.
Qed.

Lemma truncated_viewId_is_rejected_witness :
  let bytes := Strip.extractBytesFromRow (png_data truncated_png) 8 0 in
  (exists p, Strip.parsePayload bytes 0 = Some p /\ checksumValid p = false) /\
  Strip.try_row truncated_png 0 = None /\
  first_return (Strip.bottom_body truncated_png) [0; 1]
  = first_return (Strip.bottom_body truncated_png) [1].
Proof.
  intros bytes.
  destruct (truncated_viewId_is_rejected bytes 0 200) as [H1 H2];
    [reflexivity | reflexivity | vm_compute; reflexivity |].
  split; [exact H1|].
  destruct (H2 truncated_png 0 [1]) as (Ha & Hb & _); [reflexivity | reflexivity |].
  split; assumption.
Defined.

(** ** The LSB embedding of [renderShadowWithHierarchy] *)

Section Embedding.

Import DevTagScope.

Lemma lsb_frame_refl touch px : Forall is_byte px -> lsb_frame touch px px.
Proof.
  intros H. split; [reflexivity|]. split; [exact H|].
  intros i v Hv. exists v. split; [exact Hv|]. split; [reflexivity | congruence].
Qed.

Lemma lsb_frame_trans touch a b c :
  lsb_frame touch a b -> lsb_frame touch b c -> lsb_frame touch a c.
Proof.
  intros (L1 & _ & H1) (L2 & B2 & H2). split; [congruence|]. split; [exact B2|].
  intros i v Hv. destruct (H1 i v Hv) as (v1 & Hv1 & S1 & T1).
  destruct (H2 i v1 Hv1) as (v2 & Hv2 & S2 & T2).
  exists v2. split; [exact Hv2|]. split; [congruence|].
  intros Hne. destruct (Z.eq_dec v1 v) as [->|Hne1]; auto.
Qed.

Lemma lsb_frame_weaken (t1 t2 : Z -> Prop) a b :
  (forall i, t1 i -> t2 i) -> lsb_frame t1 a b -> lsb_frame t2 a b.
Proof.
  intros Ht (L & B & H). split; [exact L|]. split; [exact B|].
  intros i v Hv. destruct (H i v Hv) as (v' & Hv' & S & T).
  exists v'. repeat split; auto.
Qed.

Lemma byte_forall (P : Z -> bool) :
  forallb P (seqZ 0 256) = true -> forall v, is_byte v -> P v = true.
Proof.
  intros H v Hv. rewrite forallb_forall in H. apply H.
  apply list_elem_of_In, elem_of_seqZ. unfold is_byte in Hv. lia.
Qed.

(** The value stored by [(pixels[i] & 0xFE) | bit] over a byte. *)
Lemma lsb_store_byte v b :
  is_byte v -> b = 0 \/ b = 1 ->
  let v' := clamp8 (bor (band (int32_of (Num v)) 0xFE) b) in
  is_byte v' /\ Z.shiftr v' 1 = Z.shiftr v 1.
Proof.
  intros Hv Hb. cbv zeta.
  pose proof (byte_forall
    (fun v => forallb (fun b =>
       let v' := clamp8 (bor (band (int32_of (Num v)) 0xFE) b) in
       (0 <=? v') && (v' <? 256) && (Z.shiftr v' 1 =? Z.shiftr v 1)) [0; 1])
    ltac:(vm_compute; reflexivity) v Hv) as H.
  cbv zeta in H. rewrite forallb_forall in H.
  specialize (H b). 
  assert (Hin : In b [0; 1]) by (destruct Hb as [-> | ->]; cbn; auto).
  specialize (H Hin).
  apply andb_true_iff in H. destruct H as [H H3].
  apply andb_true_iff in H. destruct H as [H1 H2].
  apply Z.leb_le in H1. apply Z.ltb_lt in H2. apply Z.eqb_eq in H3.
  unfold is_byte. split; [lia | exact H3].
Qed.

Lemma bits_of_payload_bits payload : Forall is_bit (bits_of_payload payload).
Proof.
  unfold bits_of_payload. apply Forall_concat, Forall_map, Forall_forall.
  intros byte _. apply Forall_map, Forall_forall. intros i _.
  unfold band. rewrite (to_int32_small 1) by lia.
  change 1 with (Z.ones 1). rewrite Z.land_ones by lia.
  unfold is_bit. change (2 ^ 1) with 2.
  pose proof (Z.mod_pos_bound (to_int32 (sar byte i)) 2). lia.
Qed.

Lemma bit_read bits k : Forall is_bit bits -> is_bit (int32_of (buf_get bits k)).
Proof.
  intros H. unfold buf_get. destruct (k <? 0); [left; reflexivity|].
  destruct (bits !! Z.to_nat k) as [b|] eqn:E; [|left; reflexivity].
  rewrite Forall_forall in H. specialize (H b).
  assert (Hb : is_bit b) by (apply H, list_elem_of_lookup; eauto).
  cbn [int32_of]. rewrite to_int32_small; [exact Hb|]. destruct Hb; lia.
Qed.

Variable bits : list Z.
Hypothesis Hbits : Forall is_bit bits.

Lemma write_lsb_frame (touch : Z -> Prop) px k idx :
  Forall is_byte px -> (0 <= idx -> touch idx) ->
  lsb_frame touch px (fst (write_lsb bits (px, k) idx)).
Proof.
  intros Hpx Ht. unfold write_lsb.
  destruct (k <? Z.of_nat (length bits)); [|apply lsb_frame_refl; exact Hpx].
  cbn [fst]. unfold px_set.
  destruct (Z.ltb_spec idx 0); [apply lsb_frame_refl; exact Hpx|].
  set (b := int32_of (buf_get bits k)).
  assert (Hb : is_bit b) by (apply bit_read; exact Hbits).
  destruct (px !! Z.to_nat idx) as [v|] eqn:E.
  2:{ rewrite list_insert_ge by (apply lookup_ge_None; exact E).
      apply lsb_frame_refl; exact Hpx. }
  assert (Hv : is_byte v).
  { rewrite Forall_forall in Hpx. apply Hpx, list_elem_of_lookup. eauto. }
  assert (Hget : buf_get px idx = Num v).
  { unfold buf_get. destruct (Z.ltb_spec idx 0); [lia|]. rewrite E. reflexivity. }
  rewrite Hget.
  destruct (lsb_store_byte v b Hv Hb) as [Hv' Hs].
  set (v' := clamp8 (bor (band (int32_of (Num v)) 254) b)) in *.
  split; [apply length_insert|]. split.
  - apply Forall_insert; assumption.
  - intros i w Hw. destruct (decide (i = Z.to_nat idx)) as [->|Hne].
    + exists v'. rewrite list_lookup_insert_eq by (eapply lookup_lt_Some; eauto).
      rewrite E in Hw. injection Hw as <-.
      split; [reflexivity|]. split; [exact Hs|].
      intros _. rewrite Z2Nat.id by lia. apply Ht. lia.
    + exists w. rewrite list_lookup_insert_ne by congruence.
      split; [exact Hw|]. split; [reflexivity | congruence].
Qed.

Lemma write_lsb_bytes px k idx :
  Forall is_byte px -> Forall is_byte (fst (write_lsb bits (px, k) idx)).
Proof.
  intros H. apply (write_lsb_frame (fun _ => True) px k idx H). trivial.
Qed.

Lemma rgb_of_row_intro width row x c :
  0 <= x < width -> 0 <= c < 3 -> rgb_of_row width row ((row * width + x) * 4 + c).
Proof.
  intros Hx Hc. unfold rgb_of_row.
  replace ((row * width + x) * 4 + c) with (c + (row * width + x) * 4) by lia.
  rewrite Z_mod_plus_full, Z.div_add by lia.
  rewrite (Z.mod_small c 4), (Z.div_small c 4) by lia.
  split; [lia|]. split; [lia|].
  rewrite Z.add_0_l, Z.add_comm, Z.div_add by lia.
  rewrite Z.div_small by lia. lia.
Qed.

Lemma embed_loop_frame fuel width row x px k :
  0 <= x -> Forall is_byte px ->
  lsb_frame (rgb_of_row width row) px (fst (embed_loop fuel bits width row x (px, k))).
Proof.
  revert x px k. induction fuel as [|fuel IH]; intros x px k Hx Hpx.
  - apply lsb_frame_refl. exact Hpx.
  - cbn [embed_loop snd].
    destruct (Z.ltb_spec x width); cbn [andb]; [|apply lsb_frame_refl; exact Hpx].
    destruct (k <? Z.of_nat (length bits)); [|apply lsb_frame_refl; exact Hpx].
    set (idx := (row * width + x) * 4).
    destruct (write_lsb bits (px, k) idx) as [px1 k1] eqn:E1.
    destruct (write_lsb bits (px1, k1) (idx + 1)) as [px2 k2] eqn:E2.
    destruct (write_lsb bits (px2, k2) (idx + 2)) as [px3 k3] eqn:E3.
    assert (F1 : lsb_frame (rgb_of_row width row) px px1).
    { replace px1 with (fst (write_lsb bits (px, k) idx)) by (rewrite E1; reflexivity).
      apply write_lsb_frame; [exact Hpx|]. intros _.
      replace idx with (idx + 0) by lia. apply rgb_of_row_intro; lia. }
    assert (F2 : lsb_frame (rgb_of_row width row) px1 px2).
    { replace px2 with (fst (write_lsb bits (px1, k1) (idx + 1))) by (rewrite E2; reflexivity).
      apply write_lsb_frame; [apply F1|]. intros _. apply rgb_of_row_intro; lia. }
    assert (F3 : lsb_frame (rgb_of_row width row) px2 px3).
    { replace px3 with (fst (write_lsb bits (px2, k2) (idx + 2))) by (rewrite E3; reflexivity).
      apply write_lsb_frame; [apply F2|]. intros _. apply rgb_of_row_intro; lia. }
    eapply lsb_frame_trans; [exact F1|].
    eapply lsb_frame_trans; [exact F2|].
    eapply lsb_frame_trans; [exact F3|].
    apply IH; [lia | apply F3].
Qed.

Lemma embed_row_frame width row px :
  Forall is_byte px ->
  lsb_frame (rgb_of_row width row) px (embed_row bits width row px).
Proof. intros H. unfold embed_row. apply embed_loop_frame; [lia | exact H]. Qed.

End Embedding.

(** C7: the LSB embedding keeps the length of the pixel array and the upper
    seven bits of every element; an element that changes is a red, green or
    blue channel of a pixel in row 0, the middle row or the last row, so
    every alpha value and every other row is left as it was. *)
Theorem embed_payload_changes_only_lsb
    (scope : DevTagScope.DevTagScopeData) (width height : Z) (pixels : list Z)
    (i : nat) (v : Z) :
  Forall is_byte pixels ->
  pixels !! i = Some v ->
  length (DevTagScope.embed_payload scope width height pixels) = length pixels /\
  exists v',
    DevTagScope.embed_payload scope width height pixels !! i = Some v' /\
    Z.shiftr v' 1 = Z.shiftr v 1 /\
    (v' <> v ->
     Z.of_nat i mod 4 <> 3 /\
     (Z.of_nat i / 4) / width ∈ DevTagScope.embed_rows height).
Proof.
  intros Hpx Hv. unfold DevTagScope.embed_payload.
  set (bits := DevTagScope.bits_of_payload (DevTagScope.buildHierarchicalPayload scope)).
  assert (Hbits : Forall is_bit bits) by apply bits_of_payload_bits.
  set (touch := fun j => j mod 4 <> 3 /\ (j / 4) / width ∈ DevTagScope.embed_rows height).
  assert (Hrow : forall row px, row ∈ DevTagScope.embed_rows height -> Forall is_byte px ->
                   lsb_frame touch px (DevTagScope.embed_row bits width row px)).
  { intros row px Hin Hb. eapply lsb_frame_weaken; [|apply embed_row_frame; assumption].
    intros j (Hj & _ & <-). split; assumption. }
  assert (Hall : lsb_frame touch pixels
            (fold_left (fun px row => DevTagScope.embed_row bits width row px)
                       (DevTagScope.embed_rows height) pixels)).
  { unfold DevTagScope.embed_rows in *. cbn [fold_left].
    assert (F1 := Hrow 0 pixels ltac:(repeat constructor) Hpx).
    assert (F2 := Hrow (height / 2) _ ltac:(repeat constructor) (proj1 (proj2 F1))).
    assert (F3 := Hrow (height - 1) _ ltac:(repeat constructor) (proj1 (proj2 F2))).
    exact (lsb_frame_trans _ _ _ _ F1 (lsb_frame_trans _ _ _ _ F2 F3)). }
  destruct Hall as (HL & _ & H). split; [exact HL|].
  destruct (H i v Hv) as (v' & Hv' & Hs & Ht). exists v'. auto.
Qed.

Lemma embed_payload_changes_only_lsb_witness :
  length (DevTagScope.embed_payload sample_scope 4 2 sample_canvas)
  = length sample_canvas /\
  exists v',
    DevTagScope.embed_payload sample_scope 4 2 sample_canvas !! 5%nat = Some v' /\
    Z.shiftr v' 1 = Z.shiftr 29 1 /\
    (v' <> 29 ->
     Z.of_nat 5 mod 4 <> 3 /\ (Z.of_nat 5 / 4) / 4 ∈ DevTagScope.embed_rows 2).
Proof.
  apply (embed_payload_changes_only_lsb sample_scope 4 2 sample_canvas 5 29).
  - apply Forall_forall. intros x Hx. apply list_elem_of_In in Hx.
    unfold is_byte. cbn in Hx. lia.
  - reflexivity.
Defined.

(** ** [extractTile] *)

Lemma lookup_map_seqZ {B} (f : Z -> B) (n x : Z) :
  0 <= x < n -> map f (seqZ 0 n) !! Z.to_nat x = Some (f x).
Proof.
  intros Hx. rewrite list_lookup_fmap, lookup_seqZ_lt by lia.
  cbn. f_equal. f_equal. lia.
Qed.



(** ** The matches recorded by [scan] *)

Section Matches.

Import Decode.

Lemma map_has_spec key m : map_has key m = true <-> key ∈ keys m.
Proof.
  unfold keys. induction m as [|[k v] m IH]; cbn [map_has map fst].
  - split; [discriminate | intros H; inversion H].
  - destruct (decide (k = key)) as [->|Hne].
    + split; [intros _; left | reflexivity].
    + rewrite IH. split; [intros H; right; exact H|].
      intros H. inversion H; subst; [congruence | assumption].
Qed.

Lemma keys_map_bump key score m : keys (map_bump key score m) = keys m.
Proof.
  unfold keys. induction m as [|[k v] m IH]; cbn [map_bump map fst]; [reflexivity|].
  destruct (decide (k = key)); cbn [map fst]; [reflexivity|]. rewrite IH. reflexivity.
Qed.

(** The keys after one registry entry has been scored: a new key is added
    at the end exactly when the score passes and the path is not yet known. *)
Lemma keys_score_entry tile threshold m entry :
  keys (score_entry tile threshold m entry)
  = if gtb (compare tile (pattern entry)) threshold && negb (map_has (path entry) m)
    then keys m ++ [path entry] else keys m.
Proof.
  unfold score_entry. destruct (gtb _ _); cbn [andb]; [|reflexivity].
  destruct (map_has _ m); cbn [negb].
  - apply keys_map_bump.
  - unfold keys. rewrite map_app. reflexivity.
Qed.

Lemma gtb_le_trans s t1 t2 : Number.le t1 t2 -> gtb s t2 = true -> gtb s t1 = true.
Proof.
  destruct t1 as [|x1], t2 as [|x2], s as [|y]; cbn; try contradiction; try discriminate.
  intros Hle. destruct (Rlt_dec x2 y); [|discriminate].
  intros _. destruct (Rlt_dec x1 y); [reflexivity|]. exfalso. lra.
Qed.

Lemma NoDup_snoc_fresh (l : list jsstring) k : NoDup l -> k ∉ l -> NoDup (l ++ [k]).
Proof.
  intros Hl Hk. apply NoDup_app. split; [exact Hl|]. split.
  - intros x Hx Hin. apply list_elem_of_singleton in Hin. subst. contradiction.
  - apply NoDup_singleton.
Qed.

Lemma map_has_false key m : map_has key m = false <-> key ∉ keys m.
Proof.
  rewrite <- map_has_spec. destruct (map_has key m); split; congruence.
Qed.

Lemma covers_score_entry tile t1 t2 m1 m2 entry :
  Number.le t1 t2 -> covers m1 m2 ->
  covers (score_entry tile t1 m1 entry) (score_entry tile t2 m2 entry).
Proof.
  intros Hle (N1 & N2 & Hsub). unfold covers.
  rewrite !keys_score_entry.
  pose proof (gtb_le_trans (compare tile (pattern entry)) t1 t2 Hle) as Hmono.
  destruct (gtb _ t2) eqn:G2.
  - rewrite (Hmono eq_refl). cbn [andb].
    destruct (map_has (path entry) m1) eqn:H1, (map_has (path entry) m2) eqn:H2;
      cbn [negb].
    + auto.
    + apply map_has_spec in H1. apply map_has_false in H2.
      split; [exact N1|]. split; [apply NoDup_snoc_fresh; assumption|].
      intros k Hk. apply elem_of_app in Hk. destruct Hk as [Hk|Hk]; [auto|].
      apply list_elem_of_singleton in Hk. subst. exact H1.
    + apply map_has_false in H1. apply map_has_spec in H2. exfalso. auto.
    + apply map_has_false in H1. apply map_has_false in H2.
      split; [apply NoDup_snoc_fresh; assumption|].
      split; [apply NoDup_snoc_fresh; assumption|].
      intros k Hk. apply elem_of_app in Hk. apply elem_of_app.
      destruct Hk as [Hk|Hk]; [left; auto | right; exact Hk].
  - cbn [andb]. destruct (gtb _ t1 && negb (map_has (path entry) m1)) eqn:G1.
    + apply andb_true_iff in G1. destruct G1 as [_ G1].
      apply negb_true_iff, map_has_false in G1.
      split; [apply NoDup_snoc_fresh; assumption|]. split; [exact N2|].
      intros k Hk. apply elem_of_app. left. auto.
    + auto.
Qed.

Lemma fold_left_rel {S X} (R : S -> S -> Prop) (f g : S -> X -> S) l :
  (forall a b x, R a b -> R (f a x) (g b x)) ->
  forall a b, R a b -> R (fold_left f l a) (fold_left g l b).
Proof.
  intros Hstep. induction l as [|x l IH]; intros a b Hab; cbn [fold_left]; auto.
Qed.

Lemma covers_scan_matches png registry tileSize t1 t2 :
  Number.le t1 t2 ->
  covers (scan_matches png registry tileSize t1) (scan_matches png registry tileSize t2).
Proof.
  intros Hle. unfold scan_matches.
  apply fold_left_rel.
  - intros a b y Hab. apply fold_left_rel; [|exact Hab].
    intros a' b' x Hab'. apply fold_left_rel; [|exact Hab'].
    intros a'' b'' e Hab''. apply covers_score_entry; assumption.
  - split; [constructor|]. split; [constructor|]. auto.
Qed.

Lemma length_sort_insert a l : length (sort_insert a l) = S (length l).
Proof.
  induction l as [|b l IH]; cbn [sort_insert]; [reflexivity|].
  destruct (sort_after a b); cbn [length]; [rewrite IH|]; reflexivity.
Qed.

Lemma length_sort_matches l : length (sort_matches l) = length l.
Proof.
  unfold sort_matches. induction l as [|a l IH]; cbn [foldr]; [reflexivity|].
  rewrite length_sort_insert, IH. reflexivity.
Qed.

Lemma length_scan png registry tileSize threshold :
  length (scan png registry tileSize threshold)
  = length (keys (scan_matches png registry tileSize threshold)).
Proof. unfold scan, keys. rewrite length_sort_matches, !length_map. reflexivity. Qed.

End Matches.

(** C8: raising the threshold never increases the number of matches that
    [scan] returns for the same image, registry and tile size. *)
Theorem scan_threshold_monotone
    (png : PNG) (registry : list Decode.RegistryEntry) (tileSize : Z) (t1 t2 : num) :
  Number.le t1 t2 ->
  (length (Decode.scan png registry tileSize t2)
   <= length (Decode.scan png registry tileSize t1))%nat.
Proof.
  intros Hle. rewrite !length_scan.
  destruct (covers_scan_matches png registry tileSize t1 t2 Hle) as (_ & N2 & Hsub).
  apply submseteq_length, NoDup_submseteq; assumption.
Qed.

Lemma scan_threshold_monotone_witness :
  (length (Decode.scan tiny_image tiny_registry 1 (Fin (7 / 10)))
   <= length (Decode.scan tiny_image tiny_registry 1 (Fin (15 / 100))))%nat.
Proof.
  apply (scan_threshold_monotone tiny_image tiny_registry 1
                                 (Fin (15 / 100)) (Fin (7 / 10))).
  cbn. lra.
Defined.

(** ** The grid of the perceptual scan *)

Section Grid.

Import Decode.

Lemma stride_loop_spec step stop fuel i x :
  0 < step -> stop - i <= Z.of_nat fuel * step ->
  x ∈ stride_loop fuel i stop step <->
  exists k, 0 <= k /\ x = i + k * step /\ x < stop.
Proof.
  intros Hstep. revert i. induction fuel as [|fuel IH]; intros i Hfuel.
  - cbn [stride_loop]. split; [intros H; inversion H|].
    intros (k & Hk & -> & Hlt). exfalso. nia.
  - cbn [stride_loop]. destruct (Z.ltb_spec i stop).
    + rewrite elem_of_cons, IH by lia. split.
      * intros [->|(k & Hk & -> & Hlt)].
        -- exists 0. lia.
        -- exists (k + 1). lia.
      * intros (k & Hk & -> & Hlt).
        destruct (Z.eq_dec k 0) as [->|Hne]; [left; lia|].
        right. exists (k - 1). lia.
    + split; [intros H0; inversion H0|].
      intros (k & Hk & -> & Hlt). exfalso. nia.
Qed.

(** The counter of [for (let i = 0; i < stop; i += step)] takes the
    multiples of [step] below [stop]. *)
Lemma stride_spec stop step x :
  0 < step ->
  x ∈ stride stop step <-> exists k, 0 <= k /\ x = k * step /\ x < stop.
Proof.
  intros Hstep. unfold stride. rewrite stride_loop_spec by (try assumption; nia).
  split; intros (k & Hk & Hx & Hlt); exists k; (split; [exact Hk|]); split; lia.
Qed.








Lemma fold_left_inv {S X} (P : S -> Prop) (f : S -> X -> S) l :
  (forall a x, P a -> P (f a x)) -> forall a, P a -> P (fold_left f l a).
Proof. intros H. induction l as [|x l IH]; intros a Ha; cbn [fold_left]; auto. Qed.


Lemma sort_insert_perm a l : sort_insert a l ≡ₚ a :: l.
Proof.
  induction l as [|b l IH]; cbn [sort_insert]; [reflexivity|].
  destruct (sort_after a b); [|reflexivity].
  rewrite IH. apply Permutation_swap.
Qed.

Lemma sort_matches_perm l : sort_matches l ≡ₚ l.
Proof.
  unfold sort_matches. induction l as [|a l IH]; cbn [foldr]; [reflexivity|].
  rewrite sort_insert_perm, IH. reflexivity.
Qed.


End Grid.

(** ** Evaluating the correlation on small tiles *)

Section NumEval.

Local Open Scope R_scope.

Lemma div_fin a b : b <> 0 -> div (Fin a) (Fin b) = Fin (a / b).
Proof. intros H. unfold div. destruct (Req_dec_T b 0); [contradiction | reflexivity]. Qed.

Lemma sqrt_fin_0 a : a = 0 -> Math_sqrt (Fin a) = Fin 0.
Proof.
  intros ->. unfold Math_sqrt. destruct (Rlt_dec 0 0); [lra|]. rewrite sqrt_0. reflexivity.
Qed.

Lemma is_zero_0 : is_zero (Fin 0) = true.
Proof. unfold is_zero. destruct (Req_dec_T 0 0); [reflexivity | contradiction]. Qed.



End NumEval.




(** ** The two pattern generators *)

Lemma generatePattern_at data tileSize intensity x y :
  0 <= x < tileSize -> 0 <= y < tileSize ->
  Decode.at2 (Decode.generatePattern data tileSize intensity) x y
  = Some (Decode.pattern_gray (Decode.derive (Decode.hash data)) tileSize intensity x y).
Proof.
  intros Hx Hy. unfold Decode.at2, Decode.generatePattern.
  destruct (Z.ltb_spec x 0); [lia|]. destruct (Z.ltb_spec y 0); [lia|]. cbn [orb].
  rewrite lookup_map_seqZ by lia. rewrite lookup_map_seqZ by lia. reflexivity.
Qed.

Section FoldTouch.

Context {X : Type}.
Variable f : list Z -> X -> list Z.
Variable get : list Z -> value.
Variable Inv : list Z -> Prop.
Variable ok hit : X -> Prop.
Variable v : value.

Hypothesis Hinv : forall px x, Inv px -> ok x -> Inv (f px x).
Hypothesis Hmiss : forall px x, Inv px -> ok x -> ~ hit x -> get (f px x) = get px.
Hypothesis Hhit : forall px x, Inv px -> ok x -> hit x -> get (f px x) = v.
Hypothesis Hdec : forall x, hit x \/ ~ hit x.

Lemma fold_touch_inv xs px : Forall ok xs -> Inv px -> Inv (fold_left f xs px).
Proof.
  intros Hok. revert px. induction Hok as [|x xs Hx _ IH]; intros px Hpx;
    cbn [fold_left]; auto.
Qed.

Lemma fold_touch_miss xs px :
  Forall ok xs -> Forall (fun x => ~ hit x) xs -> Inv px ->
  get (fold_left f xs px) = get px.
Proof.
  intros Hok. revert px. induction Hok as [|x xs Hx _ IH]; intros px Hno Hpx;
    cbn [fold_left]; [reflexivity|].
  inversion Hno; subst. rewrite IH by auto. apply Hmiss; assumption.
Qed.

Lemma hit_somewhere_or_nowhere xs :
  Exists hit xs \/ Forall (fun x => ~ hit x) xs.
Proof.
  induction xs as [|x xs [IH|IH]].
  - right. constructor.
  - left. apply Exists_cons_tl. exact IH.
  - destruct (Hdec x) as [Hx|Hx].
    + left. apply Exists_cons_hd. exact Hx.
    + right. constructor; assumption.
Qed.

Lemma fold_touch_hit xs px :
  Forall ok xs -> Exists hit xs -> Inv px -> get (fold_left f xs px) = v.
Proof.
  intros Hok. revert px. induction Hok as [|x xs Hx Hok IH]; intros px Hex Hpx.
  - inversion Hex.
  - cbn [fold_left].
    destruct (hit_somewhere_or_nowhere xs) as [Hlater|Hnot].
    + apply IH; auto.
    + rewrite fold_touch_miss by auto.
      inversion Hex as [? ? Hh|? ? Hh]; subst; [apply Hhit; assumption|].
      exfalso. rewrite Forall_forall in Hnot. apply Exists_exists in Hh.
      destruct Hh as (y & Hy & Hhy). exact (Hnot y Hy Hhy).
Qed.

End FoldTouch.

Lemma Exists_elem {A} (P : A -> Prop) (l : list A) x : x ∈ l -> P x -> Exists P l.
Proof.
  intros Hin HP. induction Hin as [|? ? ? _ IH].
  - apply Exists_cons_hd. exact HP.
  - apply Exists_cons_tl. exact (IH HP).
Qed.

Section EncoderImage.

Import DevTag.

Lemma length_px_store px idx v : length (px_store px idx v) = length px.
Proof. unfold px_store. destruct (idx <? 0); [reflexivity | apply length_insert]. Qed.

Lemma buf_get_px_store_ne px idx v j :
  j <> idx -> buf_get (px_store px idx v) j = buf_get px j.
Proof.
  intros Hne. unfold px_store, buf_get.
  destruct (Z.ltb_spec idx 0); [reflexivity|].
  destruct (Z.ltb_spec j 0); [reflexivity|].
  rewrite list_lookup_insert_ne by lia. reflexivity.
Qed.

Lemma buf_get_px_store_eq px idx v :
  0 <= idx < Z.of_nat (length px) ->
  buf_get (px_store px idx v) idx = Num (to_uint8_clamped v).
Proof.
  intros H. unfold px_store, buf_get.
  destruct (Z.ltb_spec idx 0); [lia|].
  rewrite list_lookup_insert_eq by lia. reflexivity.
Qed.

Variable p : params.
Variables width height : Z.
Variable intensity : num.
Variables x0 y0 : Z.
Hypothesis Hx0 : 0 <= x0 < width.
Hypothesis Hy0 : 0 <= y0 < height.

Lemma put_pixel_sized px y x :
  sized width height px -> sized width height (put_pixel p width height intensity px y x).
Proof. unfold sized, put_pixel. rewrite !length_px_store. trivial. Qed.

Lemma put_pixel_miss px y x :
  0 <= x < width -> 0 <= y < height -> ~ (y = y0 /\ x = x0) ->
  buf_get (put_pixel p width height intensity px y x) ((y0 * width + x0) * 4)
  = buf_get px ((y0 * width + x0) * 4).
Proof.
  intros Hx Hy Hne. unfold put_pixel. cbv zeta.
  assert (y * width + x <> y0 * width + x0).
  { destruct (Z.eq_dec y y0) as [->|Hy']; [intros E; apply Hne; split; lia|].
    destruct (Z.lt_total y y0) as [Hlt|[Heq|Hgt]]; [|contradiction|]; nia. }
  rewrite !buf_get_px_store_ne by lia. reflexivity.
Qed.

Lemma put_pixel_hit px y x :
  sized width height px -> 0 <= x < width -> 0 <= y < height -> y = y0 /\ x = x0 ->
  buf_get (put_pixel p width height intensity px y x) ((y0 * width + x0) * 4)
  = Num (to_uint8_clamped (pixel_gray p width height intensity x0 y0)).
Proof.
  intros Hs Hx Hy [-> ->]. unfold put_pixel. cbv zeta.
  rewrite !buf_get_px_store_ne by lia.
  apply buf_get_px_store_eq. unfold sized in Hs. nia.
Qed.

Lemma generated_pixel px :
  sized width height px ->
  buf_get (fold_left (fun pixels y =>
                        fold_left (fun pixels x =>
                                     put_pixel p width height intensity pixels y x)
                                  (seqZ 0 width) pixels)
                     (seqZ 0 height) px)
          ((y0 * width + x0) * 4)
  = Num (to_uint8_clamped (pixel_gray p width height intensity x0 y0)).
Proof.
  intros Hs.
  assert (Hxs : Forall (fun x => 0 <= x < width) (seqZ 0 width))
    by (apply Forall_seqZ; intros; lia).
  set (get := fun px : list Z => buf_get px ((y0 * width + x0) * 4)).
  change (get (fold_left (fun pixels y =>
                 fold_left (fun pixels x => put_pixel p width height intensity pixels y x)
                           (seqZ 0 width) pixels) (seqZ 0 height) px)
          = Num (to_uint8_clamped (pixel_gray p width height intensity x0 y0))).
  apply (fold_touch_hit _ get (sized width height) (fun y => 0 <= y < height) (fun y => y = y0)).
  - intros px' y Hpx Hy.
    apply (fold_touch_inv _ (sized width height) (fun x => 0 <= x < width)); auto.
    intros; apply put_pixel_sized; assumption.
  - intros px' y Hpx Hy Hne.
    apply (fold_touch_miss _ get (sized width height) (fun x => 0 <= x < width) (fun x => False)); auto.
    + intros; apply put_pixel_sized; assumption.
    + intros; apply put_pixel_miss; auto. tauto.
    + apply Forall_forall. auto.
  - intros px' y Hpx Hy ->.
    apply (fold_touch_hit _ get (sized width height) (fun x => 0 <= x < width) (fun x => x = x0)); auto.
    + intros; apply put_pixel_sized; assumption.
    + intros; apply put_pixel_miss; auto. tauto.
    + intros; apply put_pixel_hit; auto.
    + intros x. destruct (Z.eq_dec x x0); auto.
    + apply (Exists_elem _ _ x0); [apply elem_of_seqZ; lia | reflexivity].
  - intros y. destruct (Z.eq_dec y y0); auto.
  - apply Forall_seqZ. intros; lia.
  - apply (Exists_elem _ _ y0); [apply elem_of_seqZ; lia | reflexivity].
  - exact Hs.
Qed.

End EncoderImage.

(** The pixel the encoder stores at a coordinate of the tile. *)
Lemma generatePerceptualPattern_gray data width height intensity x y :
  0 <= x < width -> 0 <= y < height ->
  DevTag.image_gray (DevTag.generatePerceptualPattern data width height intensity) x y
  = Num (to_uint8_clamped
           (DevTag.pixel_gray (DevTag.derive (DevTag.hash data)) width height intensity x y)).
Proof.
  intros Hx Hy. unfold DevTag.image_gray, DevTag.generatePerceptualPattern.
  cbn [DevTag.img_data DevTag.img_width].
  apply generated_pixel; [assumption | assumption |].
  unfold sized. rewrite length_replicate. nia.
Qed.

(** The encoder applies [Math.floor] to the variation, the decoder does not:
    where the decoder's reference value is the number [r], the encoder's
    gray value is the integer part of [r]. *)
Lemma encoder_floors_decoder data tileSize intensity x y r :
  Decode.pattern_gray (Decode.derive (Decode.hash data)) tileSize intensity x y = Fin r ->
  DevTag.pixel_gray (DevTag.derive (DevTag.hash data)) tileSize tileSize intensity x y
  = of_Z (Zfloor r).
Proof.
  unfold Decode.pattern_gray, DevTag.pixel_gray.
  change (DevTag.freq1 (DevTag.derive (DevTag.hash data)))
    with (Decode.freq1 (Decode.derive (Decode.hash data))).
  change (DevTag.freq2 (DevTag.derive (DevTag.hash data)))
    with (Decode.freq2 (Decode.derive (Decode.hash data))).
  change (DevTag.freq3 (DevTag.derive (DevTag.hash data)))
    with (Decode.freq3 (Decode.derive (Decode.hash data))).
  change (DevTag.phase1 (DevTag.derive (DevTag.hash data)))
    with (Decode.phase1 (Decode.derive (Decode.hash data))).
  change (DevTag.phase2 (DevTag.derive (DevTag.hash data)))
    with (Decode.phase2 (Decode.derive (Decode.hash data))).
  change (DevTag.phase3 (DevTag.derive (DevTag.hash data)))
    with (Decode.phase3 (Decode.derive (Decode.hash data))).
  change (DevTag.amp1 (DevTag.derive (DevTag.hash data)))
    with (Decode.amp1 (Decode.derive (Decode.hash data))).
  change (DevTag.amp2 (DevTag.derive (DevTag.hash data)))
    with (Decode.amp2 (Decode.derive (Decode.hash data))).
  change (DevTag.amp3 (DevTag.derive (DevTag.hash data)))
    with (Decode.amp3 (Decode.derive (Decode.hash data))).
  change DevTag.Math_PI with Decode.Math_PI.
  match goal with
  | |- add (of_Z 245) ?V = Fin r -> _ => destruct V as [|v]
  end; [discriminate|].
  unfold of_Z, add, lift2, Math_floor, of_Z. intros [= <-].
  f_equal. replace (245 + v)%R with (v + IZR 245)%R by lra.
  rewrite Zfloor_addz, plus_IZR. lra.
Qed.

(** What the two generators have in common: the pixel the encoder stores is
    the integer part of the decoder's reference value, clamped to a byte. *)
Lemma encoder_pixel_is_floor_of_reference data tileSize intensity x y r :
  0 <= x < tileSize -> 0 <= y < tileSize ->
  Decode.at2 (Decode.generatePattern data tileSize intensity) x y = Some (Fin r) ->
  DevTag.image_gray (DevTag.generatePerceptualPattern data tileSize tileSize intensity) x y
  = Num (to_uint8_clamped (of_Z (Zfloor r))).
Proof.
  intros Hx Hy Hr. rewrite generatePattern_at in Hr by assumption.
  injection Hr as Hr.
  rewrite generatePerceptualPattern_gray by assumption.
  rewrite (encoder_floors_decoder _ _ _ _ _ _ Hr). reflexivity.
Qed.

(** ** The generators on the key "b" *)

Section KeyB.

Lemma hash_b : Decode.hash (str "b") = 98.
Proof. vm_compute. reflexivity. Qed.

Local Open Scope R_scope.

Lemma derive_98 :
  Decode.derive 98
  = Decode.mkParams 5 6 12
      (Fin (27675 / 233280 * PI * 2)) (Fin (146632 / 233280 * PI * 2))
      (Fin (118649 / 233280 * PI * 2))
      (Fin (4 / 10 + 189246 / 233280 * (3 / 10)))
      (Fin (3 / 10 + 128743 / 233280 * (3 / 10)))
      (Fin (3 / 10 + 61700 / 233280 * (2 / 10))).
Proof.
  unfold Decode.derive, Decode.next.
  change (Z.rem (98 * 9301 + 49297) 233280) with 27675%Z.
  change (Z.rem (27675 * 9301 + 49297) 233280) with 146632%Z.
  change (Z.rem (146632 * 9301 + 49297) 233280) with 118649%Z.
  change (Z.rem (118649 * 9301 + 49297) 233280) with 189246%Z.
  change (Z.rem (189246 * 9301 + 49297) 233280) with 128743%Z.
  change (Z.rem (128743 * 9301 + 49297) 233280) with 61700%Z.
  change (2 + Z.rem 98 5)%Z with 5%Z.
  change (6 + Z.rem (sar 98 8) 5)%Z with 6%Z.
  change (12 + Z.rem (sar 98 16) 6)%Z with 12%Z.
  unfold of_Z, Decode.Math_PI. rewrite !div_fin by lra.
  unfold mul, add, lift2. reflexivity.
Qed.

Lemma pattern_gray_b x y :
  Decode.pattern_gray (Decode.derive 98) 2 (Fin (1 / 255)) x y
  = Fin (245 +
         (sin (IZR x / 2 * 5 * PI * 2 + 27675 / 233280 * PI * 2)
            * (4 / 10 + 189246 / 233280 * (3 / 10))
          + sin (IZR y / 2 * 6 * PI * 2 + 146632 / 233280 * PI * 2)
            * (3 / 10 + 128743 / 233280 * (3 / 10))
          + sin ((IZR x / 2 + IZR y / 2) * 12 * PI * 2 + 118649 / 233280 * PI * 2)
            * (3 / 10 + 61700 / 233280 * (2 / 10))) / 3 * (1 / 255) * 255).
Proof.
  rewrite derive_98. unfold Decode.pattern_gray.
  cbn [Decode.freq1 Decode.freq2 Decode.freq3 Decode.phase1 Decode.phase2
       Decode.phase3 Decode.amp1 Decode.amp2 Decode.amp3].
  unfold of_Z, Decode.Math_PI. rewrite !div_fin by lra.
  unfold mul, add, Math_sin, lift2. rewrite div_fin by lra. reflexivity.
Qed.

Lemma sin_shift_odd p : sin (1 / 2 * 5 * PI * 2 + p) = - sin p.
Proof.
  replace (1 / 2 * 5 * PI * 2 + p) with (p + PI + 2 * INR 2 * PI) by (simpl INR; field).
  rewrite sin_period. apply neg_sin.
Qed.

Lemma sin_shift_even p : sin ((1 / 2 + 0 / 2) * 12 * PI * 2 + p) = sin p.
Proof.
  replace ((1 / 2 + 0 / 2) * 12 * PI * 2 + p) with (p + 2 * INR 6 * PI)
    by (simpl INR; field).
  apply sin_period.
Qed.

Lemma integer_floor_differs r :
  244 < r < 246 -> r <> 245 ->
  to_uint8_clamped (of_Z (Zfloor r)) = Zfloor r /\ IZR (Zfloor r) <> r.
Proof.
  intros Hr Hne. pose proof (Zfloor_bound r) as Hb.
  assert (H1 : IZR 243 < IZR (Zfloor r)) by lra.
  assert (H2 : IZR (Zfloor r) < IZR 246) by lra.
  apply lt_IZR in H1. apply lt_IZR in H2.
  assert (Hf : Zfloor r = 244%Z \/ Zfloor r = 245%Z) by lia.
  split.
  - unfold to_uint8_clamped, of_Z, round_half_even.
    destruct Hf as [-> | ->];
      (destruct (Rle_dec _ 0); [lra|]); (destruct (Rle_dec 255 _); [lra|]);
      rewrite ZfloorZ; (destruct (Rlt_dec _ (1 / 2)); [reflexivity | lra]).
  - destruct Hf as [Hf | Hf]; rewrite Hf; lra.
Qed.

(** C2 fails on the code: for the key "b", a 2 by 2 tile and intensity
    1/255 there is a coordinate at which the decoder's reference pattern
    holds a number [r] that is not an integer, while the encoder's image
    holds its integer part; so the two grids are not equal at every
    coordinate. *)
Theorem patterns_differ_for_key_b :
  (exists x y n r,
      (0 <= x < 2)%Z /\ (0 <= y < 2)%Z /\
      DevTag.image_gray
        (DevTag.generatePerceptualPattern (str "b") 2 2 (Fin (1 / 255))) x y = Num n /\
      Decode.at2 (Decode.generatePattern (str "b") 2 (Fin (1 / 255))) x y = Some (Fin r) /\
      n = Zfloor r /\ IZR n <> r) /\
  ~ grids_agree (str "b") 2 (Fin (1 / 255)).
Proof.
  assert (Hdiff : exists x y n r,
      (0 <= x < 2)%Z /\ (0 <= y < 2)%Z /\
      DevTag.image_gray
        (DevTag.generatePerceptualPattern (str "b") 2 2 (Fin (1 / 255))) x y = Num n /\
      Decode.at2 (Decode.generatePattern (str "b") 2 (Fin (1 / 255))) x y = Some (Fin r) /\
      n = Zfloor r /\ IZR n <> r); [|split; [exact Hdiff|]].
  2:{ intros H.
      destruct Hdiff as (x & y & n & r & Hx & Hy & He & Hd & _ & Hne).
      destruct (H x y Hx Hy) as (g & Hg & Hv).
      rewrite Hd in Hg. injection Hg as <-.
      rewrite He in Hv. cbn [of_value] in Hv. unfold of_Z in Hv.
      injection Hv as Hv. contradiction. }
  assert (G0 := generatePattern_at (str "b") 2 (Fin (1 / 255)) 0 0 ltac:(lia) ltac:(lia)).
  assert (G1 := generatePattern_at (str "b") 2 (Fin (1 / 255)) 1 0 ltac:(lia) ltac:(lia)).
  rewrite hash_b, pattern_gray_b in G0, G1.
  replace (0 / 2 * 5 * PI * 2 + 27675 / 233280 * PI * 2)
    with (27675 / 233280 * PI * 2) in G0 by field.
  replace (0 / 2 * 6 * PI * 2 + 146632 / 233280 * PI * 2)
    with (146632 / 233280 * PI * 2) in G0, G1 by field.
  replace ((0 / 2 + 0 / 2) * 12 * PI * 2 + 118649 / 233280 * PI * 2)
    with (118649 / 233280 * PI * 2) in G0 by field.
  rewrite sin_shift_odd, sin_shift_even in G1.
  set (S1 := sin (27675 / 233280 * PI * 2)) in *.
  set (S2 := sin (146632 / 233280 * PI * 2)) in *.
  set (S3 := sin (118649 / 233280 * PI * 2)) in *.
  assert (B1 : -1 <= S1 <= 1) by apply SIN_bound.
  assert (B2 : -1 <= S2 <= 1) by apply SIN_bound.
  assert (B3 : -1 <= S3 <= 1) by apply SIN_bound.
  assert (P1 : 0 < S1).
  { pose proof PI_RGT_0. apply sin_gt_0; lra. }
  match type of G0 with _ = Some (Fin ?r) => set (r0 := r) in * end.
  match type of G1 with _ = Some (Fin ?r) => set (r1 := r) in * end.
  destruct (Req_dec_T r0 245) as [E0|N0].
  - (* the value at (0,0) is an integer: the one at (1,0) is not *)
    assert (N1 : r1 <> 245) by (unfold r0, r1 in *; lra).
    destruct (integer_floor_differs r1 ltac:(unfold r1; lra) N1) as [Hc Hd].
    exists 1%Z, 0%Z, (Zfloor r1), r1.
    split; [lia|]. split; [lia|]. split.
    + rewrite (encoder_pixel_is_floor_of_reference _ _ _ _ _ r1) by (lia || exact G1).
      rewrite Hc. reflexivity.
    + split; [exact G1|]. split; [reflexivity | exact Hd].
  - destruct (integer_floor_differs r0 ltac:(unfold r0; lra) N0) as [Hc Hd].
    exists 0%Z, 0%Z, (Zfloor r0), r0.
    split; [lia|]. split; [lia|]. split.
    + rewrite (encoder_pixel_is_floor_of_reference _ _ _ _ _ r0) by (lia || exact G0).
      rewrite Hc. reflexivity.
    + split; [exact G0|]. split; [reflexivity | exact Hd].
Qed.

End KeyB.

(** * Further properties *)

(** ** The string hashes *)

Section Hash.

Lemma hash_step_mod h h' c :
  to_uint32 h = h' mod 2 ^ 32 ->
  to_uint32 (bor (shl h 5 - h + c) 0) = (31 * h' + c) mod 2 ^ 32.
Proof.
  intros H. rewrite bor_0_r, to_uint32_of_int32.
  unfold shl. change (5 mod 32) with 5. rewrite Z.shiftl_mul_pow2 by lia.
  unfold to_uint32, to_int32 in *. change (2 ^ 5) with 32.
  Z.div_mod_to_equations. lia.
Qed.

Lemma hash_fold_mod s : forall h h',
  to_uint32 h = h' mod 2 ^ 32 ->
  to_uint32 (fold_left (fun h c => bor (shl h 5 - h + c) 0) s h)
  = fold_left (fun h c => 31 * h + c) s h' mod 2 ^ 32.
Proof.
  induction s as [|c s IH]; intros h h' H; cbn [fold_left]; [exact H|].
  apply IH. apply hash_step_mod. exact H.
Qed.

End Hash.

(** X1: the four string hashes ([simpleHash] of DevTagStrip.tsx and [hash]
    of DevTag.tsx, decode.ts and decode-noise.ts) are the same function:
    the polynomial hash with multiplier 31 over the UTF-16 code units,
    reduced modulo 2^32 into the unsigned range. *)
Theorem hash_is_polynomial_mod_2_32 (s : jsstring) :
  DevTagStrip.simpleHash s = horner s mod 2 ^ 32 /\
  DevTag.hash s = horner s mod 2 ^ 32 /\
  Decode.hash s = horner s mod 2 ^ 32 /\
  DecodeNoise.hash s = horner s mod 2 ^ 32.
Proof.
  assert (H : shru (fold_left (fun h c => bor (shl h 5 - h + c) 0) s 0) 0
              = horner s mod 2 ^ 32).
  { rewrite shru_0. apply hash_fold_mod. reflexivity. }
  repeat split; exact H.
Qed.

(** ** The checksum

    A byte list accepted by a decidable check is a list of bytes. *)

Lemma bytes_check (l : list Z) :
  forallb (fun b => (0 <=? b) && (b <? 256)) l = true -> Forall is_byte l.
Proof.
  intros H. rewrite forallb_forall in H. apply Forall_forall. intros b Hb.
  apply list_elem_of_In, H, andb_prop in Hb. unfold is_byte. lia.
Qed.

Section Xor.

Lemma lxor_byte a b : is_byte a -> is_byte b -> is_byte (Z.lxor a b).
Proof.
  unfold is_byte. intros Ha Hb.
  assert (H0 : 0 <= Z.lxor a b) by (apply Z.lxor_nonneg; lia).
  split; [exact H0|].
  destruct (Z.eq_dec (Z.lxor a b) 0) as [->|Hne]; [lia|].
  change 256 with (2 ^ 8). apply Z.log2_lt_pow2; [lia|].
  pose proof (Z.log2_lxor a b ltac:(lia) ltac:(lia)) as Hl.
  assert (La : Z.log2 a < 8).
  { destruct (Z.eq_dec a 0) as [->|]; [cbn; lia|]. apply Z.log2_lt_pow2; lia. }
  assert (Lb : Z.log2 b < 8).
  { destruct (Z.eq_dec b 0) as [->|]; [cbn; lia|]. apply Z.log2_lt_pow2; lia. }
  lia.
Qed.

Lemma bxor_byte a b : is_byte a -> is_byte b -> bxor a b = Z.lxor a b.
Proof.
  unfold is_byte, bxor. intros Ha Hb. rewrite !to_int32_small by lia. reflexivity.
Qed.

Lemma fold_bxor_bytes l : forall acc,
  is_byte acc -> Forall is_byte l ->
  fold_left bxor l acc = fold_left Z.lxor l acc /\ is_byte (fold_left Z.lxor l acc).
Proof.
  induction l as [|b l IH]; intros acc Ha Hl; cbn [fold_left]; [auto|].
  inversion Hl as [|? ? Hb Hl']; subst.
  rewrite bxor_byte by assumption. apply IH; [apply lxor_byte|]; assumption.
Qed.

Lemma fold_lxor_acc l : forall acc,
  fold_left Z.lxor l acc = Z.lxor acc (fold_left Z.lxor l 0).
Proof.
  induction l as [|b l IH]; intros acc; cbn [fold_left].
  - rewrite Z.lxor_0_r. reflexivity.
  - rewrite IH, (IH (Z.lxor 0 b)), Z.lxor_0_l, Z.lxor_assoc. reflexivity.
Qed.

Lemma lxor_cancel_r a b c : Z.lxor a c = Z.lxor b c -> a = b.
Proof.
  intros H.
  assert (E : forall x, Z.lxor (Z.lxor x c) c = x).
  { intros x. rewrite Z.lxor_assoc, Z.lxor_nilpotent. apply Z.lxor_0_r. }
  rewrite <- (E a), <- (E b), H. reflexivity.
Qed.

(** Replacing one element changes the XOR of the list. *)
Lemma fold_lxor_insert l k old new :
  l !! k = Some old -> new <> old ->
  fold_left Z.lxor (<[k := new]> l) 0 <> fold_left Z.lxor l 0.
Proof.
  intros Hk Hne.
  destruct (list_elem_of_split_length l k old Hk) as (a & b & -> & ->).
  replace (length a) with (length a + 0)%nat by lia.
  rewrite insert_app_r. change (<[0%nat := new]> (old :: b)) with (new :: b).
  rewrite !fold_left_app. cbn [fold_left].
  rewrite (fold_lxor_acc b (Z.lxor _ new)), (fold_lxor_acc b (Z.lxor _ old)).
  intros E. apply lxor_cancel_r in E.
  rewrite !(Z.lxor_comm (fold_left Z.lxor a 0)) in E. apply lxor_cancel_r in E.
  contradiction.
Qed.

End Xor.

Lemma get_map_Num (l : list Z) (i : Z) : get (map Num l) i = buf_get l i.
Proof.
  unfold get, buf_get. destruct (i <? 0); [reflexivity|].
  rewrite list_lookup_fmap. destruct (l !! Z.to_nat i); reflexivity.
Qed.

Lemma slice_map {A B} (f : A -> B) (l : list A) (s e : Z) :
  slice (map f l) s e = map f (slice l s e).
Proof. unfold slice. rewrite length_map, <- fmap_drop, <- fmap_take. reflexivity. Qed.

Lemma buf_get_Some (l : list Z) (i v : Z) :
  0 <= i -> l !! Z.to_nat i = Some v -> buf_get l i = Num v.
Proof.
  intros Hi H. unfold buf_get. destruct (Z.ltb_spec i 0); [lia|]. rewrite H. reflexivity.
Qed.

Lemma buf_get_Num (l : list Z) (i v : Z) :
  buf_get l i = Num v -> 0 <= i /\ l !! Z.to_nat i = Some v.
Proof.
  unfold buf_get. destruct (Z.ltb_spec i 0); [discriminate|].
  destruct (l !! Z.to_nat i) as [w|]; [|discriminate]. intros [= ->]. split; [lia | reflexivity].
Qed.

Lemma slice_inner {A} (l : list A) (s e : Z) :
  0 <= s <= e -> e <= Z.of_nat (length l) ->
  slice l s e = take (Z.to_nat (e - s)) (drop (Z.to_nat s) l).
Proof.
  intros H1 H2. unfold slice, clamp_index.
  destruct (Z.ltb_spec s 0); [lia|]. destruct (Z.ltb_spec e 0); [lia|].
  rewrite !Z.min_l by lia. reflexivity.
Qed.

(** The value of [checksumValid] once the length prefix is known. *)
Lemma checksumValid_known (bytes : list Z) (startIdx len : Z) p :
  Strip.parsePayload (map Num bytes) startIdx = Some p ->
  buf_get bytes (startIdx + 17) = Num len ->
  checksumValid p =
    value_eqb (buf_get bytes (startIdx + 22 + len))
              (Num (Strip.xor_reduce
                      (map Num (slice bytes startIdx (startIdx + 22 + len))))).
Proof.
  intros Hp Hlen.
  destruct (parsePayload_fields _ _ _ Hp) as (_ & _ & _ & _ & _ & _ & _ & Hk).
  rewrite Hk. unfold after_viewId. rewrite get_map_Num, Hlen.
  cbn [Strip.idx_add Strip.idx_plus Strip.get_at fmap option_fmap option_map].
  unfold Strip.slice_to, default. cbn [from_option]. unfold Datatypes.id.
  replace (startIdx + 18 + len + 4) with (startIdx + 22 + len) by lia.
  rewrite get_map_Num, slice_map. reflexivity.
Qed.

(** X2: the checksum detects every single-byte error. If a candidate in
    a list of bytes parses with a valid checksum, then overwriting any one
    byte of it other than the view-id length prefix (magic, version, flags,
    route hash, sha, view id, timestamp or the checksum itself) with a
    different byte makes [parsePayload] report an invalid checksum. *)
Theorem single_byte_corruption_is_detected
    (bytes : list Z) (startIdx len i old new : Z) (p : DecodedPayload) :
  Forall is_byte bytes -> 0 <= startIdx ->
  Strip.parsePayload (map Num bytes) startIdx = Some p ->
  checksumValid p = true ->
  bytes !! Z.to_nat (startIdx + 17) = Some len ->
  startIdx <= i <= startIdx + 22 + len -> i <> startIdx + 17 ->
  bytes !! Z.to_nat i = Some old -> is_byte new -> new <> old ->
  exists p',
    Strip.parsePayload (map Num (<[Z.to_nat i := new]> bytes)) startIdx = Some p' /\
    checksumValid p' = false.
Proof.
  intros Hbytes Hs Hp Hvalid Hlen Hi Hne Hold Hnew Hdiff.
  set (bytes' := <[Z.to_nat i := new]> bytes).
  destruct (parsePayload_total (map Num bytes') startIdx) as [p' Hp'].
  exists p'. split; [exact Hp'|].
  assert (Hl : is_byte len).
  { rewrite Forall_forall in Hbytes. apply Hbytes, list_elem_of_lookup. eauto. }
  assert (Hlen' : bytes' !! Z.to_nat (startIdx + 17) = Some len).
  { unfold bytes'. rewrite list_lookup_insert_ne by lia. exact Hlen. }
  rewrite (checksumValid_known bytes startIdx len p Hp) in Hvalid
    by (apply buf_get_Some; [lia | exact Hlen]).
  rewrite (checksumValid_known bytes' startIdx len p' Hp')
    by (apply buf_get_Some; [lia | exact Hlen']).
  set (c := startIdx + 22 + len) in *.
  destruct (buf_get bytes c) as [|ck] eqn:Hck; [discriminate|].
  cbn [value_eqb] in Hvalid. apply Z.eqb_eq in Hvalid.
  apply buf_get_Num in Hck. destruct Hck as [Hc0 Hck].
  assert (Hclen : c < Z.of_nat (length bytes)).
  { apply lookup_lt_Some in Hck. lia. }
  rewrite xor_reduce_Num in *.
  unfold is_byte in Hl.
  rewrite !slice_inner in * by (unfold bytes'; rewrite ?length_insert; lia).
  assert (Hsl : Forall is_byte (take (Z.to_nat (c - startIdx)) (drop (Z.to_nat startIdx) bytes))).
  { apply Forall_take, Forall_drop. exact Hbytes. }
  destruct (Z.eq_dec i c) as [->|Hic].
  - (* the stored checksum itself is overwritten *)
    unfold bytes'. rewrite drop_insert_ge by lia. rewrite take_insert_ge by lia.
    rewrite (buf_get_Some _ c new) by (try lia; apply list_lookup_insert_eq; lia).
    cbn [value_eqb]. apply Z.eqb_neq. rewrite <- Hvalid.
    rewrite Hold in Hck. congruence.
  - (* a covered byte is overwritten *)
    rewrite (buf_get_Some _ c ck) by (try lia; unfold bytes'; rewrite list_lookup_insert_ne by lia; exact Hck).
    cbn [value_eqb]. apply Z.eqb_neq. rewrite Hvalid.
    unfold bytes'. rewrite drop_insert_ge by lia. rewrite take_insert_lt by lia.
    set (sl := take (Z.to_nat (c - startIdx)) (drop (Z.to_nat startIdx) bytes)) in *.
    assert (Hk : sl !! (Z.to_nat i - Z.to_nat startIdx)%nat = Some old).
    { unfold sl. rewrite lookup_take_lt by lia. rewrite lookup_drop.
      replace (Z.to_nat startIdx + (Z.to_nat i - Z.to_nat startIdx))%nat with (Z.to_nat i) by lia.
      exact Hold. }
    assert (Hsl' : Forall is_byte (<[(Z.to_nat i - Z.to_nat startIdx)%nat := new]> sl)).
    { apply Forall_insert; assumption. }
    unfold DevTagStrip.xor_reduce.
    rewrite (proj1 (fold_bxor_bytes _ 0 ltac:(unfold is_byte; lia) Hsl)).
    rewrite (proj1 (fold_bxor_bytes _ 0 ltac:(unfold is_byte; lia) Hsl')).
    intros E. symmetry in E. revert E. apply (fold_lxor_insert sl _ old new); assumption.
Qed.

Lemma single_byte_corruption_is_detected_witness :
  exists p',
    Strip.parsePayload (map Num (<[18%nat := 66]> sample_payload)) 0 = Some p' /\
    checksumValid p' = false.
Proof.
  eapply (single_byte_corruption_is_detected sample_payload 0 1 18 65 66).
  - apply bytes_check. vm_compute. reflexivity.
  - lia.
  - vm_compute. reflexivity.
  - reflexivity.
  - vm_compute. reflexivity.
  - lia.
  - lia.
  - vm_compute. reflexivity.
  - unfold is_byte. lia.
  - lia.
Defined.

(** ** The search for the magic bytes *)

Section FindMagic.

Variable bytes : list value.

Lemma findMagic_loop_spec fuel i :
  0 <= i -> Z.of_nat (length bytes) - 3 - i <= Z.of_nat fuel ->
  let r := Strip.findMagic_loop fuel bytes i in
  (r = -1 /\
   forall j, i <= j <= Z.of_nat (length bytes) - 4 -> Strip.magic_at bytes j = false) \/
  (i <= r <= Z.of_nat (length bytes) - 4 /\ Strip.magic_at bytes r = true /\
   forall j, i <= j < r -> Strip.magic_at bytes j = false).
Proof.
  revert i. induction fuel as [|fuel IH]; intros i Hi Hfuel; cbn [Strip.findMagic_loop].
  - left. split; [reflexivity|]. intros j Hj. lia.
  - destruct (Z.leb_spec i (Z.of_nat (length bytes) - 4)) as [Hle|Hgt].
    + destruct (Strip.magic_at bytes i) eqn:E.
      * right. split; [lia|]. split; [exact E|]. intros j Hj. lia.
      * destruct (IH (i + 1) ltac:(lia) ltac:(lia)) as [[Hr Hno]|(Hr & Hm & Hno)].
        -- left. split; [exact Hr|]. intros j Hj.
           destruct (Z.eq_dec j i) as [->|Hne]; [exact E | apply Hno; lia].
        -- right. split; [lia|]. split; [exact Hm|]. intros j Hj.
           destruct (Z.eq_dec j i) as [->|Hne]; [exact E | apply Hno; lia].
    + left. split; [reflexivity|]. intros j Hj. lia.
Qed.

End FindMagic.

Lemma findMagic_cases (bytes : list value) :
  let r := Strip.findMagic bytes in
  (r = -1 /\
   forall j, 0 <= j <= Z.of_nat (length bytes) - 4 -> Strip.magic_at bytes j = false) \/
  (0 <= r <= Z.of_nat (length bytes) - 4 /\ Strip.magic_at bytes r = true /\
   forall j, 0 <= j < r -> Strip.magic_at bytes j = false).
Proof. unfold Strip.findMagic. apply findMagic_loop_spec; lia. Qed.

(** X3: [findMagic] returns the first offset at which the four magic bytes
    stand. Either it returns -1 and the magic stands at no offset up to
    length - 4, or it returns an offset in that range at which the magic
    stands and before which it stands nowhere. *)
Theorem findMagic_first_occurrence (bytes : list value) :
  (Strip.findMagic bytes = -1 /\
   forall j, 0 <= j <= Z.of_nat (length bytes) - 4 -> Strip.magic_at bytes j = false) \/
  (0 <= Strip.findMagic bytes <= Z.of_nat (length bytes) - 4 /\
   Strip.magic_at bytes (Strip.findMagic bytes) = true /\
   forall j, 0 <= j < Strip.findMagic bytes -> Strip.magic_at bytes j = false).
Proof. exact (findMagic_cases bytes). Qed.

(** ** Rows too short for a payload *)

Lemma length_concat_chunks {A B} (f : A -> list B) (k : nat) (l : list A) :
  (forall x, length (f x) = k) -> length (concat (map f l)) = (k * length l)%nat.
Proof.
  intros Hf. induction l as [|x l IH]; cbn [map concat length]; [lia|].
  rewrite length_app, Hf, IH. lia.
Qed.

Lemma length_extractBytesFromRow data width row :
  length (Strip.extractBytesFromRow data width row) = (3 * Z.to_nat width)%nat.
Proof.
  unfold Strip.extractBytesFromRow.
  rewrite (length_concat_chunks _ 3) by reflexivity. rewrite length_seqZ. reflexivity.
Qed.

Lemma buf_get_byte data i : Forall is_byte data -> byte_or_undefined (buf_get data i).
Proof.
  intros H. unfold buf_get. destruct (i <? 0); [exact I|].
  destruct (data !! Z.to_nat i) as [b|] eqn:E; [|exact I].
  cbn. rewrite Forall_forall in H. apply H, list_elem_of_lookup. eauto.
Qed.

Lemma extractBytesFromRow_bytes data width row :
  Forall is_byte data -> Forall byte_or_undefined (Strip.extractBytesFromRow data width row).
Proof.
  intros H. unfold Strip.extractBytesFromRow.
  apply Forall_concat, Forall_map, Forall_forall. intros x _.
  repeat constructor; apply buf_get_byte; exact H.
Qed.

Lemma get_byte bytes i : Forall byte_or_undefined bytes -> byte_or_undefined (get bytes i).
Proof.
  intros H. unfold get. destruct (i <? 0); [exact I|].
  destruct (bytes !! Z.to_nat i) as [v|] eqn:E; [|exact I].
  rewrite Forall_forall in H. apply H, list_elem_of_lookup. eauto.
Qed.

(** A candidate whose checksum position lies beyond the bytes is rejected. *)
Lemma short_candidate_rejected bytes m :
  Forall byte_or_undefined bytes ->
  Z.of_nat (length bytes) <= m + 22 ->
  exists p, Strip.parsePayload bytes m = Some p /\ checksumValid p = false.
Proof.
  intros Hb Hlen.
  destruct (parsePayload_total bytes m) as [p Hp]. exists p. split; [exact Hp|].
  destruct (parsePayload_fields _ _ _ Hp) as (_ & _ & _ & _ & _ & _ & _ & Hk).
  rewrite Hk. unfold after_viewId.
  pose proof (get_byte bytes (m + 17) Hb) as Hn.
  destruct (get bytes (m + 17)) as [|n]; [reflexivity|].
  cbn in Hn. unfold is_byte in Hn.
  cbn [Strip.idx_add Strip.idx_plus Strip.get_at fmap option_fmap option_map].
  rewrite get_beyond by lia. reflexivity.
Qed.

Lemma try_row_short png row :
  Forall is_byte (png_data png) -> png_width png < 8 -> Strip.try_row png row = None.
Proof.
  intros Hb Hw. unfold Strip.try_row.
  set (bytes := Strip.extractBytesFromRow (png_data png) (png_width png) row).
  destruct (findMagic_cases bytes) as [[Hr _]|(Hr & _ & _)].
  - rewrite Hr. reflexivity.
  - destruct (short_candidate_rejected bytes (Strip.findMagic bytes)) as (p & Hp & Hv).
    + apply extractBytesFromRow_bytes. exact Hb.
    + pose proof (length_extractBytesFromRow (png_data png) (png_width png) row) as HL.
      fold bytes in HL. lia.
    + rewrite Hp, Hv. destruct (negb _); reflexivity.
Qed.

(** X4: an image of bytes that is less than 8 pixels wide never decodes:
    a row of fewer than 24 bytes cannot hold the 23 bytes of the smallest
    payload after a magic offset with the checksum inside the row, so
    [decodeFromPNG] of decode-devtag.ts returns null. *)
Theorem decodeFromPNG_needs_8_pixels (png : PNG) :
  Forall is_byte (png_data png) -> png_width png < 8 -> Strip.decodeFromPNG png = None.
Proof.
  intros Hb Hw. unfold Strip.decodeFromPNG.
  assert (H1 : first_return (Strip.bottom_body png) (Strip.bottom_rows (png_height png)) = None).
  { apply first_return_None, Forall_forall. intros r _.
    apply strip_bodies_fail, try_row_short; assumption. }
  rewrite H1. apply first_return_None, Forall_forall. intros r _.
  apply strip_bodies_fail, try_row_short; assumption.
Qed.

Lemma decodeFromPNG_needs_8_pixels_witness :
  Strip.decodeFromPNG (DevTagStrip.renderToCanvas sample_payload 7) = None.
Proof.
  apply (decodeFromPNG_needs_8_pixels (DevTagStrip.renderToCanvas sample_payload 7)).
  - apply bytes_check. vm_compute. reflexivity.
  - cbn. lia.
Defined.

Lemma first_return_ext {A} (f g : Z -> option A) rows :
  (forall r, r ∈ rows -> f r = g r) -> first_return f rows = first_return g rows.
Proof.
  induction rows as [|r rows IH]; intros H; cbn [first_return]; [reflexivity|].
  rewrite (H r) by left. destruct (g r); [reflexivity|].
  apply IH. intros r' Hr'. apply H. right. exact Hr'.
Qed.

Lemma try_row_same png1 png2 row :
  same_strip_rows png1 png2 -> edge_row (png_height png1) row ->
  Strip.try_row png1 row = Strip.try_row png2 row.
Proof.
  intros (Hw & Hh & Hsame) He. unfold Strip.try_row.
  assert (E : Strip.extractBytesFromRow (png_data png1) (png_width png1) row
              = Strip.extractBytesFromRow (png_data png2) (png_width png2) row).
  { rewrite <- Hw. unfold Strip.extractBytesFromRow. f_equal. apply map_ext_in.
    intros x Hx. apply list_elem_of_In, elem_of_seqZ in Hx.
    pose proof (Hsame row x 0 He ltac:(lia) ltac:(lia)) as E0.
    pose proof (Hsame row x 1 He ltac:(lia) ltac:(lia)) as E1.
    pose proof (Hsame row x 2 He ltac:(lia) ltac:(lia)) as E2.
    rewrite Z.add_0_r in E0. rewrite <- !Z.add_assoc.
    rewrite <- !Z.add_assoc in E1, E2. rewrite E0, E1, E2. reflexivity. }
  rewrite E. reflexivity.
Qed.

(** X5: [decodeFromPNG] of decode-devtag.ts depends only on the size of
    the image and on the red, green and blue channels of its first eight
    and last eight rows: two images that agree there decode to the same
    result, whatever their other rows and their alpha channels hold. *)
Theorem decodeFromPNG_reads_edge_rows_only (png1 png2 : PNG) :
  same_strip_rows png1 png2 -> Strip.decodeFromPNG png1 = Strip.decodeFromPNG png2.
Proof.
  intros Hsame. pose proof Hsame as (Hw & Hh & _). unfold Strip.decodeFromPNG.
  rewrite <- Hh.
  rewrite (first_return_ext (Strip.bottom_body png1) (Strip.bottom_body png2)).
  2:{ intros r Hr. unfold Strip.bottom_rows, Strip.STRIP_SEARCH_ROWS in Hr.
      apply elem_of_seqZ in Hr. unfold Strip.bottom_body.
      destruct (Z.ltb_spec r 0); [reflexivity|].
      apply try_row_same; [exact Hsame|]. unfold edge_row. lia. }
  rewrite (first_return_ext (Strip.top_body png1) (Strip.top_body png2)); [reflexivity|].
  intros r Hr. unfold Strip.top_rows, Strip.STRIP_SEARCH_ROWS in Hr.
  apply elem_of_seqZ in Hr. unfold Strip.top_body. rewrite <- Hh.
  destruct (Z.geb_spec r (png_height png1)); [reflexivity|].
  apply try_row_same; [exact Hsame|]. unfold edge_row. lia.
Qed.

Lemma middle_row_images_agree (v w : Z) :
  same_strip_rows (middle_row_image v) (middle_row_image w).
Proof.
  split; [reflexivity|]. split; [reflexivity|].
  intros row x c [Hrow Hedge] Hx Hc. cbn [png_height png_width png_data middle_row_image] in *.
  unfold buf_get. destruct (_ <? 0); [reflexivity|].
  rewrite !list_lookup_insert_ne by lia. reflexivity.
Qed.

Lemma decodeFromPNG_reads_edge_rows_only_witness :
  Strip.decodeFromPNG (middle_row_image 255) = Strip.decodeFromPNG (middle_row_image 0).
Proof.
  apply (decodeFromPNG_reads_edge_rows_only (middle_row_image 255) (middle_row_image 0)).
  apply middle_row_images_agree.
Defined.

(** ** The strip drawn by [renderToCanvas], read back by [extractBytesFromRow] *)

Lemma lookup_concat_chunks {A} (ls : list (list A)) (k i c : nat) :
  Forall (fun l => length l = k) ls -> (c < k)%nat ->
  concat ls !! (i * k + c)%nat = ls !! i ≫= (fun l => l !! c).
Proof.
  intros Hls Hc. revert i. induction Hls as [|l ls Hl _ IH]; intros i.
  - destruct i; reflexivity.
  - cbn [concat]. destruct i as [|i].
    + cbn. rewrite lookup_app_l by lia. reflexivity.
    + rewrite lookup_app_r by (rewrite Hl; lia).
      replace (S i * k + c - length l)%nat with (i * k + c)%nat by (rewrite Hl; lia).
      apply IH.
Qed.

Lemma lookup_concat_map_seqZ {A} (f : Z -> list A) (k : nat) (n x : Z) (c : nat) :
  (forall j, length (f j) = k) -> 0 <= x < n -> (c < k)%nat ->
  concat (map f (seqZ 0 n)) !! (Z.to_nat x * k + c)%nat = f x !! c.
Proof.
  intros Hf Hx Hc. rewrite lookup_concat_chunks.
  - rewrite lookup_map_seqZ by lia. reflexivity.
  - apply Forall_map, Forall_forall. intros j _. apply Hf.
  - exact Hc.
Qed.

Section Render.

Import DevTagStrip.

Variable payload : list Z.
Variable width : Z.

Lemma renderToCanvas_get row x c :
  0 <= row < 4 -> 0 <= x < width -> 0 <= c < 4 ->
  buf_get (png_data (renderToCanvas payload width)) (row * width * 4 + x * 4 + c)
  = match strip_pixel payload x !! Z.to_nat c with Some v => Num v | None => Undefined end.
Proof.
  intros Hrow Hx Hc. unfold buf_get.
  destruct (Z.ltb_spec (row * width * 4 + x * 4 + c) 0); [nia|].
  unfold renderToCanvas. cbn [png_data].
  replace (Z.to_nat (row * width * 4 + x * 4 + c))
    with (Z.to_nat row * (4 * Z.to_nat width) + (Z.to_nat x * 4 + Z.to_nat c))%nat by nia.
  rewrite (lookup_concat_map_seqZ _ (4 * Z.to_nat width)); [| |unfold STRIP_HEIGHT; lia|nia].
  2:{ intros j. rewrite (length_concat_chunks _ 4) by reflexivity.
      rewrite length_seqZ. reflexivity. }
  rewrite (lookup_concat_map_seqZ _ 4) by (reflexivity || lia).
  reflexivity.
Qed.

Hypothesis Hbytes : Forall is_byte payload.

Lemma padded_at_payload k v :
  payload !! k = Some v -> clamp8 (padded_at (padded_payload payload) (Z.of_nat k)) = v.
Proof.
  intros Hk. unfold padded_at. destruct (Z.ltb_spec (Z.of_nat k) 0); [lia|].
  rewrite Nat2Z.id. unfold padded_payload.
  rewrite lookup_app_l by (eapply lookup_lt_Some; eauto). rewrite Hk. cbn.
  assert (Hv : is_byte v).
  { rewrite Forall_forall in Hbytes. apply Hbytes, list_elem_of_lookup. eauto. }
  unfold clamp8, is_byte in *. lia.
Qed.

(** Byte [j] of the payload, read from its [k]-th repetition in a row. *)
Lemma strip_row_lookup row k j v :
  0 <= row < 4 -> 0 <= k -> (k + 1) * (pixels_needed payload) <= width ->
  payload !! j = Some v ->
  Strip.extractBytesFromRow (png_data (renderToCanvas payload width)) width row
    !! (Z.to_nat (3 * (pixels_needed payload) * k) + j)%nat
  = Some (Num v).
Proof.
  intros Hrow Hk Hfits Hj.
  assert (Hlt : (j < length payload)%nat) by (eapply lookup_lt_Some; eauto).
  set (q := Z.of_nat j / 3). set (c := Z.of_nat j mod 3).
  assert (Hj3 : Z.of_nat j = 3 * q + c) by (unfold q, c; apply Z.div_mod; lia).
  assert (Hc : 0 <= c < 3) by (unfold c; apply Z.mod_pos_bound; lia).
  assert (Hq : 0 <= q < (pixels_needed payload)).
  { unfold q, pixels_needed. split; [apply Z.div_pos; lia|].
    apply Z.div_lt_upper_bound; [lia|].
    pose proof (Z.mod_pos_bound (Z.of_nat (length payload) + 2) 3 ltac:(lia)).
    pose proof (Z.div_mod (Z.of_nat (length payload) + 2) 3 ltac:(lia)). lia. }
  set (x := k * (pixels_needed payload) + q).
  assert (Hx : 0 <= x < width) by (unfold x; nia).
  assert (Hrem : Z.rem x (pixels_needed payload) = q).
  { rewrite Z.rem_mod_nonneg by lia. unfold x.
    rewrite Z.add_comm, Z_mod_plus_full. apply Z.mod_small. exact Hq. }
  unfold Strip.extractBytesFromRow.
  replace (Z.to_nat (3 * (pixels_needed payload) * k) + j)%nat
    with (Z.to_nat x * 3 + Z.to_nat c)%nat by (unfold x; nia).
  rewrite (lookup_concat_map_seqZ _ 3) by (reflexivity || lia).
  assert (G : forall d, 0 <= d < 3 ->
            buf_get (png_data (renderToCanvas payload width)) (row * width * 4 + x * 4 + d)
            = Num (clamp8 (padded_at (padded_payload payload) (q * 3 + d)))).
  { intros d Hd. rewrite renderToCanvas_get by lia. unfold strip_pixel. rewrite Hrem.
    assert (Hd' : d = 0 \/ d = 1 \/ d = 2) by lia.
    destruct Hd' as [->|[->| ->]]; cbn; rewrite ?Z.add_0_r; reflexivity. }
  pose proof (G 0 ltac:(lia)) as G0. pose proof (G 1 ltac:(lia)) as G1.
  pose proof (G 2 ltac:(lia)) as G2. rewrite Z.add_0_r in G0.
  rewrite G0, G1, G2.
  assert (Hv : clamp8 (padded_at (padded_payload payload) (q * 3 + c)) = v).
  { replace (q * 3 + c) with (Z.of_nat j) by lia. apply padded_at_payload. exact Hj. }
  assert (Hc' : c = 0 \/ c = 1 \/ c = 2) by lia.
  destruct Hc' as [E|[E|E]]; rewrite E in *; cbn; rewrite <- Hv, ?Z.add_0_r; reflexivity.
Qed.

Lemma strip_row_prefix row :
  (pixels_needed payload) <= width -> 0 <= row < 4 ->
  exists rest,
    Strip.extractBytesFromRow (png_data (renderToCanvas payload width)) width row
    = map Num payload ++ rest.
Proof.
  intros Hfits Hrow.
  set (bytes := Strip.extractBytesFromRow (png_data (renderToCanvas payload width)) width row).
  exists (drop (length payload) bytes).
  rewrite <- (take_drop (length payload) bytes) at 1. f_equal.
  apply list_eq. intros k.
  destruct (payload !! k) as [v|] eqn:E.
  - rewrite lookup_take_lt by (eapply lookup_lt_Some; eauto).
    pose proof (strip_row_lookup row 0 k v Hrow ltac:(lia) ltac:(lia) E) as H.
    rewrite Z.mul_0_r in H. change (Z.to_nat 0 + k)%nat with k in H.
    fold bytes in H. rewrite H.
    rewrite list_lookup_fmap, E. reflexivity.
  - apply lookup_ge_None in E.
    rewrite lookup_take_ge by lia.
    rewrite list_lookup_fmap. symmetry.
    rewrite (proj2 (lookup_ge_None payload k)) by lia. reflexivity.
Qed.

End Render.

(** X6: every one of the four rows drawn by [renderToCanvas] carries the
    payload once for each full repetition that fits the width: byte [j] of
    a payload of bytes is read back by [extractBytesFromRow] at offset
    [3 * pixelsNeeded * k + j] of the row, for every repetition [k] that
    ends within the width. *)
Theorem strip_row_carries_payload
    (payload : list Z) (width row k : Z) (j : nat) (v : Z) :
  Forall is_byte payload ->
  0 <= row < 4 -> 0 <= k ->
  (k + 1) * pixels_needed payload <= width ->
  payload !! j = Some v ->
  Strip.extractBytesFromRow (png_data (DevTagStrip.renderToCanvas payload width)) width row
    !! (Z.to_nat (3 * pixels_needed payload * k) + j)%nat
  = Some (Num v).
Proof.
  intros Hbytes Hrow Hk Hfits Hj.
  exact (strip_row_lookup payload width Hbytes row k j v Hrow Hk Hfits Hj).
Qed.

Lemma strip_row_carries_payload_witness :
  Strip.extractBytesFromRow (png_data (DevTagStrip.renderToCanvas sample_payload 16)) 16 2
    !! 42%nat
  = Some (Num 65).
Proof.
  apply (strip_row_carries_payload sample_payload 16 2 1 18 65).
  - apply bytes_check. vm_compute. reflexivity.
  - lia.
  - lia.
  - vm_compute. discriminate.
  - vm_compute. reflexivity.
Defined.

(** ** From the encoder's fields to the decoder's record, through the strip *)

Lemma findMagic_at_0 (bytes : list value) :
  Strip.magic_at bytes 0 = true -> 4 <= Z.of_nat (length bytes) -> Strip.findMagic bytes = 0.
Proof.
  intros Hm Hlen. destruct (findMagic_cases bytes) as [[_ Hno]|(Hr & _ & Hno)].
  - rewrite Hno in Hm by lia. discriminate.
  - destruct (Z.eq_dec (Strip.findMagic bytes) 0) as [E|Hne]; [exact E|].
    rewrite Hno in Hm by lia. discriminate.
Qed.

Lemma buildPayload_magic now props :
  exists tail, DevTagStrip.buildPayload now props = 0x44 :: 0x54 :: 0x41 :: 0x47 :: tail.
Proof.
  unfold DevTagStrip.buildPayload, DevTagStrip.MAGIC. cbn [app]. eexists. reflexivity.
Qed.

Lemma buildPayload_bytes now props :
  valid_fields now props -> Forall is_byte (DevTagStrip.buildPayload now props).
Proof.
  intros [Hwf Hlen Hsha Hshalen Hflags Hts].
  unfold DevTagStrip.buildPayload.
  fold (flags_of props) (sha_of props) (timestamp_of now props).
  destruct (padded_sha (sha_of props) Hsha) as (Hpl & Hpa & _).
  destruct (be32_spec (DevTagStrip.simpleHash (DevTagStrip.route props)))
    as (h0 & h1 & h2 & h3 & Hh & Hh0 & Hh1 & Hh2 & Hh3 & _).
  destruct (be32_spec (timestamp_of now props))
    as (t0 & t1 & t2 & t3 & Ht & Ht0 & Ht1 & Ht2 & Ht3 & _).
  rewrite Hh, Ht.
  match goal with |- Forall _ (?b ++ [_]) => assert (Hbody : Forall is_byte b) end.
  { unfold DevTagStrip.stringToBytes in *. rewrite !Forall_app.
    assert (Hv : is_byte (Z.of_nat (length (TextEncoder_encode (DevTagStrip.viewId props)))))
      by (unfold is_byte; lia).
    split; [split; [split; [split; [split; [split; [split|]|]|]|]|]|].
    - unfold DevTagStrip.MAGIC, is_byte. repeat (apply List.Forall_cons; [lia|]). apply List.Forall_nil.
    - apply List.Forall_cons; [unfold is_byte, DevTagStrip.VERSION; lia | apply List.Forall_nil].
    - apply List.Forall_cons; [exact Hflags | apply List.Forall_nil].
    - repeat (apply List.Forall_cons; [assumption|]). apply List.Forall_nil.
    - apply TextEncoder_bytes, ascii_well_formed, Hpa.
    - apply List.Forall_cons; [exact Hv | apply List.Forall_nil].
    - apply TextEncoder_bytes, Hwf.
    - repeat (apply List.Forall_cons; [assumption|]). apply List.Forall_nil. }
  apply Forall_app. split; [exact Hbody|]. apply List.Forall_cons; [|apply List.Forall_nil].
  unfold DevTagStrip.xor_reduce.
  destruct (fold_bxor_bytes _ 0 ltac:(unfold is_byte; lia) Hbody) as [-> Hx]. exact Hx.
Qed.

(** X7: the pixel strip round trip. For valid fields whose view id does
    not begin with a byte order mark, and a strip wide enough for one copy
    of the payload, [decodeFromPNG] of decode-devtag.ts applied to the
    image drawn by [renderToCanvas] from [buildPayload] returns a record
    with the encoded version, flags, view id and timestamp, the sha
    without its trailing '0' characters, and a valid checksum. *)
Theorem strip_end_to_end (now : Z) (props : DevTagStrip.DevTagPayload) (width : Z) :
  valid_fields now props ->
  no_bom (DevTagStrip.viewId props) ->
  (Z.of_nat (length (DevTagStrip.buildPayload now props)) + 2) / 3 <= width ->
  exists p,
    Strip.decodeFromPNG
      (DevTagStrip.renderToCanvas (DevTagStrip.buildPayload now props) width) = Some p /\
    version p = Num DevTagStrip.VERSION /\
    flags p = Num (flags_of props) /\
    sha p = strip_trailing 48 (sha_of props) /\
    viewId p = DevTagStrip.viewId props /\
    timestamp p = timestamp_of now props /\
    checksumValid p = true.
Proof.
  intros Hvalid Hbom Hfits.
  set (payload := DevTagStrip.buildPayload now props) in *.
  set (png := DevTagStrip.renderToCanvas payload width).
  destruct (strip_row_prefix payload width (buildPayload_bytes now props Hvalid) 0 Hfits
              ltac:(lia)) as [rest Hrow].
  pose proof (parsePayload_buildPayload now props [] rest Hvalid) as Hparse.
  cbn [app length] in Hparse. fold payload in Hparse. change (Z.of_nat 0) with 0 in Hparse.
  assert (Hfind : Strip.findMagic (map Num payload ++ rest) = 0).
  { destruct (buildPayload_magic now props) as [tail Ht]. fold payload in Ht. rewrite Ht.
    apply findMagic_at_0; [reflexivity|].
    cbn [map app length]. lia. }
  assert (Htry : Strip.try_row png 0 = Strip.parsePayload (map Num payload ++ rest) 0).
  { unfold Strip.try_row.
    change (png_width png) with width. fold png in Hrow. rewrite Hrow, Hfind, Hparse.
    reflexivity. }
  eexists. split.
  - unfold Strip.decodeFromPNG.
    change (Strip.bottom_rows (png_height png)) with [-4; -3; -2; -1; 0; 1; 2; 3].
    cbn [first_return].
    change (Strip.bottom_body png (-4)) with (@None DecodedPayload).
    change (Strip.bottom_body png (-3)) with (@None DecodedPayload).
    change (Strip.bottom_body png (-2)) with (@None DecodedPayload).
    change (Strip.bottom_body png (-1)) with (@None DecodedPayload).
    change (Strip.bottom_body png 0) with (Strip.try_row png 0).
    rewrite Htry, Hparse. reflexivity.
  - cbn [version flags sha viewId timestamp checksumValid]. repeat split.
    apply TextDecoder_TextEncoder; [apply Hvalid | exact Hbom].
Qed.

Lemma strip_end_to_end_witness :
  exists p,
    Strip.decodeFromPNG
      (DevTagStrip.renderToCanvas
         (DevTagStrip.buildPayload 0 (billing_props "abc1234" "/settings/billing")) 11)
    = Some p /\
    version p = Num DevTagStrip.VERSION /\
    flags p = Num (flags_of (billing_props "abc1234" "/settings/billing")) /\
    sha p = strip_trailing 48 (sha_of (billing_props "abc1234" "/settings/billing")) /\
    viewId p = DevTagStrip.viewId (billing_props "abc1234" "/settings/billing") /\
    timestamp p = timestamp_of 0 (billing_props "abc1234" "/settings/billing") /\
    checksumValid p = true.
Proof.
  apply (strip_end_to_end 0 (billing_props "abc1234" "/settings/billing") 11).
  - apply billing_props_valid; [vm_compute; lia | apply ascii_check; reflexivity].
  - cbn. lia.
  - vm_compute. discriminate.
Defined.

(** ** The bits read by [extractBitsFromRow] *)

Lemma extractBits_loop_spec data width row numBits fuel : forall x bits,
  0 <= x -> Z.of_nat (length bits) = x -> width - x <= Z.of_nat fuel ->
  Shadow.extractBits_loop fuel data width row numBits x bits
  = bits ++ map (alpha_bit data width row) (seqZ x (Z.min width numBits - x)).
Proof.
  induction fuel as [|fuel IH]; intros x bits Hx Hlen Hfuel; cbn [Shadow.extractBits_loop].
  - rewrite seqZ_nil by lia. cbn. rewrite app_nil_r. reflexivity.
  - rewrite Hlen.
    destruct (Z.ltb_spec x width); destruct (Z.ltb_spec x numBits); cbn [andb];
      try (rewrite seqZ_nil by lia; cbn; rewrite app_nil_r; reflexivity).
    rewrite IH; [| lia | rewrite length_app; cbn [length]; lia | lia ].
    rewrite (seqZ_cons x) by lia.
    replace (Z.succ x) with (x + 1) by lia.
    replace (Z.pred (Z.min width numBits - x)) with (Z.min width numBits - (x + 1)) by lia.
    cbn [map]. rewrite <- app_assoc. reflexivity.
Qed.

Lemma extractBitsFromRow_spec data width row numBits :
  Shadow.extractBitsFromRow data width row numBits
  = map (alpha_bit data width row) (seqZ 0 (Z.min width numBits)).
Proof.
  unfold Shadow.extractBitsFromRow.
  rewrite extractBits_loop_spec by (cbn [length]; lia).
  rewrite Z.sub_0_r. reflexivity.
Qed.

Lemma band_1 a : band a 1 = a mod 2.
Proof.
  unfold band. rewrite (to_int32_small 1) by lia.
  change 1 with (Z.ones 1) at 1. rewrite Z.land_ones by lia. change (2 ^ 1) with 2.
  unfold to_int32. Z.div_mod_to_equations. lia.
Qed.

Lemma alpha_bit_is_bit data width row x : is_bit (alpha_bit data width row x).
Proof.
  unfold alpha_bit, is_bit. rewrite band_1.
  pose proof (Z.mod_pos_bound (int32_of (buf_get data ((row * width + x) * 4 + 3))) 2).
  lia.
Qed.

Lemma extractBitsFromRow_length_and_range_aux (data : list Z) (width row numBits : Z) :
  length (Shadow.extractBitsFromRow data width row numBits)
  = Z.to_nat (Z.min width numBits) /\
  Forall is_bit (Shadow.extractBitsFromRow data width row numBits).
Proof.
  rewrite extractBitsFromRow_spec. split.
  - rewrite length_map, length_seqZ. reflexivity.
  - apply Forall_map, Forall_forall. intros x _. apply alpha_bit_is_bit.
Qed.

(** X8: [extractBitsFromRow] returns min(width, numBits) values, each of
    them 0 or 1, whatever the buffer holds; a pixel whose alpha channel
    lies beyond the end of the buffer reads as bit 0. *)
Theorem extractBitsFromRow_length_and_range (data : list Z) (width row numBits : Z) :
  length (Shadow.extractBitsFromRow data width row numBits)
  = Z.to_nat (Z.min width numBits) /\
  Forall is_bit (Shadow.extractBitsFromRow data width row numBits) /\
  (forall x, 0 <= x < Z.min width numBits ->
     Z.of_nat (length data) <= (row * width + x) * 4 + 3 ->
     Shadow.extractBitsFromRow data width row numBits !! Z.to_nat x = Some 0).
Proof.
  rewrite extractBitsFromRow_spec. split; [|split].
  - rewrite length_map, length_seqZ. reflexivity.
  - apply Forall_map, Forall_forall. intros x _. apply alpha_bit_is_bit.
  - intros x Hx Hout. rewrite lookup_map_seqZ by lia. f_equal.
    unfold alpha_bit, buf_get.
    destruct (_ <? 0); [reflexivity|].
    rewrite (proj2 (lookup_ge_None _ _)) by lia. reflexivity.
Qed.

(** ** Bits to bytes *)

Section Bits.

Lemma byte_of_bits_of_byte v :
  is_byte v ->
  Shadow.byte_of_bits (map (fun i => band (sar v i) 1) [7; 6; 5; 4; 3; 2; 1; 0]) = v.
Proof.
  intros Hv.
  pose proof (byte_forall
    (fun v => Shadow.byte_of_bits (map (fun i => band (sar v i) 1) [7; 6; 5; 4; 3; 2; 1; 0])
              =? v)
    ltac:(vm_compute; reflexivity) v Hv) as H.
  apply Z.eqb_eq in H. exact H.
Qed.

Lemma bitsToBytes_payload payload rest :
  Forall is_byte payload ->
  Shadow.bitsToBytes (DevTagScope.bits_of_payload payload ++ rest)
  = payload ++ Shadow.bitsToBytes rest.
Proof.
  induction 1 as [|v payload Hv _ IH]; [reflexivity|].
  change (DevTagScope.bits_of_payload (v :: payload))
    with (map (fun i => band (sar v i) 1) [7; 6; 5; 4; 3; 2; 1; 0]
            ++ DevTagScope.bits_of_payload payload).
  rewrite <- app_assoc.
  cbn [map app Shadow.bitsToBytes]. rewrite IH. f_equal.
  exact (byte_of_bits_of_byte v Hv).
Qed.

Lemma shl_1_bit a b : 0 <= a < 128 -> is_bit b -> bor (shl a 1) b = 2 * a + b.
Proof.
  intros Ha Hb. rewrite shl_byte by (unfold is_byte; lia).
  unfold bor. rewrite !to_int32_small by (destruct Hb; lia).
  rewrite lor_mul_pow2_low by (destruct Hb; lia). lia.
Qed.

Lemma byte_of_bits_byte b0 b1 b2 b3 b4 b5 b6 b7 :
  is_bit b0 -> is_bit b1 -> is_bit b2 -> is_bit b3 ->
  is_bit b4 -> is_bit b5 -> is_bit b6 -> is_bit b7 ->
  is_byte (Shadow.byte_of_bits [b0; b1; b2; b3; b4; b5; b6; b7]).
Proof.
  intros H0 H1 H2 H3 H4 H5 H6 H7. unfold Shadow.byte_of_bits. cbn [fold_left].
  unfold is_bit in *.
  rewrite (shl_1_bit 0 b0) by (unfold is_bit; lia).
  rewrite (shl_1_bit _ b1) by (unfold is_bit; lia).
  rewrite (shl_1_bit _ b2) by (unfold is_bit; lia).
  rewrite (shl_1_bit _ b3) by (unfold is_bit; lia).
  rewrite (shl_1_bit _ b4) by (unfold is_bit; lia).
  rewrite (shl_1_bit _ b5) by (unfold is_bit; lia).
  rewrite (shl_1_bit _ b6) by (unfold is_bit; lia).
  rewrite (shl_1_bit _ b7) by (unfold is_bit; lia).
  unfold is_byte. lia.
Qed.

Lemma bitsToBytes_bound n : forall bits,
  Forall is_bit bits -> (length bits < 8 * (n + 1))%nat ->
  (length (Shadow.bitsToBytes bits) <= n)%nat /\ Forall is_byte (Shadow.bitsToBytes bits).
Proof.
  induction n as [|n IH]; intros bits Hb Hlen.
  - do 8 (destruct bits as [|? bits]; [split; [cbn; lia | constructor]|]).
    cbn [length] in Hlen. lia.
  - do 8 (destruct bits as [|? bits]; [split; [cbn; lia | constructor]|]).
    cbn [Shadow.bitsToBytes length].
    repeat match goal with H : Forall _ (_ :: _) |- _ => inversion H; subst; clear H end.
    destruct (IH bits) as [IH1 IH2]; [assumption | cbn [length] in Hlen; lia |].
    split; [lia|]. constructor; [|exact IH2]. apply byte_of_bits_byte; assumption.
Qed.

End Bits.

(** X9: [bitsToBytes] of decode-shadow.ts inverts the bit expansion of
    [renderShadowWithHierarchy] (most significant bit first): the bits of
    a list of bytes are packed back into that list. *)
Theorem bitsToBytes_inverts_bits_of_payload (payload : list Z) :
  Forall is_byte payload ->
  Shadow.bitsToBytes (DevTagScope.bits_of_payload payload) = payload.
Proof.
  intros H. rewrite <- (app_nil_r (DevTagScope.bits_of_payload payload)).
  rewrite bitsToBytes_payload by exact H. cbn. apply app_nil_r.
Qed.

Lemma bitsToBytes_inverts_bits_of_payload_witness :
  Shadow.bitsToBytes (DevTagScope.bits_of_payload sample_payload) = sample_payload.
Proof.
  apply (bitsToBytes_inverts_bits_of_payload sample_payload).
  apply bytes_check. vm_compute. reflexivity.
Defined.

(** ** [decode-shadow.ts] on the wire format of [buildPayload] *)

Lemma shadow_parse_is_strip_parse bytes :
  Shadow.hasMagic bytes = true -> Shadow.parsePayload bytes = Strip.parsePayload bytes 0.
Proof. intros H. unfold Shadow.parsePayload. rewrite H. reflexivity. Qed.

Lemma hasMagic_cons4 rest :
  Shadow.hasMagic (Num 0x44 :: Num 0x54 :: Num 0x41 :: Num 0x47 :: rest) = true.
Proof.
  unfold Shadow.hasMagic. cbn [length].
  destruct (Z.geb_spec (Z.of_nat (S (S (S (S (length rest)))))) 4); [reflexivity | lia].
Qed.

Lemma shadow_parse_buildPayload now props rest :
  valid_fields now props ->
  Shadow.parsePayload (map Num (DevTagStrip.buildPayload now props) ++ rest)
  = Strip.parsePayload (map Num (DevTagStrip.buildPayload now props) ++ rest) 0.
Proof.
  intros Hvalid. apply shadow_parse_is_strip_parse.
  destruct (buildPayload_magic now props) as [tail ->]. apply hasMagic_cons4.
Qed.

Lemma shadow_parsePayload_roundtrip_aux
    (now : Z) (props : DevTagStrip.DevTagPayload) (rest : list value) :
  valid_fields now props ->
  no_bom (DevTagStrip.viewId props) ->
  exists p,
    Shadow.parsePayload (map Num (DevTagStrip.buildPayload now props) ++ rest) = Some p /\
    version p = Num DevTagStrip.VERSION /\
    flags p = Num (flags_of props) /\
    sha p = strip_trailing 48 (sha_of props) /\
    viewId p = DevTagStrip.viewId props /\
    timestamp p = timestamp_of now props /\
    checksumValid p = true.
Proof.
  intros Hvalid Hbom. rewrite shadow_parse_buildPayload by exact Hvalid.
  eexists. split; [exact (parsePayload_buildPayload now props [] rest Hvalid)|].
  cbn [version flags sha viewId timestamp checksumValid]. repeat split.
  apply TextDecoder_TextEncoder; [apply Hvalid | exact Hbom].
Qed.

(** X10: [parsePayload] of decode-shadow.ts decodes the wire format of
    [buildPayload]. For valid fields whose view id does not begin with a
    byte order mark, the bytes of the payload, followed by anything,
    parse to a record with the encoded version, flags, view id and
    timestamp, the sha without its trailing '0' characters, and a valid
    checksum. *)
Theorem shadow_parsePayload_roundtrip
    (now : Z) (props : DevTagStrip.DevTagPayload) (rest : list value) :
  valid_fields now props ->
  no_bom (DevTagStrip.viewId props) ->
  exists p,
    Shadow.parsePayload (map Num (DevTagStrip.buildPayload now props) ++ rest) = Some p /\
    version p = Num DevTagStrip.VERSION /\
    flags p = Num (flags_of props) /\
    sha p = strip_trailing 48 (sha_of props) /\
    viewId p = DevTagStrip.viewId props /\
    timestamp p = timestamp_of now props /\
    checksumValid p = true.
Proof. exact (shadow_parsePayload_roundtrip_aux now props rest). Qed.

Lemma shadow_parsePayload_roundtrip_witness :
  exists p,
    Shadow.parsePayload
      (map Num (DevTagStrip.buildPayload 0 (billing_props "abc1234" "/settings/billing"))
         ++ [Num 7; Undefined])
    = Some p /\
    version p = Num DevTagStrip.VERSION /\
    flags p = Num (flags_of (billing_props "abc1234" "/settings/billing")) /\
    sha p = strip_trailing 48 (sha_of (billing_props "abc1234" "/settings/billing")) /\
    viewId p = DevTagStrip.viewId (billing_props "abc1234" "/settings/billing") /\
    timestamp p = timestamp_of 0 (billing_props "abc1234" "/settings/billing") /\
    checksumValid p = true.
Proof.
  apply (shadow_parsePayload_roundtrip 0 (billing_props "abc1234" "/settings/billing")
                                       [Num 7; Undefined]).
  - apply billing_props_valid; [vm_compute; lia | apply ascii_check; reflexivity].
  - cbn. lia.
Defined.

(** ** Rows too narrow for the alpha-channel decoder *)

Lemma bytes_are_byte_or_undefined l :
  Forall is_byte l -> Forall byte_or_undefined (map Num l).
Proof. intros H. apply Forall_map. exact H. Qed.

Lemma shadow_try_row_short png row :
  png_width png < 184 -> Shadow.try_row png row = None.
Proof.
  intros Hw. unfold Shadow.try_row.
  set (bits := Shadow.extractBitsFromRow (png_data png) (png_width png) row
                                          Shadow.maxPayloadBits).
  destruct (extractBitsFromRow_length_and_range_aux (png_data png) (png_width png) row
              Shadow.maxPayloadBits) as (Hlen & Hbits).
  fold bits in Hlen, Hbits.
  destruct (bitsToBytes_bound 22 bits Hbits) as [Hn Hb].
  { rewrite Hlen. unfold Shadow.maxPayloadBits. lia. }
  destruct (Shadow.hasMagic _) eqn:Hm; [|reflexivity].
  rewrite shadow_parse_is_strip_parse by exact Hm.
  destruct (short_candidate_rejected (map Num (Shadow.bitsToBytes bits)) 0)
    as (p & Hp & Hv).
  - apply bytes_are_byte_or_undefined. exact Hb.
  - rewrite length_map. lia.
  - rewrite Hp, Hv. reflexivity.
Qed.

(** X11: an image less than 184 pixels wide never decodes with
    decode-shadow.ts: its rows give fewer than 23 whole bytes, so the
    checksum of any candidate lies beyond the bytes read and
    [decodeFromPNG] returns null. *)
Theorem shadow_decodeFromPNG_needs_184_pixels (png : PNG) :
  png_width png < 184 -> Shadow.decodeFromPNG png = None.
Proof.
  intros Hw. unfold Shadow.decodeFromPNG.
  apply first_return_None, Forall_forall. intros r _. apply shadow_try_row_short. exact Hw.
Qed.

Lemma shadow_decodeFromPNG_needs_184_pixels_witness :
  Shadow.decodeFromPNG (alpha_carrier (take 183 (DevTagScope.bits_of_payload sample_payload)))
  = None.
Proof.
  apply (shadow_decodeFromPNG_needs_184_pixels
           (alpha_carrier (take 183 (DevTagScope.bits_of_payload sample_payload)))).
  vm_compute. reflexivity.
Defined.

Lemma int32_mod_2 a : to_int32 a mod 2 = a mod 2.
Proof. unfold to_int32. Z.div_mod_to_equations. lia. Qed.

Lemma first_return_app_None {A} (body : Z -> option A) pre post :
  Forall (fun r => body r = None) pre ->
  first_return body (pre ++ post) = first_return body post.
Proof.
  induction 1 as [|r pre Hr _ IH]; [reflexivity|].
  cbn [app first_return]. rewrite Hr. exact IH.
Qed.

Lemma extractBits_prefix png row bits :
  alpha_lsb_carries png row bits ->
  exists tail,
    Shadow.extractBitsFromRow (png_data png) (png_width png) row Shadow.maxPayloadBits
    = bits ++ tail.
Proof.
  intros [Hlen Hbits].
  set (read := Shadow.extractBitsFromRow (png_data png) (png_width png) row
                                          Shadow.maxPayloadBits).
  exists (drop (length bits) read).
  rewrite <- (take_drop (length bits) read) at 1. f_equal.
  apply list_eq. intros k. destruct (bits !! k) as [b|] eqn:E.
  - assert (Hk : (k < length bits)%nat) by (eapply lookup_lt_Some; eauto).
    rewrite lookup_take_lt by exact Hk.
    unfold read. rewrite extractBitsFromRow_spec.
    replace k with (Z.to_nat (Z.of_nat k)) at 1 by lia.
    rewrite lookup_map_seqZ by lia. f_equal.
    destruct (Hbits k b E) as (a & Ha & Hb).
    unfold alpha_bit. rewrite Ha, band_1. cbn [int32_of]. rewrite int32_mod_2. exact Hb.
  - apply lookup_ge_None in E. rewrite lookup_take_ge by lia. reflexivity.
Qed.

(** X12: the decoding direction of the alpha-channel scheme. If the
    lowest bits of the alpha channels of a row spell the bits of a
    [buildPayload] payload (valid fields, no byte order mark), from the
    left edge and within the 512-bit window, and no earlier row yields a
    payload, then [decodeFromPNG] of decode-shadow.ts returns the encoded
    fields with a valid checksum. *)
Theorem shadow_decodes_alpha_lsb_payload
    (now : Z) (props : DevTagStrip.DevTagPayload) (png : PNG) (row : Z) :
  valid_fields now props ->
  no_bom (DevTagStrip.viewId props) ->
  0 <= row < png_height png ->
  alpha_lsb_carries png row
    (DevTagScope.bits_of_payload (DevTagStrip.buildPayload now props)) ->
  Forall (fun r => Shadow.try_row png r = None) (seqZ 0 row) ->
  exists p,
    Shadow.decodeFromPNG png = Some p /\
    version p = Num DevTagStrip.VERSION /\
    flags p = Num (flags_of props) /\
    sha p = strip_trailing 48 (sha_of props) /\
    viewId p = DevTagStrip.viewId props /\
    timestamp p = timestamp_of now props /\
    checksumValid p = true.
Proof.
  intros Hvalid Hbom Hrow Hcarry Hbefore.
  destruct (extractBits_prefix png row _ Hcarry) as [tail Hread].
  destruct (shadow_parsePayload_roundtrip_aux now props
              (map Num (Shadow.bitsToBytes tail)) Hvalid Hbom)
    as (p & Hp & Hfields).
  exists p. split; [|exact Hfields].
  assert (Htry : Shadow.try_row png row = Some p).
  { unfold Shadow.try_row. rewrite Hread.
    rewrite bitsToBytes_payload by (apply buildPayload_bytes; exact Hvalid).
    rewrite map_app.
    assert (Hm : Shadow.hasMagic (map Num (DevTagStrip.buildPayload now props)
                                    ++ map Num (Shadow.bitsToBytes tail)) = true).
    { destruct (buildPayload_magic now props) as [tl ->]. apply hasMagic_cons4. }
    rewrite Hm, Hp.
    destruct Hfields as (_ & _ & _ & _ & _ & ->). reflexivity. }
  unfold Shadow.decodeFromPNG.
  replace (png_height png) with (row + (png_height png - row)) by lia.
  rewrite seqZ_app by lia. rewrite first_return_app_None by exact Hbefore.
  rewrite seqZ_cons by lia. cbn [first_return]. rewrite Z.add_0_l, Htry. reflexivity.
Qed.

Lemma sample_props_valid : valid_fields 0 sample_props.
Proof.
  constructor.
  - apply ascii_well_formed, ascii_check. reflexivity.
  - vm_compute. lia.
  - constructor.
  - cbn. lia.
  - unfold is_byte. cbn. lia.
  - cbn. lia.
Qed.

Lemma alpha_carrier_get (bits : list Z) (k : nat) (b : Z) :
  bits !! k = Some b ->
  buf_get (png_data (alpha_carrier bits))
          ((0 * png_width (alpha_carrier bits) + Z.of_nat k) * 4 + 3)
  = Num (254 + b).
Proof.
  intros Hk. apply buf_get_Some; [lia|]. cbn [png_data alpha_carrier].
  replace (Z.to_nat ((0 * png_width (alpha_carrier bits) + Z.of_nat k) * 4 + 3))
    with (k * 4 + 3)%nat by lia.
  rewrite lookup_concat_chunks.
  - rewrite list_lookup_fmap, Hk. reflexivity.
  - apply Forall_map, Forall_forall. intros x _. reflexivity.
  - lia.
Qed.

Lemma alpha_carrier_carries (bits : list Z) :
  Forall is_bit bits -> (length bits <= 512)%nat ->
  alpha_lsb_carries (alpha_carrier bits) 0 bits.
Proof.
  intros Hbits Hlen. split.
  - cbn [png_width alpha_carrier]. unfold Shadow.maxPayloadBits. lia.
  - intros k b Hk. exists (254 + b). split; [apply alpha_carrier_get; exact Hk|].
    rewrite Forall_forall in Hbits.
    destruct (Hbits b) as [-> | ->]; [apply list_elem_of_lookup; eauto | reflexivity..].
Qed.

Lemma shadow_decodes_alpha_lsb_payload_witness :
  exists p,
    Shadow.decodeFromPNG (alpha_carrier (DevTagScope.bits_of_payload sample_payload))
    = Some p /\
    version p = Num DevTagStrip.VERSION /\
    flags p = Num (flags_of sample_props) /\
    sha p = strip_trailing 48 (sha_of sample_props) /\
    viewId p = DevTagStrip.viewId sample_props /\
    timestamp p = timestamp_of 0 sample_props /\
    checksumValid p = true.
Proof.
  apply (shadow_decodes_alpha_lsb_payload
           0 sample_props (alpha_carrier (DevTagScope.bits_of_payload sample_payload)) 0).
  - apply sample_props_valid.
  - cbn. lia.
  - cbn. lia.
  - apply alpha_carrier_carries; [apply bits_of_payload_bits | vm_compute; lia].
  - constructor.
Defined.

(** ** The alpha channel under the embedding *)

Section AlphaKept.

Import DevTagScope.

Variable bits : list Z.

Lemma px_set_other px idx v (i : nat) :
  Z.of_nat i <> idx -> px_set px idx v !! i = px !! i.
Proof.
  intros Hne. unfold px_set. destruct (Z.ltb_spec idx 0); [reflexivity|].
  apply list_lookup_insert_ne. lia.
Qed.

Lemma write_lsb_other px k idx (i : nat) :
  Z.of_nat i <> idx -> fst (write_lsb bits (px, k) idx) !! i = px !! i.
Proof.
  intros Hne. unfold write_lsb. destruct (k <? Z.of_nat (length bits)); [|reflexivity].
  cbn [fst]. apply px_set_other. exact Hne.
Qed.

Lemma embed_loop_alpha fuel width row : forall x px k (i : nat),
  Z.of_nat i mod 4 = 3 ->
  fst (embed_loop fuel bits width row x (px, k)) !! i = px !! i.
Proof.
  induction fuel as [|fuel IH]; intros x px k i Hi; [reflexivity|].
  cbn [embed_loop snd].
  destruct ((x <? width) && (k <? Z.of_nat (length bits))); [|reflexivity].
  set (idx := (row * width + x) * 4).
  assert (H0 : Z.of_nat i <> idx).
  { unfold idx. intros E. rewrite E, Z_mod_mult in Hi. discriminate Hi. }
  assert (H1 : Z.of_nat i <> idx + 1).
  { unfold idx. intros E. rewrite E, Z.add_comm, Z_mod_plus_full in Hi. discriminate Hi. }
  assert (H2 : Z.of_nat i <> idx + 2).
  { unfold idx. intros E. rewrite E, Z.add_comm, Z_mod_plus_full in Hi. discriminate Hi. }
  destruct (write_lsb bits (px, k) idx) as [px1 k1] eqn:E1.
  destruct (write_lsb bits (px1, k1) (idx + 1)) as [px2 k2] eqn:E2.
  destruct (write_lsb bits (px2, k2) (idx + 2)) as [px3 k3] eqn:E3.
  rewrite IH by exact Hi.
  replace px3 with (fst (write_lsb bits (px2, k2) (idx + 2))) by (rewrite E3; reflexivity).
  rewrite write_lsb_other by exact H2.
  replace px2 with (fst (write_lsb bits (px1, k1) (idx + 1))) by (rewrite E2; reflexivity).
  rewrite write_lsb_other by exact H1.
  replace px1 with (fst (write_lsb bits (px, k) idx)) by (rewrite E1; reflexivity).
  apply write_lsb_other. exact H0.
Qed.

End AlphaKept.

Lemma embed_payload_alpha scope width height pixels (i : nat) :
  Z.of_nat i mod 4 = 3 ->
  DevTagScope.embed_payload scope width height pixels !! i = pixels !! i.
Proof.
  intros Hi. unfold DevTagScope.embed_payload, DevTagScope.embed_rows, DevTagScope.embed_row.
  cbn [fold_left]. rewrite !embed_loop_alpha by exact Hi. reflexivity.
Qed.

Lemma alpha_bit_embed scope width height pixels w row x :
  alpha_bit (DevTagScope.embed_payload scope width height pixels) w row x
  = alpha_bit pixels w row x.
Proof.
  unfold alpha_bit, buf_get.
  destruct (Z.ltb_spec ((row * w + x) * 4 + 3) 0); [reflexivity|].
  rewrite embed_payload_alpha; [reflexivity|].
  rewrite Z2Nat.id by lia. rewrite Z.add_comm, Z_mod_plus_full. reflexivity.
Qed.

Lemma hierarchical_magic scope :
  exists tail,
    DevTagScope.buildHierarchicalPayload scope = 0x50 :: 0x58 :: 0x50 :: 0x56 :: tail.
Proof.
  unfold DevTagScope.buildHierarchicalPayload, DevTagScope.MAGIC. cbn [app].
  eexists. reflexivity.
Qed.

(** X13: the alpha-channel decoder does not see what
    [renderShadowWithHierarchy] embeds. The embedding leaves every alpha
    channel as it was, so [decodeFromPNG] of decode-shadow.ts returns the
    same result on the embedded pixel array as on the original one; and
    the bytes of a hierarchical payload, which begin with the magic
    "PXPV", are rejected by its [parsePayload], which expects "DTAG". *)
Theorem shadow_decoder_does_not_see_embedding
    (scope : DevTagScope.DevTagScopeData) (width height : Z) (pixels : list Z) :
  Shadow.decodeFromPNG
    (mkPNG width height (DevTagScope.embed_payload scope width height pixels))
  = Shadow.decodeFromPNG (mkPNG width height pixels) /\
  forall rest,
    Shadow.parsePayload (map Num (DevTagScope.buildHierarchicalPayload scope) ++ rest)
    = None.
Proof.
  split.
  - unfold Shadow.decodeFromPNG. cbn [png_height].
    apply first_return_ext. intros r _.
    unfold Shadow.try_row. cbn [png_data png_width].
    rewrite !extractBitsFromRow_spec.
    rewrite (map_ext _ _ (alpha_bit_embed scope width height pixels width r)).
    reflexivity.
  - intros rest. destruct (hierarchical_magic scope) as [tail ->].
    unfold Shadow.parsePayload, Shadow.hasMagic. cbn [map app length].
    destruct (_ >=? _); reflexivity.
Qed.

(** ** The bits stored by the embedding *)

Section Stores.

Import DevTagScope.

Variable bits : list Z.
Hypothesis Hbits : Forall is_bit bits.

Lemma lsb_store_bit v b :
  is_byte v -> is_bit b -> clamp8 (bor (band (int32_of (Num v)) 0xFE) b) mod 2 = b.
Proof.
  intros Hv Hb.
  pose proof (byte_forall
    (fun v => forallb (fun b =>
       clamp8 (bor (band (int32_of (Num v)) 0xFE) b) mod 2 =? b) [0; 1])
    ltac:(vm_compute; reflexivity) v Hv) as H.
  cbv beta in H. rewrite forallb_forall in H.
  apply Z.eqb_eq, H. destruct Hb as [-> | ->]; cbn; auto.
Qed.

(** One guarded store: the index advances while bits remain, the store
    lands on [i] only, and the element at [i] then holds bit [k]. *)
Lemma write_lsb_step px k i :
  Forall is_byte px -> 0 <= i < Z.of_nat (length px) -> 0 <= k ->
  exists px',
    write_lsb bits (px, k) i
    = (px', if k <? Z.of_nat (length bits) then k + 1 else k) /\
    Forall is_byte px' /\ length px' = length px /\
    (forall i' : nat, Z.of_nat i' <> i -> px' !! i' = px !! i') /\
    (k < Z.of_nat (length bits) ->
     exists v b, px' !! Z.to_nat i = Some v /\ bits !! Z.to_nat k = Some b /\ v mod 2 = b).
Proof.
  intros Hpx Hi Hk. unfold write_lsb.
  destruct (Z.ltb_spec k (Z.of_nat (length bits))) as [Hlt|Hge].
  - eexists. split; [reflexivity|].
    pose proof (write_lsb_frame bits Hbits (fun _ => True) px k i Hpx (fun _ => I)) as F.
    unfold write_lsb in F. destruct (Z.ltb_spec k (Z.of_nat (length bits))); [|lia].
    cbn [fst] in F. destruct F as (FL & FB & _).
    split; [exact FB|]. split; [exact FL|]. split.
    + intros i' Hne. apply px_set_other. exact Hne.
    + intros _.
      destruct (lookup_lt_is_Some_2 px (Z.to_nat i) ltac:(lia)) as [v Hv].
      destruct (lookup_lt_is_Some_2 bits (Z.to_nat k) ltac:(lia)) as [b Hb].
      assert (Hvb : is_byte v).
      { rewrite Forall_forall in Hpx. apply Hpx, list_elem_of_lookup. eauto. }
      assert (Hbb : is_bit b).
      { rewrite Forall_forall in Hbits. apply Hbits, list_elem_of_lookup. eauto. }
      exists (clamp8 (bor (band (int32_of (Num v)) 0xFE) b)), b.
      split; [|split; [exact Hb | apply lsb_store_bit; assumption]].
      unfold px_set. destruct (Z.ltb_spec i 0); [lia|].
      rewrite (buf_get_Some px i v) by (lia || exact Hv).
      rewrite (buf_get_Some bits k b) by (lia || exact Hb).
      cbn [int32_of]. rewrite (to_int32_small b) by (destruct Hbb; lia).
      apply list_lookup_insert_eq. lia.
  - exists px. split; [reflexivity|]. split; [exact Hpx|]. split; [reflexivity|].
    split; [reflexivity | lia].
Qed.

Variables width row : Z.
Hypothesis Hwidth : 0 < width.
Hypothesis Hrow : 0 <= row.

Lemma embed_loop_stores fuel : forall x px,
  0 <= x -> width - x <= Z.of_nat fuel ->
  Forall is_byte px -> (row + 1) * width * 4 <= Z.of_nat (length px) ->
  let px' := fst (embed_loop fuel bits width row x (px, Z.min (3 * x) (Z.of_nat (length bits)))) in
  (forall i : nat, Z.of_nat i < (row * width + x) * 4 -> px' !! i = px !! i) /\
  (forall j, 3 * x <= j < 3 * width -> j < (Z.of_nat (length bits)) -> holds_bit bits width row px' j).
Proof.
  induction fuel as [|fuel IH]; intros x px Hx Hfuel Hpx Hsize; cbv zeta.
  - split; [reflexivity|]. intros j Hj. lia.
  - cbn [embed_loop snd].
    destruct (Z.ltb_spec x width) as [Hxw|Hxw]; cbn [andb].
    2:{ split; [reflexivity|]. intros j Hj. lia. }
    destruct (Z.ltb_spec (Z.min (3 * x) (Z.of_nat (length bits))) (Z.of_nat (length bits))) as [Hk|Hk].
    2:{ split; [reflexivity|]. intros j Hj. lia. }
    rewrite Z.min_l in * by lia.
    set (idx := (row * width + x) * 4).
    assert (Hidx : 0 <= idx /\ idx + 3 < Z.of_nat (length px)) by (unfold idx; nia).
    destruct (write_lsb_step px (3 * x) idx Hpx ltac:(lia) ltac:(lia))
      as (px1 & E1 & B1 & L1 & O1 & S1).
    rewrite E1.
    destruct (Z.ltb_spec (3 * x) (Z.of_nat (length bits))) as [_|]; [|lia].
    destruct (write_lsb_step px1 (3 * x + 1) (idx + 1) B1 ltac:(lia) ltac:(lia))
      as (px2 & E2 & B2 & L2 & O2 & S2).
    rewrite E2.
    set (k2 := if 3 * x + 1 <? (Z.of_nat (length bits)) then 3 * x + 1 + 1 else 3 * x + 1) in *.
    assert (Hk2 : 0 <= k2) by (unfold k2; destruct (_ <? _); lia).
    destruct (write_lsb_step px2 k2 (idx + 2) B2 ltac:(lia) Hk2)
      as (px3 & E3 & B3 & L3 & O3 & S3).
    rewrite E3.
    set (k3 := if k2 <? (Z.of_nat (length bits)) then k2 + 1 else k2) in *.
    assert (Hk3 : k3 = Z.min (3 * (x + 1)) (Z.of_nat (length bits))).
    { unfold k3, k2. destruct (Z.ltb_spec (3 * x + 1) (Z.of_nat (length bits)));
        [destruct (Z.ltb_spec (3 * x + 1 + 1) (Z.of_nat (length bits))) | destruct (Z.ltb_spec (3 * x + 1) (Z.of_nat (length bits)))];
        lia. }
    rewrite Hk3.
    destruct (IH (x + 1) px3 ltac:(lia) ltac:(lia) B3 ltac:(lia)) as [IHa IHb].
    cbv zeta in IHa, IHb.
    set (px' := fst (embed_loop fuel bits width row (x + 1) (px3, Z.min (3 * (x + 1)) (Z.of_nat (length bits)))))
      in *.
    assert (Hbelow : forall i : nat, Z.of_nat i < idx + 4 -> px' !! i = px3 !! i).
    { intros i Hi. apply IHa. unfold idx in Hi. lia. }
    split.
    + intros i Hi. fold idx in Hi.
      rewrite Hbelow by lia. rewrite O3, O2, O1 by lia. reflexivity.
    + intros j Hj Hjl.
      destruct (Z.lt_ge_cases j (3 * (x + 1))) as [Hnear|Hfar]; [|apply IHb; lia].
      assert (Hq : j / 3 = x) by (Z.div_mod_to_equations; lia).
      assert (Hr : j mod 3 = j - 3 * x) by (Z.div_mod_to_equations; lia).
      unfold holds_bit. rewrite Hq, Hr. fold idx.
      assert (Hc : j = 3 * x \/ j = 3 * x + 1 \/ j = 3 * x + 2) by lia.
      destruct Hc as [->|[-> | ->]].
      * replace (3 * x - 3 * x) with 0 by lia. rewrite Z.add_0_r.
        destruct (S1 ltac:(lia)) as (v & b & Hv & Hb & Hvb). exists v, b.
        split; [|split; assumption].
        rewrite Hbelow, O3, O2 by lia. exact Hv.
      * replace (3 * x + 1 - 3 * x) with 1 by lia.
        destruct (S2 ltac:(lia)) as (v & b & Hv & Hb & Hvb). exists v, b.
        split; [|split; assumption].
        rewrite Hbelow, O3 by lia. exact Hv.
      * replace (3 * x + 2 - 3 * x) with 2 by lia.
        assert (Ek2 : k2 = 3 * x + 2).
        { unfold k2. destruct (Z.ltb_spec (3 * x + 1) (Z.of_nat (length bits))); lia. }
        rewrite Ek2 in S3.
        destruct (S3 ltac:(lia)) as (v & b & Hv & Hb & Hvb). exists v, b.
        split; [|split; assumption].
        rewrite Hbelow by lia. exact Hv.
Qed.

Lemma embed_row_stores px j :
  Forall is_byte px -> (row + 1) * width * 4 <= Z.of_nat (length px) ->
  0 <= j < 3 * width -> j < (Z.of_nat (length bits)) ->
  holds_bit bits width row (embed_row bits width row px) j.
Proof.
  intros Hpx Hsize Hj Hjl. unfold embed_row.
  pose proof (embed_loop_stores (Z.to_nat width) 0 px ltac:(lia) ltac:(lia) Hpx Hsize) as H.
  cbv zeta in H. replace (Z.min (3 * 0) (Z.of_nat (length bits))) with 0 in H by lia.
  apply H; lia.
Qed.

(** A pass over another row leaves the bits of this row in place. *)
Lemma embed_row_keeps row' px j :
  row' <> row -> Forall is_byte px -> 0 <= j < 3 * width ->
  holds_bit bits width row px j ->
  holds_bit bits width row (embed_row bits width row' px) j.
Proof.
  intros Hne Hpx Hj (v & b & Hv & Hb & Hvb).
  destruct (embed_row_frame bits Hbits width row' px Hpx) as (_ & _ & F).
  destruct (F _ _ Hv) as (v' & Hv' & _ & Ht).
  exists v', b. split; [exact Hv'|]. split; [exact Hb|].
  destruct (Z.eq_dec v' v) as [->|Hdiff]; [exact Hvb|].
  exfalso. destruct (Ht Hdiff) as (_ & _ & Hr). apply Hne. rewrite <- Hr.
  assert (Hq : 0 <= j / 3 < width).
  { split; [apply Z.div_pos; lia | apply Z.div_lt_upper_bound; lia]. }
  pose proof (Z.mod_pos_bound j 3 ltac:(lia)) as Hm.
  rewrite Z2Nat.id by nia.
  replace ((row * width + j / 3) * 4 + j mod 3)
    with (j mod 3 + (row * width + j / 3) * 4) by lia.
  rewrite Z.div_add by lia. rewrite (Z.div_small (j mod 3) 4) by lia.
  rewrite Z.add_0_l, Z.add_comm, Z.div_add by lia.
  rewrite Z.div_small by lia. reflexivity.
Qed.

End Stores.

Section StoresAll.

Import DevTagScope.

Variable bits : list Z.
Hypothesis Hbits : Forall is_bit bits.
Variables width height row j : Z.
Hypothesis Hwidth : 0 < width.
Hypothesis Hrow : 0 <= row.
Hypothesis Hj : 0 <= j < 3 * width.
Hypothesis Hjl : j < Z.of_nat (length bits).

Lemma embed_rows_store rows : forall px,
  Forall (fun r => 0 <= r < height) rows ->
  Forall is_byte px -> sized width height px ->
  row ∈ rows \/ holds_bit bits width row px j ->
  holds_bit bits width row (fold_left (fun px r => embed_row bits width r px) rows px) j.
Proof.
  induction rows as [|r rows IH]; intros px Hrows Hpx Hsize Hor; cbn [fold_left].
  - destruct Hor as [Hin|H]; [inversion Hin | exact H].
  - inversion Hrows as [|? ? Hr Hrows']; subst.
    destruct (embed_row_frame bits Hbits width r px Hpx) as (FL & FB & _).
    apply IH; [exact Hrows' | exact FB | unfold sized in *; rewrite FL; exact Hsize |].
    destruct (Z.eq_dec r row) as [->|Hne].
    + right. apply embed_row_stores; try assumption; try lia.
      unfold sized in Hsize. nia.
    + destruct Hor as [Hin|H].
      * apply elem_of_cons in Hin. destruct Hin as [->|Hin]; [contradiction | left; exact Hin].
      * right. apply embed_row_keeps; assumption.
Qed.

End StoresAll.

(** X14: the embedding stores the payload bits. After
    [renderShadowWithHierarchy]'s embedding into a pixel array of bytes of
    the image's size, in each of the three rows written (0,
    floor(height / 2), height - 1), bit [j] of the payload bits is the
    lowest bit of colour channel [j mod 3] of column [j / 3], for every
    [j] below both 3 * width and the number of bits. *)
Theorem embed_payload_stores_bits
    (scope : DevTagScope.DevTagScopeData) (width height : Z) (pixels : list Z)
    (row j : Z) :
  Forall is_byte pixels -> sized width height pixels ->
  0 < width -> 0 < height ->
  row ∈ DevTagScope.embed_rows height ->
  0 <= j < 3 * width ->
  j < Z.of_nat (length (DevTagScope.bits_of_payload
                          (DevTagScope.buildHierarchicalPayload scope))) ->
  holds_bit (DevTagScope.bits_of_payload (DevTagScope.buildHierarchicalPayload scope))
            width row (DevTagScope.embed_payload scope width height pixels) j.
Proof.
  intros Hpx Hsize Hw Hh Hrow Hj Hjl. unfold DevTagScope.embed_payload.
  assert (Hrows : Forall (fun r => 0 <= r < height) (DevTagScope.embed_rows height)).
  { unfold DevTagScope.embed_rows.
    repeat (apply List.Forall_cons; [Z.div_mod_to_equations; lia|]). apply List.Forall_nil. }
  assert (Hrow0 : 0 <= row).
  { rewrite Forall_forall in Hrows. apply (Hrows row Hrow). }
  apply (embed_rows_store _ (bits_of_payload_bits _) width height row j Hw Hrow0 Hj Hjl);
    try assumption. left. exact Hrow.
Qed.

Lemma embed_payload_stores_bits_witness :
  holds_bit (DevTagScope.bits_of_payload (DevTagScope.buildHierarchicalPayload sample_scope))
            4 1 (DevTagScope.embed_payload sample_scope 4 2 sample_canvas) 5.
Proof.
  apply (embed_payload_stores_bits sample_scope 4 2 sample_canvas 1 5).
  - apply bytes_check. vm_compute. reflexivity.
  - reflexivity.
  - lia.
  - lia.
  - right. left.
  - lia.
  - vm_compute. reflexivity.
Defined.

(** ** Images no larger than a tile *)

Lemma stride_nil stop step : stop <= 0 -> Decode.stride stop step = [].
Proof.
  intros H. unfold Decode.stride. replace (Z.to_nat stop) with 0%nat by lia. reflexivity.
Qed.

Lemma fold_left_id {S X} (l : list X) (a : S) : fold_left (fun m _ => m) l a = a.
Proof. induction l as [|x l IH]; [reflexivity | exact IH]. Qed.

(** X15: an image whose width or height is at most the (positive) tile
    size is not sampled at all: [scan] of decode.ts and [scanImage] of
    decode-noise.ts return the empty list, whatever the image and the
    registry hold. *)
Theorem scans_skip_image_not_larger_than_tile
    (png : PNG) (registry : list Decode.RegistryEntry)
    (hashes : list DecodeNoise.RegistryEntry) (tileSize : Z) (threshold : num) :
  0 < tileSize ->
  png_width png <= tileSize \/ png_height png <= tileSize ->
  Decode.scan png registry tileSize threshold = [] /\
  DecodeNoise.scanImage png hashes tileSize = [].
Proof.
  intros _ H. unfold Decode.scan, Decode.scan_matches, DecodeNoise.scanImage.
  unfold Decode.grid_xs, Decode.grid_ys, DecodeNoise.grid_xs, DecodeNoise.grid_ys.
  destruct H as [H|H].
  - rewrite !(stride_nil (png_width png - tileSize)) by lia. cbn [fold_left].
    rewrite !fold_left_id. split; reflexivity.
  - rewrite !(stride_nil (png_height png - tileSize)) by lia. split; reflexivity.
Qed.

Lemma scans_skip_image_not_larger_than_tile_witness :
  Decode.scan tiny_image tiny_registry 2 (Fin (7 / 10)) = [] /\
  DecodeNoise.scanImage tiny_image [] 2 = [].
Proof.
  apply (scans_skip_image_not_larger_than_tile tiny_image tiny_registry [] 2
                                               (Fin (7 / 10))).
  - lia.
  - left. cbn. lia.
Defined.

(** ** What [scan] reports *)

Section ScanSound.

Import Decode.

Variable png : PNG.
Variable registry : list RegistryEntry.
Variable tileSize : Z.
Variable threshold : num.

Lemma fold_left_inv_in {S X} (P : S -> Prop) (f : S -> X -> S) l :
  (forall a x, x ∈ l -> P a -> P (f a x)) -> forall a, P a -> P (fold_left f l a).
Proof.
  induction l as [|x l IH]; intros H a Ha; cbn [fold_left]; [exact Ha|].
  apply IH; [intros a' x' Hx' HP; apply H; [right|]; assumption|].
  apply H; [left | exact Ha].
Qed.

Lemma gtb_true a t : gtb a t = true -> exists x y, a = Fin x /\ t = Fin y /\ (y < x)%R.
Proof.
  destruct a as [|x], t as [|y]; cbn; try discriminate.
  destruct (Rlt_dec y x); [|discriminate]. intros _. eauto.
Qed.

Lemma gtb_intro x y : (y < x)%R -> gtb (Fin x) (Fin y) = true.
Proof. intros H. cbn. destruct (Rlt_dec y x); [reflexivity | contradiction]. Qed.

Lemma sound_map_bump x y e m :
  x ∈ grid_xs png tileSize -> y ∈ grid_ys png tileSize -> e ∈ registry ->
  gtb (compare (tile_at png tileSize x y) (pattern e)) threshold = true ->
  Forall (match_sound png registry tileSize threshold) m ->
  Forall (match_sound png registry tileSize threshold) (map_bump (path e) (compare (tile_at png tileSize x y) (pattern e)) m).
Proof.
  intros Hx Hy He Hpass. induction 1 as [|[k v] m Hkv Hm IH]; cbn [map_bump]; [constructor|].
  destruct (decide (k = path e)) as [->|Hne]; [|constructor; assumption].
  constructor; [|exact Hm].
  destruct Hkv as (Hk & Hc & Hs & Hw & Ht). cbn [fst snd] in *.
  split; [exact Hk|]. unfold justified. cbn [snd m_count m_score m_path m_type].
  split; [lia|].
  destruct (gtb_true _ _ Hs) as (a & t & Ea & Et & Hat).
  destruct (gtb_true _ _ Hpass) as (s & t' & Es & Et' & Hst).
  rewrite Et in Et'. injection Et' as <-.
  rewrite Ea, Es. unfold Math_max, lift2.
  split; [|split; [|exact Ht]].
  - rewrite Et. apply gtb_intro. apply Rmax_case; assumption.
  - apply Rmax_case.
    + rewrite <- Ea. exact Hw.
    + exists x, y, e. rewrite <- Es. auto.
Qed.

Lemma sound_score_entry x y e m :
  x ∈ grid_xs png tileSize -> y ∈ grid_ys png tileSize -> e ∈ registry ->
  Forall (match_sound png registry tileSize threshold) m -> Forall (match_sound png registry tileSize threshold) (score_entry (tile_at png tileSize x y) threshold m e).
Proof.
  intros Hx Hy He Hm. unfold score_entry.
  destruct (gtb _ threshold) eqn:Hpass; [|exact Hm].
  destruct (map_has _ m); [apply sound_map_bump; assumption|].
  apply Forall_app. split; [exact Hm|]. constructor; [|constructor].
  split; [reflexivity|]. unfold justified. cbn [snd m_count m_score m_path m_type].
  split; [lia|]. split; [exact Hpass|]. split.
  - exists x, y, e. auto.
  - exists e. auto.
Qed.

Lemma sound_scan_matches : Forall (match_sound png registry tileSize threshold) (scan_matches png registry tileSize threshold).
Proof.
  unfold scan_matches.
  apply (fold_left_inv_in (Forall (match_sound png registry tileSize threshold))); [|constructor].
  intros a y Hy Ha. apply (fold_left_inv_in (Forall (match_sound png registry tileSize threshold))); [|exact Ha].
  intros a' x Hx Ha'. apply (fold_left_inv_in (Forall (match_sound png registry tileSize threshold))); [|exact Ha'].
  intros a'' e He Ha''. apply sound_score_entry; assumption.
Qed.

Lemma NoDup_keys_score_entry tile m e :
  NoDup (keys m) -> NoDup (keys (score_entry tile threshold m e)).
Proof.
  intros H. rewrite keys_score_entry.
  destruct (gtb _ _); cbn [andb]; [|exact H].
  destruct (map_has (path e) m) eqn:E; cbn [negb]; [exact H|].
  apply NoDup_snoc_fresh; [exact H | apply map_has_false; exact E].
Qed.

Lemma NoDup_keys_scan_matches : NoDup (keys (scan_matches png registry tileSize threshold)).
Proof.
  unfold scan_matches. apply fold_left_inv; [|constructor].
  intros a y Ha. apply fold_left_inv; [|exact Ha].
  intros a' x Ha'. apply fold_left_inv; [|exact Ha'].
  intros a'' e Ha''. apply NoDup_keys_score_entry. exact Ha''.
Qed.

Lemma paths_are_keys m : Forall (match_sound png registry tileSize threshold) m -> map m_path (map snd m) = keys m.
Proof.
  unfold keys. induction 1 as [|[k v] m [Hk _] _ IH]; [reflexivity|].
  cbn [map fst snd] in *. rewrite Hk, IH. reflexivity.
Qed.

Lemma scan_sound_aux :
  NoDup (map m_path (scan png registry tileSize threshold)) /\
  forall m, m ∈ scan png registry tileSize threshold ->
            justified png registry tileSize threshold m.
Proof.
  unfold scan. split.
  - rewrite sort_matches_perm, (paths_are_keys _ sound_scan_matches).
    apply NoDup_keys_scan_matches.
  - intros m Hm. rewrite sort_matches_perm in Hm.
    apply list_elem_of_fmap in Hm. destruct Hm as (kv & -> & Hin).
    pose proof sound_scan_matches as H. rewrite Forall_forall in H.
    apply (H kv Hin).
Qed.

(** *** The counts add up *)

Lemma sumZ_app {X} (f : X -> Z) l1 l2 : sumZ f (l1 ++ l2) = sumZ f l1 + sumZ f l2.
Proof.
  unfold sumZ. induction l1 as [|x l1 IH]; cbn [app fold_right]; [lia|]. rewrite IH. lia.
Qed.

Lemma sumZ_fold {S X} (measure : S -> Z) (g : X -> Z) (f : S -> X -> S) l :
  (forall a x, measure (f a x) = measure a + g x) ->
  forall a, measure (fold_left f l a) = measure a + sumZ g l.
Proof.
  intros H. induction l as [|x l IH]; intros a; cbn [fold_left sumZ fold_right]; [lia|].
  rewrite IH, H. unfold sumZ. lia.
Qed.

Lemma total_map_bump key score m :
  map_has key m = true -> map_total (map_bump key score m) = map_total m + 1.
Proof.
  unfold map_total, sumZ. induction m as [|[k v] m IH]; cbn [map_has map_bump]; [discriminate|].
  destruct (decide (k = key)); intros H; cbn [fold_right snd m_count]; [lia|].
  rewrite IH by exact H. lia.
Qed.

Lemma total_score_entry tile m e :
  map_total (score_entry tile threshold m e)
  = map_total m + (if gtb (compare tile (pattern e)) threshold then 1 else 0).
Proof.
  unfold score_entry. destruct (gtb _ _); [|lia].
  destruct (map_has _ m) eqn:E; [apply total_map_bump; exact E|].
  unfold map_total. rewrite sumZ_app. reflexivity.
Qed.

Lemma sumZ_sort_insert a l :
  sumZ m_count (sort_insert a l) = m_count a + sumZ m_count l.
Proof.
  unfold sumZ. induction l as [|b l IH]; cbn [sort_insert fold_right]; [reflexivity|].
  destruct (sort_after a b); cbn [fold_right]; [rewrite IH|]; lia.
Qed.

Lemma sumZ_sort_matches l : sumZ m_count (sort_matches l) = sumZ m_count l.
Proof.
  unfold sort_matches. induction l as [|a l IH]; cbn [foldr]; [reflexivity|].
  rewrite sumZ_sort_insert, IH. reflexivity.
Qed.

Lemma scan_counts_aux :
  sumZ m_count (scan png registry tileSize threshold)
  = passing_pairs png registry tileSize threshold.
Proof.
  unfold scan. rewrite sumZ_sort_matches.
  assert (E : forall m, sumZ m_count (map snd m) = map_total m).
  { intros m. unfold map_total, sumZ. induction m as [|kv m IH]; cbn; [reflexivity|].
    rewrite IH. reflexivity. }
  rewrite E. unfold scan_matches, passing_pairs.
  rewrite (sumZ_fold map_total
             (fun y => sumZ (fun x => sumZ (fun e =>
                if gtb (compare (tile_at png tileSize x y) (pattern e)) threshold
                then 1 else 0) registry) (grid_xs png tileSize))).
  - reflexivity.
  - intros a y. apply sumZ_fold. intros a' x. apply sumZ_fold.
    intros a'' e. apply total_score_entry.
Qed.

Lemma ranks_before_trans a b c :
  ranks_before a b -> ranks_before b c -> ranks_before a c.
Proof.
  unfold ranks_before, Number.le.
  destruct (m_score a), (m_score b), (m_score c); intros [H1|[H1 H1']] [H2|[H2 H2']];
    try contradiction; try (left; lia); right; split; try lia; lra.
Qed.

Lemma sort_after_false a b :
  finite_score a -> finite_score b -> sort_after a b = false -> ranks_before a b.
Proof.
  intros [sa Ha] [sb Hb]. unfold sort_after, ranks_before. rewrite Ha, Hb.
  destruct (Z.eqb_spec (m_count b) (m_count a)) as [E|N]; cbn [negb].
  - cbn. destruct (Rlt_dec _ _); [discriminate|]. intros _. right. split; [exact E|lra].
  - destruct (Z.gtb_spec (m_count b - m_count a) 0); [discriminate|]. intros _. left. lia.
Qed.

Lemma sort_after_true a b :
  finite_score a -> finite_score b -> sort_after a b = true -> ranks_before b a.
Proof.
  intros [sa Ha] [sb Hb]. unfold sort_after, ranks_before. rewrite Ha, Hb.
  destruct (Z.eqb_spec (m_count b) (m_count a)) as [E|N]; cbn [negb].
  - cbn. destruct (Rlt_dec _ _); [|discriminate]. intros _. right. split; [lia|lra].
  - destruct (Z.gtb_spec (m_count b - m_count a) 0); [|discriminate]. intros _. left. lia.
Qed.

Lemma ranked_sort_insert a l :
  finite_score a -> Forall finite_score l -> ranked l -> ranked (sort_insert a l).
Proof.
  intros Ha Hl Hr. induction Hr as [|b l Hb Hr IH]; cbn [sort_insert].
  - constructor; constructor.
  - inversion Hl as [|? ? Hfb Hl']; subst.
    destruct (sort_after a b) eqn:E.
    + constructor; [|apply IH; exact Hl'].
      rewrite sort_insert_perm. constructor; [|exact Hb].
      apply sort_after_true; assumption.
    + constructor; [|constructor; assumption].
      pose proof (sort_after_false a b Ha Hfb E) as Hab.
      constructor; [exact Hab|].
      eapply Forall_impl; [exact Hb|]. intros c Hc. eapply ranks_before_trans; eassumption.
Qed.

Lemma ranked_sort_matches l : Forall finite_score l -> ranked (sort_matches l).
Proof.
  unfold sort_matches. induction 1 as [|a l Ha Hl IH]; cbn [foldr]; [constructor|].
  apply ranked_sort_insert; [exact Ha | | exact IH].
  fold (sort_matches l). rewrite sort_matches_perm. exact Hl.
Qed.

Lemma ranked_lookup l : ranked l ->
  forall (i j : nat) a b, (i < j)%nat -> l !! i = Some a -> l !! j = Some b ->
                          ranks_before a b.
Proof.
  induction 1 as [|c l Hc _ IH]; intros i j a b Hij Ha Hb; [destruct i; discriminate|].
  destruct j as [|j]; [lia|]. cbn in Hb.
  destruct i as [|i].
  - cbn in Ha. injection Ha as <-. rewrite Forall_forall in Hc.
    apply Hc, list_elem_of_lookup. eauto.
  - cbn in Ha. apply (IH i j); [lia | assumption | assumption].
Qed.

Lemma scan_ranked_aux : ranked (scan png registry tileSize threshold).
Proof.
  unfold scan. apply ranked_sort_matches.
  apply Forall_forall. intros m Hm.
  apply list_elem_of_fmap in Hm. destruct Hm as (kv & -> & Hin).
  pose proof sound_scan_matches as H. rewrite Forall_forall in H.
  destruct (H kv Hin) as (_ & _ & Hs & _).
  destruct (gtb_true _ _ Hs) as (s & _ & E & _). exists s. exact E.
Qed.

End ScanSound.

(** X16: [scan] reports every path at most once, and every reported match
    is justified: its count is at least 1, its score exceeds the threshold
    and is the score of a sampled tile against a registry entry of that
    path, and its type is the type of a registry entry of that path. *)
Theorem scan_reports_are_justified
    (png : PNG) (registry : list Decode.RegistryEntry) (tileSize : Z) (threshold : num) :
  NoDup (map Decode.m_path (Decode.scan png registry tileSize threshold)) /\
  forall m, m ∈ Decode.scan png registry tileSize threshold ->
            justified png registry tileSize threshold m.
Proof. apply scan_sound_aux. Qed.

(** X17: the counts reported by [scan] add up to the number of (sampled
    tile, registry entry) pairs whose score exceeds the threshold: no
    passing pair is dropped and none is counted twice. *)
Theorem scan_counts_add_up
    (png : PNG) (registry : list Decode.RegistryEntry) (tileSize : Z) (threshold : num) :
  sumZ Decode.m_count (Decode.scan png registry tileSize threshold)
  = passing_pairs png registry tileSize threshold.
Proof. apply scan_counts_aux. Qed.

(** X18: the result of [scan] is ordered by decreasing count and, among
    equal counts, by decreasing score: every match is ranked no lower than
    each match after it. *)
Theorem scan_result_is_ranked
    (png : PNG) (registry : list Decode.RegistryEntry) (tileSize : Z) (threshold : num) :
  ranked (Decode.scan png registry tileSize threshold) /\
  forall (i j : nat) (a b : Decode.Match),
    (i < j)%nat ->
    Decode.scan png registry tileSize threshold !! i = Some a ->
    Decode.scan png registry tileSize threshold !! j = Some b ->
    ranks_before a b.
Proof. split; [apply scan_ranked_aux | apply ranked_lookup, scan_ranked_aux]. Qed.

(** ** A uniformly gray image *)

Section Flat.

Import Decode.

Local Open Scope R_scope.

Variables pattern1 pattern2 : list (list num).
Variable c : R.

Hypothesis Hflat :
  forall x y,
    (0 <= x < Z.min (Z.of_nat (length pattern1)) (Z.of_nat (length pattern2)))%Z ->
    (0 <= y < Z.min (Z.of_nat (length pattern1)) (Z.of_nat (length pattern2)))%Z ->
    at2 pattern1 x y = Some (Fin c).

Lemma flat_step s x y :
  (0 <= x < Z.min (Z.of_nat (length pattern1)) (Z.of_nat (length pattern2)))%Z ->
  (0 <= y < Z.min (Z.of_nat (length pattern1)) (Z.of_nat (length pattern2)))%Z ->
  flat_sums c s ->
  flat_sums c (compare_step pattern1 pattern2 y s x).
Proof.
  intros Hx Hy (Hc & H1 & H2). unfold flat_sums, compare_step.
  cbn [count sum1 sumSq1]. rewrite (Hflat x y Hx Hy). cbn [default from_option].
  unfold Datatypes.id. rewrite H1, H2. unfold add, mul, lift2.
  split; [lia|]. rewrite plus_IZR. split; f_equal; ring.
Qed.

Lemma count_step s x y : count (compare_step pattern1 pattern2 y s x) = (count s + 1)%Z.
Proof. reflexivity. Qed.

Lemma count_row s y l :
  count (fold_left (compare_step pattern1 pattern2 y) l s)
  = (count s + Z.of_nat (length l))%Z.
Proof.
  revert s. induction l as [|x l IH]; intros s; cbn [fold_left length]; [lia|].
  rewrite IH, count_step. lia.
Qed.

Lemma count_rows s l xs :
  count (fold_left (fun s y => fold_left (compare_step pattern1 pattern2 y) xs s) l s)
  = (count s + Z.of_nat (length l) * Z.of_nat (length xs))%Z.
Proof.
  revert s. induction l as [|y l IH]; intros s; cbn [fold_left length]; [lia|].
  rewrite IH, count_row. lia.
Qed.

Lemma compare_flat threshold :
  Number.le (of_Z 0) threshold -> gtb (compare pattern1 pattern2) threshold = false.
Proof.
  intros Hth. unfold compare.
  set (size := Z.min (Z.of_nat (length pattern1)) (Z.of_nat (length pattern2))).
  set (s0 := mkSums (of_Z 0) (of_Z 0) (of_Z 0) (of_Z 0) (of_Z 0) 0).
  set (s := fold_left _ (seqZ 0 size) s0).
  assert (Hs : flat_sums c s).
  { unfold s. apply (fold_left_inv_in (flat_sums c)).
    - intros a y Hy Ha. apply elem_of_seqZ in Hy.
      apply (fold_left_inv_in (flat_sums c)); [|exact Ha].
      intros a' x Hx Ha'. apply elem_of_seqZ in Hx. apply flat_step; [lia | lia | exact Ha'].
    - unfold flat_sums, s0, of_Z. cbn [count sum1 sumSq1].
      split; [lia|]. split; f_equal; ring. }
  assert (Hcount : count s = (Z.of_nat (Z.to_nat size) * Z.of_nat (Z.to_nat size))%Z).
  { unfold s. rewrite count_rows, length_seqZ. reflexivity. }
  destruct Hs as (Hc & H1 & H2).
  destruct (Z.eq_dec (count s) 0%Z) as [E0|Hne].
  - (* no cell: the means are 0/0 *)
    rewrite E0 in *. rewrite H1, H2.
    unfold of_Z, div, sub, mul, lift2, Math_sqrt.
    destruct (Req_dec_T (IZR 0) 0) as [_|N]; [|exfalso; apply N; reflexivity].
    destruct (sum2 s), (sumSq2 s), (sumProd s); reflexivity.
  - rewrite H1, H2. unfold of_Z.
    assert (Hn : IZR (count s) <> 0) by (apply not_0_IZR; exact Hne).
    rewrite div_fin by exact Hn. unfold sub, mul, lift2 at 2 3 4.
    fold (mul (Fin (IZR (count s))) (Fin (IZR (count s) * c / IZR (count s)))).
    unfold mul, lift2.
    rewrite sqrt_fin_0 by (field; exact Hn).
    rewrite is_zero_0. cbn [orb].
    destruct threshold as [|t]; [reflexivity|]. cbn in Hth. cbn.
    destruct (Rlt_dec t 0); [lra | reflexivity].
Qed.

End Flat.

Section Uniform.

Import Decode.

Variable png : PNG.
Variable v : Z.
Variable tileSize : Z.

Hypothesis Hdata :
  png_data png = replicate (Z.to_nat (4 * png_width png * png_height png)) v.
Hypothesis Hwide : png_height png <= png_width png.

Lemma uniform_get idx :
  0 <= idx < 4 * png_width png * png_height png -> buf_get (png_data png) idx = Num v.
Proof.
  intros H. apply buf_get_Some; [lia|]. rewrite Hdata.
  apply lookup_replicate_2. lia.
Qed.

Lemma uniform_tile x0 y0 x y :
  x0 ∈ grid_xs png tileSize -> y0 ∈ grid_ys png tileSize ->
  0 <= x < tileSize -> 0 <= y < tileSize ->
  at2 (tile_at png tileSize x0 y0) x y = Some (Fin ((IZR v + IZR v + IZR v) / 3)).
Proof.
  intros Hx0 Hy0 Hx Hy.
  apply (stride_spec _ step) in Hx0; [|unfold step; lia].
  apply (stride_spec _ step) in Hy0; [|unfold step; lia].
  destruct Hx0 as (kx & Hkx & Ex & Lx). destruct Hy0 as (ky & Hky & Ey & Ly).
  unfold step in *. unfold tile_at, at2, extractTile.
  destruct (Z.ltb_spec x 0); [lia|]. destruct (Z.ltb_spec y 0); [lia|]. cbn [orb].
  rewrite lookup_map_seqZ by lia. rewrite lookup_map_seqZ by lia.
  destruct (Z.ltb_spec (x0 + x) (png_width png)); [|lia].
  destruct (Z.ltb_spec (y0 + y) (png_width png)); [|lia]. cbn [andb].
  unfold gray_at. rewrite !uniform_get by nia.
  unfold of_value, of_Z, add, lift2. rewrite div_fin by lra. reflexivity.
Qed.

Lemma uniform_scan_matches registry threshold :
  Number.le (of_Z 0) threshold -> scan_matches png registry tileSize threshold = [].
Proof.
  intros Hth. unfold scan_matches.
  apply (fold_left_inv_in (fun m => m = [])); [|reflexivity].
  intros a y Hy ->. apply (fold_left_inv_in (fun m => m = [])); [|reflexivity].
  intros a x Hx ->. apply (fold_left_inv_in (fun m => m = [])); [|reflexivity].
  intros a e _ ->. unfold score_entry.
  fold (tile_at png tileSize x y).
  rewrite (compare_flat _ _ ((IZR v + IZR v + IZR v) / 3)); [reflexivity | | exact Hth].
  intros x' y' Hx' Hy'. apply uniform_tile; try assumption.
  - unfold tile_at, extractTile in Hx'. rewrite length_map, length_seqZ in Hx'. lia.
  - unfold tile_at, extractTile in Hy'. rewrite length_map, length_seqZ in Hy'. lia.
Qed.

End Uniform.

(** X19: on an image whose channels all hold the same value and whose
    height is at most its width, [scan] reports nothing for any threshold
    that is at least 0: every sampled tile has zero variance, so [compare]
    returns 0 against every pattern. *)
Theorem scan_reports_nothing_on_uniform_image
    (png : PNG) (registry : list Decode.RegistryEntry) (tileSize : Z) (threshold : num)
    (v : Z) :
  png_data png = replicate (Z.to_nat (4 * png_width png * png_height png)) v ->
  png_height png <= png_width png ->
  Number.le (of_Z 0) threshold ->
  Decode.scan png registry tileSize threshold = [].
Proof.
  intros Hdata Hwide Hth. unfold Decode.scan.
  rewrite (uniform_scan_matches png v tileSize Hdata Hwide registry threshold Hth).
  reflexivity.
Qed.

Lemma scan_reports_nothing_on_uniform_image_witness :
  Decode.scan tiny_image tiny_registry 1 (Fin (7 / 10)) = [].
Proof.
  apply (scan_reports_nothing_on_uniform_image tiny_image tiny_registry 1
                                               (Fin (7 / 10)) 128).
  - reflexivity.
  - cbn. lia.
  - cbn. lra.
Defined.

(** ** The range of the reference pattern *)

Section PatternRange.

Local Open Scope R_scope.

Lemma next_range seed :
  (0 <= seed)%Z ->
  exists r s',
    Decode.next seed = (Fin r, s') /\ (0 <= s' < 233280)%Z /\ 0 <= r < 1.
Proof.
  intros Hs. unfold Decode.next.
  set (s' := Z.rem (seed * 9301 + 49297) 233280).
  assert (Hs' : (0 <= s' < 233280)%Z).
  { unfold s'. rewrite Z.rem_mod_nonneg by lia. apply Z.mod_pos_bound. lia. }
  exists (IZR s' / 233280), s'. unfold of_Z. rewrite div_fin by lra.
  split; [reflexivity|]. split; [exact Hs'|].
  destruct Hs' as [H0 H1]. apply IZR_le in H0. apply IZR_lt in H1.
  split.
  - apply Rmult_le_pos; [exact H0 | lra].
  - apply (Rmult_lt_reg_r 233280); [lra|]. unfold Rdiv.
    rewrite Rmult_assoc, Rinv_l by lra. lra.
Qed.

(** The constants drawn from a seed: finite phases, and amplitudes of at
    most 0.7, 0.6 and 0.5. *)
Lemma derive_range seed :
  (0 <= seed)%Z ->
  exists p1 p2 p3 a1 a2 a3,
    Decode.phase1 (Decode.derive seed) = Fin p1 /\
    Decode.phase2 (Decode.derive seed) = Fin p2 /\
    Decode.phase3 (Decode.derive seed) = Fin p3 /\
    Decode.amp1 (Decode.derive seed) = Fin a1 /\
    Decode.amp2 (Decode.derive seed) = Fin a2 /\
    Decode.amp3 (Decode.derive seed) = Fin a3 /\
    0 <= a1 <= 7 / 10 /\ 0 <= a2 <= 6 / 10 /\ 0 <= a3 <= 5 / 10.
Proof.
  intros Hs. unfold Decode.derive.
  destruct (next_range seed Hs) as (r1 & s1 & E1 & Hs1 & Hr1). rewrite E1.
  destruct (next_range s1 ltac:(lia)) as (r2 & s2 & E2 & Hs2 & Hr2). rewrite E2.
  destruct (next_range s2 ltac:(lia)) as (r3 & s3 & E3 & Hs3 & Hr3). rewrite E3.
  destruct (next_range s3 ltac:(lia)) as (r4 & s4 & E4 & Hs4 & Hr4). rewrite E4.
  destruct (next_range s4 ltac:(lia)) as (r5 & s5 & E5 & Hs5 & Hr5). rewrite E5.
  destruct (next_range s5 ltac:(lia)) as (r6 & s6 & E6 & Hs6 & Hr6). rewrite E6.
  cbn [Decode.phase1 Decode.phase2 Decode.phase3 Decode.amp1 Decode.amp2 Decode.amp3].
  unfold Decode.Math_PI, of_Z, mul, add, lift2.
  do 6 eexists. repeat (split; [reflexivity|]).
  repeat split; lra.
Qed.

Lemma pattern_gray_range data tileSize i x y :
  0 <= i -> (0 < tileSize)%Z ->
  exists r,
    Decode.pattern_gray (Decode.derive (Decode.hash data)) tileSize (Fin i) x y = Fin r /\
    245 - 153 * i <= r <= 245 + 153 * i.
Proof.
  intros Hi Hts.
  assert (Hseed : (0 <= Decode.hash data)%Z).
  { unfold Decode.hash. rewrite shru_0. apply to_uint32_range. }
  destruct (derive_range _ Hseed)
    as (p1 & p2 & p3 & a1 & a2 & a3 & E1 & E2 & E3 & E4 & E5 & E6 & B1 & B2 & B3).
  unfold Decode.pattern_gray. rewrite E1, E2, E3, E4, E5, E6.
  unfold Decode.Math_PI, of_Z.
  assert (Hn : IZR tileSize <> 0) by (apply not_0_IZR; lia).
  rewrite !div_fin by exact Hn.
  unfold mul, add, Math_sin, lift2. rewrite div_fin by lra.
  eexists. split; [reflexivity|].
  match goal with
  | |- _ <= 245 + (sin ?u * _ + sin ?v * _ + sin ?w * _) / 3 * _ * _ <= _ =>
      pose proof (SIN_bound u) as S1; pose proof (SIN_bound v) as S2;
      pose proof (SIN_bound w) as S3;
      set (s1 := sin u) in *; set (s2 := sin v) in *; set (s3 := sin w) in *
  end.
  assert (T1 : - a1 <= s1 * a1 <= a1) by nra.
  assert (T2 : - a2 <= s2 * a2 <= a2) by nra.
  assert (T3 : - a3 <= s3 * a3 <= a3) by nra.
  set (c := (s1 * a1 + s2 * a2 + s3 * a3) / 3).
  assert (Hc : - (6 / 10) <= c <= 6 / 10) by (unfold c; lra).
  assert (Hci : - (6 / 10) * i <= c * i <= 6 / 10 * i) by nra.
  lra.
Qed.

End PatternRange.



(** X21: for a non-negative intensity [i], every value of the reference
    pattern of [generatePattern] is a number within 153 * i of the base
    gray 245 (within 12.24 at the default intensity 0.08), whatever the
    key. *)
Theorem generatePattern_values_bounded
    (data : jsstring) (tileSize : Z) (i : R) (x y : Z) :
  (0 <= i)%R -> 0 <= x < tileSize -> 0 <= y < tileSize ->
  exists r,
    Decode.at2 (Decode.generatePattern data tileSize (Fin i)) x y = Some (Fin r) /\
    (245 - 153 * i <= r <= 245 + 153 * i)%R.
Proof.
  intros Hi Hx Hy. rewrite generatePattern_at by assumption.
  destruct (pattern_gray_range data tileSize i x y Hi ltac:(lia)) as (r & -> & Hr).
  exists r. split; [reflexivity | exact Hr].
Qed.

Lemma generatePattern_values_bounded_witness :
  exists r,
    Decode.at2 (Decode.generatePattern (str "b") 2 (Fin (8 / 100))) 1 0 = Some (Fin r) /\
    (245 - 153 * (8 / 100) <= r <= 245 + 153 * (8 / 100))%R.
Proof.
  apply (generatePattern_values_bounded (str "b") 2 (8 / 100) 1 0).
  - lra.
  - lia.
  - lia.
Defined.

(** ** The encoder's pixel against the decoder's reference value *)

Lemma to_uint8_clamped_byte n :
  0 <= n <= 255 -> to_uint8_clamped (of_Z n) = n.
Proof.
  intros Hn. unfold to_uint8_clamped, of_Z.
  destruct (Rle_dec (IZR n) 0) as [H0|H0].
  - apply le_IZR in H0. lia.
  - destruct (Rle_dec 255 (IZR n)) as [H1|H1].
    + apply le_IZR in H1. lia.
    + unfold round_half_even. rewrite ZfloorZ.
      destruct (Rlt_dec (IZR n - IZR n) (1 / 2)); [reflexivity | exfalso; lra].
Qed.

(** X22: for an intensity between 0 and 0.07, the gray value that
    [generatePerceptualPattern] stores at a coordinate of the tile is an
    integer [n] with n <= r < n + 1, where [r] is the value of the
    decoder's reference pattern there: the two grids differ by less than
    one gray level. *)
Theorem encoder_pixel_within_one_of_reference
    (data : jsstring) (tileSize : Z) (i : R) (x y : Z) :
  (0 <= i <= 7 / 100)%R -> 0 <= x < tileSize -> 0 <= y < tileSize ->
  exists n r,
    DevTag.image_gray
      (DevTag.generatePerceptualPattern data tileSize tileSize (Fin i)) x y = Num n /\
    Decode.at2 (Decode.generatePattern data tileSize (Fin i)) x y = Some (Fin r) /\
    (IZR n <= r < IZR n + 1)%R.
Proof.
  intros Hi Hx Hy.
  assert (Hg := generatePattern_at data tileSize (Fin i) x y Hx Hy).
  destruct (pattern_gray_range data tileSize i x y ltac:(lra) ltac:(lia)) as (r & Er & Hr).
  rewrite Er in Hg.
  pose proof (Zfloor_bound r) as Hf.
  assert (H1 : (IZR 233 < IZR (Zfloor r))%R) by lra.
  assert (H2 : (IZR (Zfloor r) < IZR 256)%R) by lra.
  apply lt_IZR in H1. apply lt_IZR in H2.
  exists (Zfloor r), r. split; [|split; [exact Hg | lra]].
  rewrite (encoder_pixel_is_floor_of_reference data tileSize (Fin i) x y r Hx Hy Hg).
  rewrite to_uint8_clamped_byte by lia. reflexivity.
Qed.

Lemma encoder_pixel_within_one_of_reference_witness :
  exists n r,
    DevTag.image_gray (DevTag.generatePerceptualPattern (str "b") 2 2 (Fin (6 / 100))) 1 0
    = Num n /\
    Decode.at2 (Decode.generatePattern (str "b") 2 (Fin (6 / 100))) 1 0 = Some (Fin r) /\
    (IZR n <= r < IZR n + 1)%R.
Proof.
  apply (encoder_pixel_within_one_of_reference (str "b") 2 (6 / 100) 1 0).
  - lra.
  - lia.
  - lia.
Defined.

(** ** What [scanImage] reports *)

Section ScanImageSound.

Import DecodeNoise.

Variable png : PNG.
Variable registry : list RegistryEntry.
Variable tileSize : Z.

Lemma found_has_spec key m : found_has key m = true <-> key ∈ found_keys m.
Proof.
  unfold found_keys. induction m as [|[k v] m IH]; cbn [found_has map fst].
  - split; [discriminate | intros H; inversion H].
  - destruct (decide (k = key)) as [->|Hne].
    + split; [intros _; left | reflexivity].
    + rewrite IH. split; [intros H; right; exact H|].
      intros H. inversion H; subst; [congruence | assumption].
Qed.

Lemma found_keys_bump key m : found_keys (found_bump key m) = found_keys m.
Proof.
  unfold found_keys. induction m as [|[k v] m IH]; cbn [found_bump map fst]; [reflexivity|].
  destruct (decide (k = key)); cbn [map fst]; [reflexivity|]. rewrite IH. reflexivity.
Qed.

Lemma found_sound_bump key m : Forall (found_sound png registry tileSize) m -> Forall (found_sound png registry tileSize) (found_bump key m).
Proof.
  induction 1 as [|[k v] m Hkv Hm IH]; cbn [found_bump]; [constructor|].
  destruct (decide (k = key)); [|constructor; assumption].
  constructor; [|exact Hm].
  destruct Hkv as (Hk & Hc & Hw). cbn [fst snd] in *.
  split; [exact Hk|]. unfold found_justified. cbn [snd f_count f_path f_type].
  split; [lia | exact Hw].
Qed.

Lemma found_sound_scan_tile x y m :
  x ∈ grid_xs png tileSize -> y ∈ grid_ys png tileSize ->
  Forall (found_sound png registry tileSize) m ->
  Forall (found_sound png registry tileSize) (scan_tile (png_data png) (png_width png) registry tileSize y m x).
Proof.
  intros Hx Hy Hm. unfold scan_tile.
  destruct (find_hash registry _) as [e|] eqn:E; [|exact Hm].
  destruct (found_has _ m); [apply found_sound_bump; exact Hm|].
  apply Forall_app. split; [exact Hm|]. constructor; [|constructor].
  split; [reflexivity|]. unfold found_justified. cbn [snd f_count f_path f_type].
  split; [lia|]. exists x, y, e. auto.
Qed.

Lemma NoDup_scan_tile x y m :
  NoDup (found_keys m) ->
  NoDup (found_keys (scan_tile (png_data png) (png_width png) registry tileSize y m x)).
Proof.
  intros H. unfold scan_tile.
  destruct (find_hash registry _) as [e|]; [|exact H].
  destruct (found_has (path e) m) eqn:E.
  - rewrite found_keys_bump. exact H.
  - unfold found_keys. rewrite map_app. cbn [map fst]. apply NoDup_snoc_fresh; [exact H|].
    intros Hin. apply found_has_spec in Hin. rewrite Hin in E. discriminate E.
Qed.

Lemma found_total_bump key m :
  found_has key m = true -> found_total (found_bump key m) = found_total m + 1.
Proof.
  unfold found_total, sumZ. induction m as [|[k v] m IH]; cbn [found_has found_bump]; [discriminate|].
  destruct (decide (k = key)); intros H; cbn [fold_right snd f_count]; [lia|].
  rewrite IH by exact H. lia.
Qed.

Lemma found_total_scan_tile x y m :
  found_total (scan_tile (png_data png) (png_width png) registry tileSize y m x)
  = found_total m + match find_hash registry
                       (extractTileHash (png_data png) (png_width png) x y tileSize) with
               | Some _ => 1
               | None => 0
               end.
Proof.
  unfold scan_tile. destruct (find_hash registry _) as [e|]; [|lia].
  destruct (found_has _ m) eqn:E; [apply found_total_bump; exact E|].
  unfold found_total. rewrite sumZ_app. reflexivity.
Qed.

Lemma found_sort_insert_perm a l : sort_insert a l ≡ₚ a :: l.
Proof.
  induction l as [|b l IH]; cbn [sort_insert]; [reflexivity|].
  destruct (sort_after a b); [|reflexivity].
  rewrite IH. apply Permutation_swap.
Qed.

Lemma found_sort_perm l : foldr sort_insert [] l ≡ₚ l.
Proof.
  induction l as [|a l IH]; cbn [foldr]; [reflexivity|].
  rewrite found_sort_insert_perm, IH. reflexivity.
Qed.

Lemma sumZ_perm {X} (f : X -> Z) l1 l2 : l1 ≡ₚ l2 -> sumZ f l1 = sumZ f l2.
Proof.
  unfold sumZ. induction 1; cbn [fold_right]; lia.
Qed.

Lemma scanImage_sweep : scanImage png registry tileSize = foldr sort_insert [] (map snd (found_sweep png registry tileSize)).
Proof. reflexivity. Qed.

Lemma found_sound_sweep : Forall (found_sound png registry tileSize) (found_sweep png registry tileSize).
Proof.
  unfold found_sweep. apply (fold_left_inv_in (Forall (found_sound png registry tileSize))); [|constructor].
  intros a y Hy Ha. apply (fold_left_inv_in (Forall (found_sound png registry tileSize))); [|exact Ha].
  intros a' x Hx Ha'. apply found_sound_scan_tile; assumption.
Qed.

Lemma NoDup_sweep : NoDup (found_keys (found_sweep png registry tileSize)).
Proof.
  unfold found_sweep. apply fold_left_inv; [|constructor].
  intros a y Ha. apply fold_left_inv; [|exact Ha].
  intros a' x Ha'. apply NoDup_scan_tile. exact Ha'.
Qed.

Lemma scanImage_sound_aux :
  NoDup (map f_path (scanImage png registry tileSize)) /\
  (forall f, f ∈ scanImage png registry tileSize ->
             found_justified png registry tileSize f) /\
  sumZ f_count (scanImage png registry tileSize) = recognised_tiles png registry tileSize.
Proof.
  rewrite scanImage_sweep. split; [|split].
  - rewrite found_sort_perm.
    assert (E : map f_path (map snd (found_sweep png registry tileSize)) = found_keys (found_sweep png registry tileSize)).
    { pose proof found_sound_sweep as H. unfold found_keys.
      induction H as [|[k v] m [Hk _] _ IH]; [reflexivity|].
      cbn [map fst snd] in *. rewrite Hk, IH. reflexivity. }
    rewrite E. apply NoDup_sweep.
  - intros f Hf. rewrite found_sort_perm in Hf.
    apply list_elem_of_fmap in Hf. destruct Hf as (kv & -> & Hin).
    pose proof found_sound_sweep as H. rewrite Forall_forall in H. apply (H kv Hin).
  - rewrite (sumZ_perm _ _ _ (found_sort_perm _)).
    assert (E : forall m, sumZ f_count (map snd m) = found_total m).
    { intros m. unfold found_total, sumZ. induction m as [|kv m IH]; cbn; [reflexivity|].
      rewrite IH. reflexivity. }
    rewrite E. unfold found_sweep, recognised_tiles.
    rewrite (sumZ_fold found_total
               (fun y => sumZ (fun x =>
                  match find_hash registry
                          (extractTileHash (png_data png) (png_width png) x y tileSize) with
                  | Some _ => 1
                  | None => 0
                  end) (grid_xs png tileSize))).
    + reflexivity.
    + intros a y. apply sumZ_fold. intros a' x. apply found_total_scan_tile.
Qed.

End ScanImageSound.

(** X23: for a positive tile size, [scanImage] of decode-noise.ts reports
    every path at most once; every reported component has a count of at
    least 1 and the path and type of the first registry entry whose hash
    is the hash of a sampled tile; and the counts add up to the number of
    sampled tiles whose hash is in the registry. *)
Theorem scanImage_reports_are_justified
    (png : PNG) (registry : list DecodeNoise.RegistryEntry) (tileSize : Z) :
  0 < tileSize ->
  NoDup (map DecodeNoise.f_path (DecodeNoise.scanImage png registry tileSize)) /\
  (forall f, f ∈ DecodeNoise.scanImage png registry tileSize ->
             found_justified png registry tileSize f) /\
  sumZ DecodeNoise.f_count (DecodeNoise.scanImage png registry tileSize)
  = recognised_tiles png registry tileSize.
Proof. intros _. apply scanImage_sound_aux. Qed.

Lemma scanImage_reports_are_justified_witness :
  NoDup (map DecodeNoise.f_path (DecodeNoise.scanImage tiny_image tiny_hashes 1)) /\
  (forall f, f ∈ DecodeNoise.scanImage tiny_image tiny_hashes 1 ->
             found_justified tiny_image tiny_hashes 1 f) /\
  sumZ DecodeNoise.f_count (DecodeNoise.scanImage tiny_image tiny_hashes 1)
  = recognised_tiles tiny_image tiny_hashes 1.
Proof. apply (scanImage_reports_are_justified tiny_image tiny_hashes 1). lia. Defined.

(** ** Nested scopes *)

Lemma nested_scope_snoc chain c :
  nested_scope (chain ++ [c])
  = Some (DevTagScope.scope_of (nested_scope chain) (fst c) (snd c)).
Proof. unfold nested_scope. rewrite fold_left_app. reflexivity. Qed.

Lemma nested_scope_invariant chain : forall c,
  exists s,
    nested_scope (chain ++ [c]) = Some s /\
    DevTagScope.id s = fst c /\
    DevTagScope.type s = snd c /\
    DevTagScope.path s = map fst (chain ++ [c]) /\
    DevTagScope.depth s = Z.of_nat (length chain) /\
    DevTagScope.parentId s = fst <$> last chain.
Proof.
  induction chain as [|d chain IH] using rev_ind; intros c.
  - eexists. split; [reflexivity|]. repeat split.
  - destruct (IH d) as (p & Hp & Hid & _ & Hpath & Hdepth & _).
    rewrite nested_scope_snoc, Hp. eexists. split; [reflexivity|].
    unfold DevTagScope.scope_of.
    cbn [DevTagScope.id DevTagScope.type DevTagScope.path DevTagScope.depth
         DevTagScope.parentId].
    rewrite Hpath, Hdepth, Hid, last_snoc, !map_app, length_app.
    cbn [length map fmap option_fmap option_map]. repeat split. lia.
Qed.

(** X24: the scope of the innermost of a chain of nested [DevTagScope]
    components has the component's id and type, the ids of the whole
    chain from the outermost inwards as its path, the number of enclosing
    scopes as its depth (0 at the root) and the id of the directly
    enclosing scope, if any, as its parent id. *)
Theorem nested_scope_depth_and_path (chain : list (jsstring * jsstring))
    (c : jsstring * jsstring) :
  exists s,
    nested_scope (chain ++ [c]) = Some s /\
    DevTagScope.id s = fst c /\
    DevTagScope.type s = snd c /\
    DevTagScope.path s = map fst (chain ++ [c]) /\
    DevTagScope.depth s = Z.of_nat (length chain) /\
    DevTagScope.parentId s = fst <$> last chain.
Proof. apply nested_scope_invariant. Qed.

(** ** The wire formats *)

Lemma xor_reduce_with_checksum bytes :
  DevTagStrip.xor_reduce (bytes ++ [DevTagStrip.xor_reduce bytes]) = 0.
Proof.
  unfold DevTagStrip.xor_reduce. rewrite fold_left_app. cbn [fold_left].
  unfold bxor. apply Z.lxor_nilpotent.
Qed.

(** X25: the wire format of [buildPayload]. For valid fields the payload
    has 23 bytes plus the UTF-8 bytes of the view id, every element is a
    byte, and the XOR of all its bytes, checksum included, is 0. *)
Theorem buildPayload_wire_format (now : Z) (props : DevTagStrip.DevTagPayload) :
  valid_fields now props ->
  Z.of_nat (length (DevTagStrip.buildPayload now props))
  = 23 + Z.of_nat (length (DevTagStrip.stringToBytes (DevTagStrip.viewId props))) /\
  Forall is_byte (DevTagStrip.buildPayload now props) /\
  DevTagStrip.xor_reduce (DevTagStrip.buildPayload now props) = 0.
Proof.
  intros Hvalid. split; [|split].
  - destruct Hvalid as [Hwf Hlen Hsha Hshalen Hflags Hts].
    unfold DevTagStrip.buildPayload.
    fold (sha_of props).
    destruct (padded_sha (sha_of props) Hsha) as (Hpl & Hpa & _).
    unfold DevTagStrip.stringToBytes at 1.
    rewrite (TextEncoder_ascii _ Hpa).
    rewrite !length_app, Hpl. cbn [length DevTagStrip.MAGIC DevTagStrip.be32]. lia.
  - apply buildPayload_bytes. exact Hvalid.
  - unfold DevTagStrip.buildPayload. apply xor_reduce_with_checksum.
Qed.

Lemma buildPayload_wire_format_witness :
  Z.of_nat (length (DevTagStrip.buildPayload 0 (billing_props "abc1234" "/settings/billing")))
  = 23 + Z.of_nat (length (DevTagStrip.stringToBytes
                             (DevTagStrip.viewId
                                (billing_props "abc1234" "/settings/billing")))) /\
  Forall is_byte (DevTagStrip.buildPayload 0 (billing_props "abc1234" "/settings/billing")) /\
  DevTagStrip.xor_reduce
    (DevTagStrip.buildPayload 0 (billing_props "abc1234" "/settings/billing")) = 0.
Proof.
  apply (buildPayload_wire_format 0 (billing_props "abc1234" "/settings/billing")).
  apply billing_props_valid; [vm_compute; lia | apply ascii_check; reflexivity].
Defined.

Lemma uint32_byte_of n : is_byte (to_uint32 n mod 256).
Proof. unfold is_byte. apply Z.mod_pos_bound. lia. Qed.

(** X26: the wire format of [buildHierarchicalPayload]. For a scope with
    well-formed strings, a one-byte depth and type, id and parent id of at
    most 255 UTF-8 bytes each, the payload has 12 bytes plus the UTF-8
    bytes of the type, the id, the parent id and the joined path, every
    element is a byte, and the XOR of all its bytes, checksum included,
    is 0. *)
Theorem buildHierarchicalPayload_wire_format (scope : DevTagScope.DevTagScopeData) :
  valid_scope scope ->
  Z.of_nat (length (DevTagScope.buildHierarchicalPayload scope))
  = 12 + Z.of_nat (length (DevTagScope.stringToBytes (DevTagScope.type scope)))
       + Z.of_nat (length (DevTagScope.stringToBytes (DevTagScope.id scope)))
       + Z.of_nat (length (DevTagScope.parentBytes_of (DevTagScope.parentId scope)))
       + Z.of_nat (length (DevTagScope.stringToBytes
                             (DevTagScope.join 47 (DevTagScope.path scope)))) /\
  Forall is_byte (DevTagScope.buildHierarchicalPayload scope) /\
  DevTagStrip.xor_reduce (DevTagScope.buildHierarchicalPayload scope) = 0.
Proof.
  intros [Hd Ht Htl Hi Hil Hp Hpl Hpath]. split; [|split].
  - unfold DevTagScope.buildHierarchicalPayload.
    rewrite !length_app. cbn [length DevTagScope.MAGIC]. lia.
  - unfold DevTagScope.buildHierarchicalPayload.
    match goal with |- Forall _ (?b ++ [_]) => assert (Hbody : Forall is_byte b) end.
    { unfold DevTagScope.stringToBytes in *. rewrite !Forall_app.
      split; [split; [split; [split; [split; [split; [split;
        [split; [split; [split; [split|]|]|]|]|]|]|]|]|]|].
      - unfold DevTagScope.MAGIC, is_byte.
        repeat (apply List.Forall_cons; [lia|]). apply List.Forall_nil.
      - apply List.Forall_cons; [unfold is_byte, DevTagScope.VERSION; lia | apply List.Forall_nil].
      - apply List.Forall_cons; [exact Hd | apply List.Forall_nil].
      - apply List.Forall_cons; [unfold is_byte; lia | apply List.Forall_nil].
      - apply TextEncoder_bytes, Ht.
      - apply List.Forall_cons; [unfold is_byte; lia | apply List.Forall_nil].
      - apply TextEncoder_bytes, Hi.
      - apply List.Forall_cons; [unfold is_byte; lia | apply List.Forall_nil].
      - unfold DevTagScope.parentBytes_of.
        destruct (DevTagScope.parentId scope) as [[|u s]|]; try apply List.Forall_nil.
        apply TextEncoder_bytes, Hp.
      - apply List.Forall_cons; [|apply List.Forall_nil].
        rewrite band_sar_byte by lia. unfold is_byte. apply Z.mod_pos_bound. lia.
      - apply List.Forall_cons; [|apply List.Forall_nil].
        rewrite band_byte. apply uint32_byte_of.
      - apply TextEncoder_bytes, Hpath. }
    apply Forall_app. split; [exact Hbody|]. apply List.Forall_cons; [|apply List.Forall_nil].
    unfold DevTagStrip.xor_reduce.
    destruct (fold_bxor_bytes _ 0 ltac:(unfold is_byte; lia) Hbody) as [-> Hx]. exact Hx.
  - unfold DevTagScope.buildHierarchicalPayload. apply xor_reduce_with_checksum.
Qed.

Lemma sample_scope_valid : valid_scope sample_scope.
Proof.
  constructor.
  - unfold is_byte. cbn. lia.
  - apply ascii_well_formed, ascii_check. reflexivity.
  - vm_compute. lia.
  - apply ascii_well_formed, ascii_check. reflexivity.
  - vm_compute. lia.
  - apply ascii_well_formed, ascii_check. reflexivity.
  - vm_compute. lia.
  - apply ascii_well_formed, ascii_check. reflexivity.
Qed.

Lemma buildHierarchicalPayload_wire_format_witness :
  Z.of_nat (length (DevTagScope.buildHierarchicalPayload sample_scope))
  = 12 + Z.of_nat (length (DevTagScope.stringToBytes (DevTagScope.type sample_scope)))
       + Z.of_nat (length (DevTagScope.stringToBytes (DevTagScope.id sample_scope)))
       + Z.of_nat (length (DevTagScope.parentBytes_of (DevTagScope.parentId sample_scope)))
       + Z.of_nat (length (DevTagScope.stringToBytes
                             (DevTagScope.join 47 (DevTagScope.path sample_scope)))) /\
  Forall is_byte (DevTagScope.buildHierarchicalPayload sample_scope) /\
  DevTagStrip.xor_reduce (DevTagScope.buildHierarchicalPayload sample_scope) = 0.
Proof.
  apply (buildHierarchicalPayload_wire_format sample_scope). apply sample_scope_valid.
Defined.
